(** * estacker: lunar limb detection and transform algebra

    A shallow embedding of package [estack]:
    - the limb detector ([LunarLimb], [computeLuminalCenter], [FindLunarLimb],
      [GrowRectangle], [ColToGrayU16]);
    - the affine / colour matrix helpers of [affine.go];
    - the debugging overlay ([DebugCompositeImage]), but for [Flush], whose
      [WritePNG] is not part of these sources.

    Conventions of the embedding.
    - Go's [int] is read in [Z].  The three accumulators of the centroid scan
      ([sumX], [sumY], [n]) and the division that follows are written with
      the 64-bit wrap-around [int_wrap].  Loop counters run over the
      rectangle being walked, whose corners are taken below the largest
      [int], and the arithmetic of the fill is on indices of the visited
      grid, which are below 10000: neither wraps.
    - [uint16] arithmetic wraps modulo [2^16] ([u16]).
    - [float64] is IEEE binary64 ([PrimFloat]), each operation rounded on
      its own (no fused multiply-add).  Where a statement of [affine.go]
      speaks of the value of a [float64], that is the real number [B2R]
      which the specification of binary64 ([SpecFloat], to which
      [FloatAxioms] ties the primitive operations) gives it; the error
      bounds are derived from that specification.  [math.Cos] and
      [math.Sin] are library code: [MatRotate] is read with any two
      functions in their place.
    - The 10000 x 10000 visited grid is the finite set of its [true] cells;
      every index expression is range checked, as Go does, and an index out
      of range is the outcome [IndexPanic].
    - The debugging overlay ([dci]) writes only to its own image.
      [FindLunarLimb] is modelled without it; the overlay is modelled
      besides, with the calls of [Set] it makes, and the last section shows
      that it does not change what the detector finds.  Coordinates are
      taken far enough from the ends of [int] for [p.X + 6] not to wrap. *)

From Stdlib Require Import ZArith Lia List Bool.
From Stdlib Require Import PrimFloat FloatOps SpecFloat Uint63.
From Stdlib Require FloatAxioms.
From Stdlib Require Import Reals Lra.
From stdpp Require Import base decidable countable list gmap sets.

Local Open Scope Z_scope.
#[local] Set Warnings "-inexact-float,-clear-no-such-hyp".

(* ===================================================================== *)
(** ** Go numeric types *)

(** Two's complement reduction of a mathematical integer to Go's 64-bit [int]. *)
Definition int_wrap (z : Z) : Z := (z + 2 ^ 63) mod 2 ^ 64 - 2 ^ 63.

(** Reduction to [uint16]. *)
Definition u16 (z : Z) : Z := z mod 2 ^ 16.

(** [a / b] on [int]: truncated towards zero. *)
Definition int_quot (a b : Z) : Z := int_wrap (Z.quot a b).

(** Conversion of a [float64] to an integer: the fraction is discarded.
    NaN and the infinities have no defined conversion in Go; they are sent
    to 0 here and never arise in [ColToGrayU16]. *)
Definition float64_trunc (f : float) : Z :=
  match Prim2SF f with
  | S754_finite s m e =>
      let a := if 0 <=? e then Z.shiftl (Z.pos m) e else Z.shiftr (Z.pos m) (- e) in
      if s then - a else a
  | _ => 0
  end.

(** [float64(r)] for an unsigned 32-bit channel value. *)
Definition float64_of_uint32 (r : Z) : float := of_uint63 (Uint63.of_Z r).

(* ===================================================================== *)
(** ** image.Point, image.Rectangle, color.Color, image.Image *)

Record Point : Type := mkPoint { X : Z; Y : Z }.

Record Rectangle : Type := mkRect { Min : Point; Max : Point }.

#[global] Instance Point_eq_dec : EqDecision Point.
Proof. solve_decision. Defined.

#[global] Instance Point_countable : Countable Point :=
  inj_countable' (fun p => (X p, Y p)) (fun xy => mkPoint (fst xy) (snd xy))
                 (fun p => match p with mkPoint _ _ => eq_refl end).

Definition Dx (r : Rectangle) : Z := X (Max r) - X (Min r).
Definition Dy (r : Rectangle) : Z := Y (Max r) - Y (Min r).

(** The result of [color.Color.RGBA()]: four [uint32] channel values. *)
Record Color : Type := mkColor { cR : Z; cG : Z; cB : Z; cA : Z }.

(** The [image.Image] interface: [Bounds()] and [At(x, y)]. *)
Record Image : Type := mkImage { ImgBounds : Rectangle; At : Z -> Z -> Color }.

(** Modelled from the spec: the type [StackedImage] is declared outside these
    sources.  The detector receives a pixel-addressable image: it reads the
    field [OrigImage], and [Filename()] for its log line only. *)
Record StackedImage : Type := mkStackedImage { OrigImage : Image }.

(* ===================================================================== *)
(** ** Luminance *)

Definition ColToGrayU16 (c : Color) : Z :=
  let gray := (float64_of_uint32 (cR c) * 0.2989
               + float64_of_uint32 (cG c) * 0.5870
               + float64_of_uint32 (cB c) * 0.1140)%float in
  let gray := if (65535 <? gray)%float then 65535%float else gray in
  u16 (float64_trunc gray).

(* ===================================================================== *)
(** ** LunarLimb *)

Record LunarLimb : Type := mkLunarLimb {
  LuminalCenter : Point;
  Brightness : Z;          (* uint16 *)
  Bounds : Rectangle
}.

(** [LunarLimb{}] *)
Definition zeroPoint : Point := mkPoint 0 0.
Definition zeroLimb : LunarLimb :=
  mkLunarLimb zeroPoint 0 (mkRect zeroPoint zeroPoint).

Definition setBounds (ll : LunarLimb) (r : Rectangle) : LunarLimb :=
  mkLunarLimb (LuminalCenter ll) (Brightness ll) r.
Definition setBrightness (ll : LunarLimb) (b : Z) : LunarLimb :=
  mkLunarLimb (LuminalCenter ll) b (Bounds ll).
Definition setLuminalCenter (ll : LunarLimb) (p : Point) : LunarLimb :=
  mkLunarLimb p (Brightness ll) (Bounds ll).

Definition GrowRectangle (r : Rectangle) (p : Point) : Rectangle :=
  let r :=
    if X p <? X (Min r) then mkRect (mkPoint (X p) (Y (Min r))) (Max r)
    else if X p >? X (Max r) then mkRect (Min r) (mkPoint (X p) (Y (Max r)))
    else r in
  let r :=
    if Y p <? Y (Min r) then mkRect (mkPoint (X (Min r)) (Y p)) (Max r)
    else if Y p >? Y (Max r) then mkRect (Min r) (mkPoint (X (Max r)) (Y p))
    else r in
  r.

Definition Grow (ll : LunarLimb) (p : Point) : LunarLimb :=
  if X (Max (Bounds ll)) =? 0 then setBounds ll (mkRect p p)
  else setBounds ll (GrowRectangle (Bounds ll) p).

Definition Radius (ll : LunarLimb) : Z :=
  Z.quot (Dx (Bounds ll) + Dy (Bounds ll)) 4.

Definition Center (ll : LunarLimb) : Point :=
  mkPoint (Z.quot (X (Min (Bounds ll)) + X (Max (Bounds ll))) 2)
          (Z.quot (Y (Min (Bounds ll)) + Y (Max (Bounds ll))) 2).

(* ===================================================================== *)
(** ** computeLuminalCenter *)

(** [for x := lo; x <= hi; x++ { body }] *)
Definition for_incl {St : Type} (lo hi : Z) (body : Z -> St -> St) (s : St) : St :=
  fold_left (fun s x => body x s) (seqZ lo (hi + 1 - lo)) s.

(** [for i := lo; i < hi; i++ { body }] *)
Definition for_excl {St : Type} (lo hi : Z) (body : Z -> St -> St) (s : St) : St :=
  fold_left (fun s x => body x s) (seqZ lo (hi - lo)) s.

Record Sums : Type := mkSums { sumX : Z; sumY : Z; n : Z }.

(** The band test on the red channel, [r > 0x0300 && r < 0xfff0]. *)
Definition in_band (c : Color) : bool := (0x0300 <? cR c) && (cR c <? 0xfff0).

Definition scan_body (img : Image) (x y : Z) (s : Sums) : Sums :=
  if in_band (At img x y)
  then mkSums (int_wrap (sumX s + x)) (int_wrap (sumY s + y)) (int_wrap (n s + 1))
  else s.

Definition scan (img : Image) : Sums :=
  let b := ImgBounds img in
  for_incl (X (Min b)) (X (Max b)) (fun x =>
    for_incl (Y (Min b)) (Y (Max b)) (fun y => scan_body img x y))
    (mkSums 0 0 0).

Definition sample_body (img : Image) (i : Z) (ll : LunarLimb) : LunarLimb :=
  setBrightness ll
    (u16 (Brightness ll
          + ColToGrayU16 (At img (X (LuminalCenter ll) + i) (Y (LuminalCenter ll))))).

Definition computeLuminalCenter (img : Image) (ll : LunarLimb) : LunarLimb :=
  let s := scan img in
  if n s =? 0 then ll
  else
    let ll := setLuminalCenter ll (mkPoint (int_quot (sumX s) (n s)) (Y (LuminalCenter ll))) in
    let ll := setLuminalCenter ll (mkPoint (X (LuminalCenter ll)) (int_quot (sumY s) (n s))) in
    let ll := for_excl (-5) 5 (sample_body img) ll in
    setBrightness ll (Brightness ll / 10).

(* ===================================================================== *)
(** ** FindLunarLimb: the flood fill *)

(** Results of code that indexes the visited grid: a value, or the run-time
    panic "index out of range". *)
Inductive res (A : Type) : Type :=
  | Ok (a : A)
  | IndexPanic.
Arguments Ok {A} a.
Arguments IndexPanic {A}.

Definition bind {A B : Type} (m : res A) (f : A -> res B) : res B :=
  match m with
  | Ok a => f a
  | IndexPanic => IndexPanic
  end.

Notation "x <- m ;; k" := (bind m (fun x => k))
  (at level 100, m at next level, right associativity).

(** [seen := [10000][10000]bool{}]: the set of cells that hold [true]. *)
Definition grid_side : Z := 10000.

Definition in_grid (x y : Z) : bool :=
  (0 <=? x) && (x <? grid_side) && (0 <=? y) && (y <? grid_side).

(** [seen[x][y]] *)
Definition seen_get (seen : gset Point) (x y : Z) : res bool :=
  if in_grid x y then Ok (bool_decide (mkPoint x y ∈ seen)) else IndexPanic.

(** [seen[x][y] = true] *)
Definition seen_mark (seen : gset Point) (x y : Z) : res (gset Point) :=
  if in_grid x y then Ok ({[ mkPoint x y ]} ∪ seen) else IndexPanic.

Record FillState : Type := mkFill {
  toVisit : list Point;
  seen : gset Point;
  limb : LunarLimb
}.

(** [if guard && !seen[q.X][q.Y] { toVisit = append(toVisit, q) }]; the
    index is evaluated only when the guard holds. *)
Definition visit (guard : bool) (seen : gset Point) (q : Point)
    (toVisit : list Point) : res (list Point) :=
  if guard then
    s <- seen_get seen (X q) (Y q) ;;
    Ok (if s then toVisit else toVisit ++ [q])
  else Ok toVisit.

(** The four neighbour tests that follow [ll.Grow(p)]. *)
Definition enqueue_neighbours (bounds : Rectangle) (seen : gset Point)
    (p : Point) (toVisit : list Point) : res (list Point) :=
  tv <- visit (X p >? X (Min bounds)) seen (mkPoint (X p - 1) (Y p)) toVisit ;;
  tv <- visit (Y p >? Y (Min bounds)) seen (mkPoint (X p) (Y p - 1)) tv ;;
  tv <- visit (X p <? X (Max bounds)) seen (mkPoint (X p + 1) (Y p)) tv ;;
  visit (Y p <? Y (Max bounds)) seen (mkPoint (X p) (Y p + 1)) tv.

(** One pass through the body of the [for] loop.  [Ok None] is the [break]
    on an empty queue. *)
Definition fill_step (img : Image) (thresh : Z) (bounds : Rectangle)
    (st : FillState) : res (option FillState) :=
  match toVisit st with
  | [] => Ok None
  | p :: rest =>
      s <- seen_get (seen st) (X p) (Y p) ;;
      if s then Ok (Some (mkFill rest (seen st) (limb st)))
      else
        seen' <- seen_mark (seen st) (X p) (Y p) ;;
        let gray := ColToGrayU16 (At img (X p) (Y p)) in
        if gray >? thresh then Ok (Some (mkFill rest seen' (limb st)))
        else
          let ll := Grow (limb st) p in
          tv <- enqueue_neighbours bounds seen' p rest ;;
          Ok (Some (mkFill tv seen' ll))
  end.

(** The loop, run for at most [fuel] passes; [None] is "out of fuel". *)
Fixpoint fill_loop (img : Image) (thresh : Z) (bounds : Rectangle)
    (fuel : nat) (st : FillState) : option (res LunarLimb) :=
  match fuel with
  | O => None
  | S fuel =>
      match fill_step img thresh bounds st with
      | IndexPanic => Some IndexPanic
      | Ok None => Some (Ok (limb st))
      | Ok (Some st') => fill_loop img thresh bounds fuel st'
      end
  end.

(** The fill never leaves the smallest box holding the seed and both corners
    of the image bounds; [fill_fuel] passes are enough for it (see
    [floodfill_terminates]). *)
Definition fill_box (bounds : Rectangle) (seed : Point) : Rectangle :=
  mkRect (mkPoint (Z.min (X seed) (X (Min bounds))) (Z.min (Y seed) (Y (Min bounds))))
         (mkPoint (Z.max (X seed) (X (Max bounds))) (Z.max (Y seed) (Y (Max bounds)))).

Definition box_area (b : Rectangle) : nat :=
  (Z.to_nat (Dx b + 1) * Z.to_nat (Dy b + 1))%nat.

Definition fill_fuel (bounds : Rectangle) (seed : Point) : nat :=
  (2 + 4 * box_area (fill_box bounds seed))%nat.

Definition floodfill (img : Image) (thresh : Z) (ll : LunarLimb) : option (res LunarLimb) :=
  let bounds := ImgBounds img in
  fill_loop img thresh bounds (fill_fuel bounds (LuminalCenter ll))
            (mkFill [LuminalCenter ll] ∅ ll).

(** [thresh := uint16(0x1000); if ll.Brightness < 0x0015 { thresh = 0x0040 }] *)
Definition fill_thresh (ll : LunarLimb) : Z :=
  if Brightness ll <? 0x0015 then 0x0040 else 0x1000.

(** How a call of [FindLunarLimb] ends. *)
Inductive Outcome : Type :=
  | Returned (ll : LunarLimb)     (* [return ll] *)
  | Fatal                         (* [log.Fatal]: the process exits *)
  | Panicked.                     (* index out of range on [seen] *)

Definition finish (r : res LunarLimb) : Outcome :=
  match r with
  | IndexPanic => Panicked
  | Ok ll => if Radius ll =? 0 then Fatal else Returned ll
  end.

Definition FindLunarLimb (si : StackedImage) : option Outcome :=
  let ll := computeLuminalCenter (OrigImage si) zeroLimb in
  let thresh := fill_thresh ll in
  finish <$> floodfill (OrigImage si) thresh ll.

(* ===================================================================== *)
(** ** Test images *)

Definition black : Color := mkColor 0 0 0 0xffff.
Definition white : Color := mkColor 0xffff 0xffff 0xffff 0xffff.
Definition grey (v : Z) : Color := mkColor v v v 0xffff.

(** An image in the manner of Go's concrete image types: [At] is the zero
    colour outside the half-open rectangle [Min, Max). *)
Definition mk_image (b : Rectangle) (pix : Z -> Z -> Color) : Image :=
  mkImage b (fun x y =>
    if (X (Min b) <=? x) && (x <? X (Max b)) && (Y (Min b) <=? y) && (y <? Y (Max b))
    then pix x y else mkColor 0 0 0 0).

(** 2 x 3, column 0 black and column 1 white. *)
Definition img_column : Image :=
  mk_image (mkRect (mkPoint 0 0) (mkPoint 2 3))
           (fun x y => if x =? 0 then black else white).

(** 3 x 3, all black. *)
Definition img_black3 : Image :=
  mk_image (mkRect (mkPoint 0 0) (mkPoint 3 3)) (fun _ _ => black).

(** 20 x 1, uniform grey 0x2000. *)
Definition img_grey20 : Image :=
  mk_image (mkRect (mkPoint 0 0) (mkPoint 20 1)) (fun _ _ => grey 0x2000).

(** All white, with bounds reaching below zero. *)
Definition img_white_neg : Image :=
  mk_image (mkRect (mkPoint (-1) (-1)) (mkPoint 2 2)) (fun _ _ => white).

(** All black, with bounds reaching below zero. *)
Definition img_black_neg : Image :=
  mk_image (mkRect (mkPoint (-1) 0) (mkPoint 1 1)) (fun _ _ => black).

(** 10000 x 1, black but for one red-ish pixel at the right end. *)
Definition img_wide : Image :=
  mk_image (mkRect (mkPoint 0 0) (mkPoint 10000 1))
           (fun x y => if x =? 9999 then mkColor 0x1000 0 0 0xffff else black).

(** A dim red, inside the band of the centroid scan. *)
Definition reddish : Color := mkColor 0x1000 0 0 0xffff.

(** 11 x 1 with bounds from x = -1, black but for one red-ish pixel at x = 4. *)
Definition img_left_edge : Image :=
  mk_image (mkRect (mkPoint (-1) 0) (mkPoint 10 1))
           (fun x y => if x =? 4 then reddish else black).

(** 20 x 1, uniform grey 0x0800: gray value 2047, between the two thresholds. *)
Definition img_dim : Image :=
  mk_image (mkRect (mkPoint 0 0) (mkPoint 20 1)) (fun _ _ => grey 0x0800).

(** Bounds (0,0)-(30,1); grey 0x0800 in the columns 0, 1 and from 28 on,
    black between them, on every row. *)
Definition img_faint : Image :=
  mkImage (mkRect (mkPoint 0 0) (mkPoint 30 1))
          (fun x y => if (x <=? 1) || (28 <=? x) then grey 0x0800 else black).


(* ===================================================================== *)
(** ** affine.go *)

(** The arithmetic of [float64] that [affine.go] uses.  The code is written
    over this interface and read at binary64 itself ([PrimFloat]), each
    operation rounded on its own. *)
Class Arith (T : Type) : Type := mkArith {
  a_zero : T;
  a_one : T;
  a_add : T -> T -> T;
  a_mul : T -> T -> T;
  a_div : T -> T -> T
}.

(** What [MatRotate] and [MatRotateAbout] need besides: the constants [-1]
    and [180.0], [math.Pi], [math.Cos] and [math.Sin]. *)
Class Trig (T : Type) : Type := mkTrig {
  t_minus_one : T;
  t_180 : T;
  t_Pi : T;
  t_Cos : T -> T;
  t_Sin : T -> T
}.

#[global] Instance float64_Arith : Arith float :=
  mkArith float 0%float 1%float PrimFloat.add PrimFloat.mul PrimFloat.div.

(** [math.Pi] as a [float64]. *)
Definition math_Pi : float := 3.141592653589793%float.

(** [float64] with two functions in the place of [math.Cos] and [math.Sin]. *)
Definition float64_Trig_with (Cos Sin : float -> float) : Trig float :=
  mkTrig float (-1)%float 180%float math_Pi Cos Sin.

Declare Scope arith_scope.
Delimit Scope arith_scope with ar.
Infix "+" := a_add : arith_scope.
Infix "*" := a_mul : arith_scope.
Infix "/" := a_div : arith_scope.

(** [f64.Aff3]: row major 2 x 3, the bottom row [0 0 1] implicit. *)
Record MyAff3 (T : Type) : Type := mkAff3 {
  f00 : T; f01 : T; f02 : T;
  f10 : T; f11 : T; f12 : T
}.
Arguments mkAff3 {T}.
Arguments f00 {T} _.
Arguments f01 {T} _.
Arguments f02 {T} _.
Arguments f10 {T} _.
Arguments f11 {T} _.
Arguments f12 {T} _.

(** [f64.Vec3] and [f64.Mat3] (row major 3 x 3). *)
Record MyVec3 (T : Type) : Type := mkVec3 { v0 : T; v1 : T; v2 : T }.
Arguments mkVec3 {T}.
Arguments v0 {T} _.
Arguments v1 {T} _.
Arguments v2 {T} _.

Record MyMat3 (T : Type) : Type := mkMat3 {
  m00 : T; m01 : T; m02 : T;
  m10 : T; m11 : T; m12 : T;
  m20 : T; m21 : T; m22 : T
}.
Arguments mkMat3 {T}.
Arguments m00 {T} _.
Arguments m01 {T} _.
Arguments m02 {T} _.
Arguments m10 {T} _.
Arguments m11 {T} _.
Arguments m12 {T} _.
Arguments m20 {T} _.
Arguments m21 {T} _.
Arguments m22 {T} _.

Section Affine.
Context {T : Type} `{Arith T}.
Local Open Scope arith_scope.

Definition MyAff3_MatMult (p q : MyAff3 T) : MyAff3 T :=
  mkAff3
    (f00 p * f00 q + f01 p * f10 q)
    (f00 p * f01 q + f01 p * f11 q)
    (f00 p * f02 q + f01 p * f12 q + f02 p)
    (f10 p * f00 q + f11 p * f10 q)
    (f10 p * f01 q + f11 p * f11 q)
    (f10 p * f02 q + f11 p * f12 q + f12 p).

Definition MatIdentity : MyAff3 T :=
  mkAff3 a_one a_zero a_zero a_zero a_one a_zero.

Definition MatTranslate (m1 : MyAff3 T) (tx ty : T) : MyAff3 T :=
  MyAff3_MatMult m1 (mkAff3 a_one a_zero tx a_zero a_one ty).

Definition MyMat3_MatMult (a b : MyMat3 T) : MyMat3 T :=
  mkMat3
    (m00 a * m00 b + m01 a * m10 b + m02 a * m20 b)
    (m00 a * m01 b + m01 a * m11 b + m02 a * m21 b)
    (m00 a * m02 b + m01 a * m12 b + m02 a * m22 b)
    (m10 a * m00 b + m11 a * m10 b + m12 a * m20 b)
    (m10 a * m01 b + m11 a * m11 b + m12 a * m21 b)
    (m10 a * m02 b + m11 a * m12 b + m12 a * m22 b)
    (m20 a * m00 b + m21 a * m10 b + m22 a * m20 b)
    (m20 a * m01 b + m21 a * m11 b + m22 a * m21 b)
    (m20 a * m02 b + m21 a * m12 b + m22 a * m22 b).

Definition MyMat3_Apply (m : MyMat3 T) (v : MyVec3 T) : MyVec3 T :=
  mkVec3
    (m00 m * v0 v + m01 m * v1 v + m02 m * v2 v)
    (m10 m * v0 v + m11 m * v1 v + m12 m * v2 v)
    (m20 m * v0 v + m21 m * v1 v + m22 m * v2 v).

Definition InvertDiag (v : MyVec3 T) : MyMat3 T :=
  mkMat3
    (a_one / v0 v) a_zero a_zero
    a_zero (a_one / v1 v) a_zero
    a_zero a_zero (a_one / v2 v).

Context `{Trig T}.

Definition MatRotate (m1 : MyAff3 T) (thetaDeg : T) : MyAff3 T :=
  let cosTheta := t_Cos (thetaDeg * t_Pi / t_180) in
  let sinTheta := t_Sin (thetaDeg * t_Pi / t_180) in
  MyAff3_MatMult m1
    (mkAff3 cosTheta (t_minus_one * sinTheta) a_zero
            sinTheta cosTheta a_zero).

Definition MatRotateAbout (thetaDeg x y : T) : MyAff3 T :=
  MatTranslate
    (MatRotate (MatTranslate MatIdentity x y) thetaDeg)
    (t_minus_one * x) (t_minus_one * y).
End Affine.

(** The image of the point [(x, y)] under the transform [m], read off
    [affine.go] itself: [m.MatTranslate(x, y)] is [m] after the translation
    that takes the origin to [(x, y)] (transforms compose back to front),
    and its translation column is where the origin ends up:
    [m[0]*x + m[1]*y + m[2]] and [m[3]*x + m[4]*y + m[5]]. *)
Definition image_of (m : MyAff3 float) (x y : float) : float * float :=
  let r := MatTranslate m x y in (f02 r, f12 r).

(** The colour vector [49, 1, 1], in binary64; a vector with a subnormal
    component and one with an infinite component. *)
Definition vec49 : MyVec3 float := mkVec3 49%float 1%float 1%float.
Definition vec_tiny : MyVec3 float := mkVec3 1e-320%float 1%float 1%float.
Definition vec_inf : MyVec3 float := mkVec3 1%float infinity 1%float.

(** [0.7071067811865476], the binary64 number next to the cosine and the
    sine of 45 degrees, and [float64] with it for the value of both. *)
Definition c45 : float := 0.7071067811865476%float.
Definition Trig45 : Trig float := float64_Trig_with (fun _ => c45) (fun _ => c45).

(* ===================================================================== *)
(** ** binary64 and the real numbers *)

(** [2^e] as a real number. *)
Definition bpow (e : Z) : R := powerRZ 2 e.

(** The real number that a [spec_float] stands for; 0 for the zeros, and
    for the infinities and NaN, which stand for none. *)
Definition SF2R (f : spec_float) : R :=
  match f with
  | S754_finite s m e => ((if s then -1 else 1) * IZR (Z.pos m) * bpow e)%R
  | _ => 0%R
  end.

Definition SFfinite (f : spec_float) : bool :=
  match f with
  | S754_finite _ _ _ | S754_zero _ => true
  | _ => false
  end.

(** The value of a [float64], and whether it is a number (a zero included)
    and neither an infinity nor NaN. *)
Definition B2R (x : float) : R := SF2R (Prim2SF x).

Definition finite64 (x : float) : Prop := SFfinite (Prim2SF x) = true.

(** A normal number of binary64: finite, not zero, with the full 53 bits. *)
Definition normal64 (x : float) : bool :=
  match classify x with
  | FloatClass.PNormal | FloatClass.NNormal => true
  | _ => false
  end.

(** The binary64 number [c] is finite and within [tol] of the real [r]. *)
Definition near (c : float) (r tol : R) : Prop :=
  finite64 c /\ (Rabs (B2R c - r) <= tol)%R.

(** The binary64 number [c] is finite and its value is the real [r]. *)
Definition exact64 (c : float) (r : R) : Prop := finite64 c /\ B2R c = r.

(** [x] lies where the round and sticky bits of [mrs] say: on [m], strictly
    between [m] and [m + 1/2], on [m + 1/2], or strictly between [m + 1/2]
    and [m + 1]. *)
Definition located (mrs : shr_record) (x : R) : Prop :=
  match shr_r mrs, shr_s mrs with
  | false, false => x = IZR (shr_m mrs)
  | false, true => (IZR (shr_m mrs) < x < IZR (shr_m mrs) + / 2)%R
  | true, false => x = (IZR (shr_m mrs) + / 2)%R
  | true, true => (IZR (shr_m mrs) + / 2 < x < IZR (shr_m mrs) + 1)%R
  end.

(** The unit roundoff [2^-53] of binary64 and half its smallest positive
    number, [2^-1075]. *)
Definition u64 : R := bpow (-53).
Definition eta64 : R := bpow (-1075).

(** The sign of a [spec_float] as a factor. *)
Definition sgn (s : bool) : R := if s then (-1)%R else 1%R.

(* ===================================================================== *)
(** ** Vocabulary of the statements *)

(** [p] lies in [r], both corners included. *)
Definition inside (r : Rectangle) (p : Point) : Prop :=
  X (Min r) <= X p <= X (Max r) /\ Y (Min r) <= Y p <= Y (Max r).

(** [r] is the bounding rectangle of the set [S]: it holds every point of [S]
    and each of its four sides touches one. *)
Definition bounding_rect (S : Point -> Prop) (r : Rectangle) : Prop :=
  (forall p, S p -> inside r p) /\
  (exists p, S p /\ X p = X (Min r)) /\
  (exists p, S p /\ X p = X (Max r)) /\
  (exists p, S p /\ Y p = Y (Min r)) /\
  (exists p, S p /\ Y p = Y (Max r)).

(** The points of a rectangle, corners included, column by column. *)
Definition scan_points (b : Rectangle) : list Point :=
  x ← seqZ (X (Min b)) (X (Max b) + 1 - X (Min b));
  y ← seqZ (Y (Min b)) (Y (Max b) + 1 - Y (Min b));
  [mkPoint x y].

(** The pixels of the scan whose red channel is in the band. *)
Definition qualifying (img : Image) : list Point :=
  filter (fun p => in_band (At img (X p) (Y p)) = true) (scan_points (ImgBounds img)).

Definition sumZ (l : list Z) : Z := foldr Z.add 0 l.

(** The gray values of the ten pixels sampled around [c]. *)
Definition window (img : Image) (c : Point) : list Z :=
  (fun i => ColToGrayU16 (At img (X c + i) (Y c))) <$> seqZ (-5) 10.

(** Every corner coordinate of [b] is at most [2^20] in absolute value. *)
Definition modest (b : Rectangle) : Prop :=
  - 2 ^ 20 <= X (Min b) /\ X (Max b) <= 2 ^ 20 /\
  - 2 ^ 20 <= Y (Min b) /\ Y (Max b) <= 2 ^ 20.

(** Both corners of [b] are valid indices of the visited grid. *)
Definition within_grid (b : Rectangle) : Prop :=
  0 <= X (Min b) /\ X (Max b) < grid_side /\
  0 <= Y (Min b) /\ Y (Max b) < grid_side.

(** A valid index pair of the visited grid. *)
Definition in_gridP (p : Point) : Prop := in_grid (X p) (Y p) = true.

(** [p] does not exceed the threshold. *)
Definition dark (img : Image) (thresh : Z) (p : Point) : Prop :=
  ColToGrayU16 (At img (X p) (Y p)) <= thresh.

(** [q] is a 4-neighbour of [p] that the fill may step to from [p]: the
    move is guarded by the image bounds on the side it goes to. *)
Definition move (bounds : Rectangle) (p q : Point) : Prop :=
  (q = mkPoint (X p - 1) (Y p) /\ X p > X (Min bounds)) \/
  (q = mkPoint (X p) (Y p - 1) /\ Y p > Y (Min bounds)) \/
  (q = mkPoint (X p + 1) (Y p) /\ X p < X (Max bounds)) \/
  (q = mkPoint (X p) (Y p + 1) /\ Y p < Y (Max bounds)).

(** The same neighbours as a list, in the order the code tests them. *)
Definition neighbours (bounds : Rectangle) (p : Point) : list Point :=
  (if X p >? X (Min bounds) then [mkPoint (X p - 1) (Y p)] else []) ++
  (if Y p >? Y (Min bounds) then [mkPoint (X p) (Y p - 1)] else []) ++
  (if X p <? X (Max bounds) then [mkPoint (X p + 1) (Y p)] else []) ++
  (if Y p <? Y (Max bounds) then [mkPoint (X p) (Y p + 1)] else []).

(** What the four tests do to the queue, for a list [l] of neighbours whose
    guards hold: panic if one is no valid index, else append the unvisited. *)
Definition visit_list (seen : gset Point) (l : list Point) (toVisit : list Point)
  : res (list Point) :=
  if forallb (fun q => in_grid (X q) (Y q)) l
  then Ok (toVisit ++ filter (fun q => q ∉ seen) l)
  else IndexPanic.

(** The limb: pixels not above the threshold that the seed reaches by such
    moves through pixels not above the threshold. *)
Inductive reachable (img : Image) (thresh : Z) (bounds : Rectangle) (seed : Point)
  : Point -> Prop :=
  | reach_seed : dark img thresh seed -> reachable img thresh bounds seed seed
  | reach_move p q :
      reachable img thresh bounds seed p ->
      move bounds p q -> dark img thresh q ->
      reachable img thresh bounds seed q.

(** 4-adjacency, without any guard. *)
Definition adjacent4 (p q : Point) : Prop :=
  (X q = X p - 1 /\ Y q = Y p) \/ (X q = X p /\ Y q = Y p - 1) \/
  (X q = X p + 1 /\ Y q = Y p) \/ (X q = X p /\ Y q = Y p + 1).

(** The pixels accepted so far: visited and not above the threshold. *)
Definition accepted (img : Image) (thresh : Z) (st : FillState) (p : Point) : Prop :=
  p ∈ seen st /\ dark img thresh p.

(** The loop invariant of the fill started at [seed]. *)
Record fill_inv (img : Image) (thresh : Z) (bounds : Rectangle) (seed : Point)
    (st : FillState) : Prop := mkFillInv {
  inv_seen_grid : forall p, p ∈ seen st -> in_gridP p;
  inv_queue : forall q, q ∈ toVisit st ->
      q = seed \/ (in_gridP q /\ exists p, accepted img thresh st p /\ move bounds p q);
  inv_seed : seed ∈ seen st \/ seed ∈ toVisit st;
  inv_sound : forall p, accepted img thresh st p -> reachable img thresh bounds seed p;
  inv_closed : forall p q, accepted img thresh st p -> move bounds p q ->
      in_gridP q /\ (q ∈ seen st \/ q ∈ toVisit st);
  inv_fresh : (forall p, ~ accepted img thresh st p) ->
      forall q, q ∈ toVisit st -> q = seed
}.

(** What the loop keeps true of [ll], when it starts from [ll0]: nothing
    accepted and [ll] untouched, or [ll.Bounds] the bounding rectangle of the
    accepted pixels. *)
Definition bounds_inv (img : Image) (thresh : Z) (ll0 : LunarLimb)
    (st : FillState) : Prop :=
  LuminalCenter (limb st) = LuminalCenter ll0 /\
  Brightness (limb st) = Brightness ll0 /\
  (((forall p, ~ accepted img thresh st p) /\ Bounds (limb st) = Bounds ll0) \/
   ((exists p, accepted img thresh st p) /\
    bounding_rect (accepted img thresh st) (Bounds (limb st)) /\
    0 < X (Max (Bounds (limb st))))).

(** [box] holds the image bounds. *)
Definition covers (box bounds : Rectangle) : Prop :=
  X (Min box) <= X (Min bounds) /\ X (Max bounds) <= X (Max box) /\
  Y (Min box) <= Y (Min bounds) /\ Y (Max bounds) <= Y (Max box).

(** Queue and visited cells stay in a box. *)
Definition box_inv (box : Rectangle) (st : FillState) : Prop :=
  (forall q, q ∈ toVisit st -> inside box q) /\
  (forall p, p ∈ seen st -> inside box p).

(** The quantity that every pass of the loop decreases. *)
Definition fill_measure (box : Rectangle) (st : FillState) : nat :=
  (length (toVisit st) + 4 * (box_area box - size (seen st)))%nat.

(** [k] passes through the loop body; [None] once the loop has stopped. *)
Fixpoint fill_passes (img : Image) (thresh : Z) (bounds : Rectangle)
    (k : nat) (st : FillState) : option FillState :=
  match k with
  | O => Some st
  | S k =>
      match fill_step img thresh bounds st with
      | Ok (Some st') => fill_passes img thresh bounds k st'
      | _ => None
      end
  end.

(** [ll.Grow] over a sequence of accepted pixels. *)
Definition grow_all (ll : LunarLimb) (ps : list Point) : LunarLimb :=
  fold_left Grow ps ll.

(** The inputs of the flood fill inside [FindLunarLimb]. *)
Definition seed_limb (si : StackedImage) : LunarLimb :=
  computeLuminalCenter (OrigImage si) zeroLimb.

(** The fill of [FindLunarLimb] ends with the bounding rectangle of the limb
    in [ll.Bounds]. *)
Definition limb_bounds_computed (si : StackedImage) : Prop :=
  let img := OrigImage si in
  let ll0 := seed_limb si in
  exists ll, floodfill img (fill_thresh ll0) ll0 = Some (Ok ll) /\
    bounding_rect (reachable img (fill_thresh ll0) (ImgBounds img) (LuminalCenter ll0))
                  (Bounds ll).

(** Every pixel coordinate of [b], read Go's way with [Max] left out, is a
    valid index of the grid. *)
Definition pixels_in_grid (b : Rectangle) : Prop :=
  0 <= X (Min b) /\ X (Max b) <= grid_side /\
  0 <= Y (Min b) /\ Y (Max b) <= grid_side.

(** [b] holds a negative coordinate, or one of 10000 or more. *)
Definition leaves_grid (b : Rectangle) : Prop :=
  X (Min b) < X (Max b) /\ Y (Min b) < Y (Max b) /\
  (X (Min b) < 0 \/ Y (Min b) < 0 \/ grid_side < X (Max b) \/ grid_side < Y (Max b)).

(** For one image: no index is out of range when every pixel coordinate is a
    valid index, and some index is out of range when the bounds hold a
    coordinate that is none. *)
Definition index_range_decided (si : StackedImage) : Prop :=
  let b := ImgBounds (OrigImage si) in
  (pixels_in_grid b -> exists o, FindLunarLimb si = Some o /\ o <> Panicked) /\
  (leaves_grid b -> FindLunarLimb si = Some Panicked).

(** The limb that [FindLunarLimb] returns for [img_disk] below. *)
Definition limb_disk : LunarLimb :=
  mkLunarLimb (mkPoint 2 2) 1638 (mkRect (mkPoint 1 1) (mkPoint 3 3)).

(** 5 x 5: a dark 3 x 3 block inside a ring of grey 0x2000. *)
Definition img_disk : Image :=
  mk_image (mkRect (mkPoint 0 0) (mkPoint 5 5))
    (fun x y => if (1 <=? x) && (x <=? 3) && (1 <=? y) && (y <=? 3)
                then black else grey 0x2000).

(** The state in which the fill of [FindLunarLimb] starts. *)
Definition fill_start (si : StackedImage) : FillState :=
  mkFill [LuminalCenter (seed_limb si)] ∅ (seed_limb si).

(** The fill of [FindLunarLimb] on [si] is run with the threshold [t]: the
    outcome is that of the loop with [t]; a pass that takes an unvisited
    pixel from the queue rejects it when its gray value is above [t] and
    accepts it when it is not; and when the loop runs to its end, it ends in
    a state, reached by passes with [t], whose visited pixels of gray value
    at most [t] are the pixels that the seed reaches through such pixels. *)
Definition fill_runs_with (si : StackedImage) (t : Z) : Prop :=
  let img := OrigImage si in
  let b := ImgBounds img in
  let gray p := ColToGrayU16 (At img (X p) (Y p)) in
  FindLunarLimb si =
    finish <$> fill_loop img t b (fill_fuel b (LuminalCenter (seed_limb si)))
                         (fill_start si) /\
  (forall st p rest,
     toVisit st = p :: rest -> in_gridP p -> p ∉ seen st ->
     (t < gray p ->
        fill_step img t b st = Ok (Some (mkFill rest ({[p]} ∪ seen st) (limb st)))) /\
     (gray p <= t -> (forall q, move b p q -> in_gridP q) ->
        fill_step img t b st =
        Ok (Some (mkFill (rest ++ filter (fun q => q ∉ {[p]} ∪ seen st) (neighbours b p))
                         ({[p]} ∪ seen st) (Grow (limb st) p))))) /\
  (forall ll,
     fill_loop img t b (fill_fuel b (LuminalCenter (seed_limb si))) (fill_start si)
       = Some (Ok ll) ->
     exists k st,
       fill_passes img t b k (fill_start si) = Some st /\
       toVisit st = [] /\ limb st = ll /\
       forall p, (p ∈ seen st /\ gray p <= t) <->
                 reachable img t b (LuminalCenter (seed_limb si)) p).

(* ===================================================================== *)
(** ** Vocabulary of the further properties *)

(** The [Min] corner of [r] is not right of, nor below, its [Max] corner. *)
Definition well_formed (r : Rectangle) : Prop :=
  X (Min r) <= X (Max r) /\ Y (Min r) <= Y (Max r).

(** The smallest rectangle that holds [r] and [p]. *)
Definition hull (r : Rectangle) (p : Point) : Rectangle :=
  mkRect (mkPoint (Z.min (X (Min r)) (X p)) (Z.min (Y (Min r)) (Y p)))
         (mkPoint (Z.max (X (Max r)) (X p)) (Z.max (Y (Max r)) (Y p))).

(** Each of the four sides of [r] goes through a point of [S]. *)
Definition touches (S : Point -> Prop) (r : Rectangle) : Prop :=
  (exists p, S p /\ X p = X (Min r)) /\
  (exists p, S p /\ X p = X (Max r)) /\
  (exists p, S p /\ Y p = Y (Min r)) /\
  (exists p, S p /\ Y p = Y (Max r)).

(** What every pass of the fill keeps true of [ll], whatever the seed:
    [LuminalCenter] and [Brightness] are those of [ll0], and [Bounds] is
    that of [ll0] or a well formed rectangle with an accepted pixel on each
    side. *)
Definition limb_inv (img : Image) (thresh : Z) (ll0 : LunarLimb)
    (st : FillState) : Prop :=
  LuminalCenter (limb st) = LuminalCenter ll0 /\
  Brightness (limb st) = Brightness ll0 /\
  (Bounds (limb st) = Bounds ll0 \/
   (well_formed (Bounds (limb st)) /\
    touches (accepted img thresh st) (Bounds (limb st)))).

(** [P] holds of the [k] integers from [v] on. *)
Fixpoint all_from (P : Z -> bool) (k : nat) (v : Z) : bool :=
  match k with
  | O => true
  | S k => P v && all_from P k (v + 1)
  end.

(* ===================================================================== *)
(** ** affine.go: clamping a vector *)

(** The comparison [a < b] of [float64]; [a > b] is [b < a].  On binary64
    both are [false] as soon as an operand is NaN. *)
Class Compare (T : Type) : Type := mkCompare { c_lt : T -> T -> bool }.

#[global] Instance float64_Compare : Compare float := mkCompare float PrimFloat.ltb.

Section Clamp.
Context {T : Type} `{Compare T}.

(** [v.FloorAt(min)]: the vector that the call leaves in [*v]. *)
Definition FloorAt (v : MyVec3 T) (min : T) : MyVec3 T :=
  let v := if c_lt (v0 v) min then mkVec3 min (v1 v) (v2 v) else v in
  let v := if c_lt (v1 v) min then mkVec3 (v0 v) min (v2 v) else v in
  let v := if c_lt (v2 v) min then mkVec3 (v0 v) (v1 v) min else v in
  v.

(** [v.CeilingAt(max)] *)
Definition CeilingAt (v : MyVec3 T) (max : T) : MyVec3 T :=
  let v := if c_lt max (v0 v) then mkVec3 max (v1 v) (v2 v) else v in
  let v := if c_lt max (v1 v) then mkVec3 (v0 v) max (v2 v) else v in
  let v := if c_lt max (v2 v) then mkVec3 (v0 v) (v1 v) max else v in
  v.
End Clamp.

(** The components of a vector. *)
Definition components {T : Type} (v : MyVec3 T) : list T := [v0 v; v1 v; v2 v].

(* ===================================================================== *)
(** ** The debugging overlay *)

(** The run-time panics of the overlay code. *)
Inductive panic : Type :=
  | IndexOutOfRange     (* [plotColors[i]] with [i] below 0, or [seen] *)
  | NilDereference      (* [fillMap.Set] with [fillMap] nil *)
  | DivideByZero        (* [segment % maxFrames] with [maxFrames] 0 *)
  | LibraryPanic.       (* [image.NewRGBA] refuses the rectangle *)

(** Results of code that may panic. *)
Inductive run (A : Type) : Type :=
  | Done (a : A)
  | Panics (e : panic).
Arguments Done {A} a.
Arguments Panics {A} e.

Definition run_bind {A B : Type} (m : run A) (f : A -> run B) : run B :=
  match m with
  | Done a => f a
  | Panics e => Panics e
  end.

Notation "x <~ m ;; k" := (run_bind m (fun x => k))
  (at level 100, m at next level, right associativity).

(** A call [Set(x, y, c)] on an [*image.RGBA]. *)
Record SetCall : Type := mkSetCall { set_x : Z; set_y : Z; set_col : Color }.

(** An [image.RGBA] as the overlay sees it: the rectangle it was made for and
    the calls of [Set] it has received, oldest first.  What a call does to
    the pixels is the image library's. *)
Record RGBA : Type := mkRGBA { Rect : Rectangle; calls : list SetCall }.

(** [fillMap] is a pointer: [None] is [nil]. *)
Record DebugCompositeImage : Type := mkDci {
  fillMap : option RGBA;
  currFrame : Z;
  center : Point;
  maxFrames : Z
}.

(** The zero value, with which the package variable [dci] starts. *)
Definition dci_zero : DebugCompositeImage := mkDci None 0 zeroPoint 0.

(** The colours are [color.RGBA64] values, read as their four channels. *)
Definition plotColors : list Color :=
  [ mkColor 0xa000 0 0 0xffff;
    mkColor 0 0xa000 0 0xffff;
    mkColor 0 0 0xa000 0xffff;
    mkColor 0x7000 0x7000 0 0xffff;
    mkColor 0x7000 0 0x7000 0xffff;
    mkColor 0 0x7000 0x7000 0xffff;
    mkColor 0xb000 0x3000 0x7000 0xffff ].

(** [plotColors[dci.currFrame % len(plotColors)]]; Go's [%] is the remainder
    of the truncated division, negative for a negative [currFrame]. *)
Definition PickColor (d : DebugCompositeImage) : run Color :=
  let i := Z.rem (currFrame d) (Z.of_nat (length plotColors)) in
  if i <? 0 then Panics IndexOutOfRange
  else match plotColors !! Z.to_nat i with
       | Some c => Done c
       | None => Panics IndexOutOfRange
       end.

(** [dci.fillMap.Set(x, y, c)] *)
Definition fillMap_Set (d : DebugCompositeImage) (x y : Z) (c : Color)
  : run DebugCompositeImage :=
  match fillMap d with
  | None => Panics NilDereference
  | Some im =>
      Done (mkDci (Some (mkRGBA (Rect im) (calls im ++ [mkSetCall x y c])))
                  (currFrame d) (center d) (maxFrames d))
  end.

(** [for x := lo; x <= hi; x++ { body }] with a body that may panic. *)
Definition for_incl_run {St : Type} (lo hi : Z) (body : Z -> St -> run St) (s : St)
  : run St :=
  fold_left (fun acc x => s <~ acc ;; body x s) (seqZ lo (hi + 1 - lo)) (Done s).

Definition PlotRectangle (d : DebugCompositeImage) (r : Rectangle)
  : run DebugCompositeImage :=
  col <~ PickColor d ;;
  d <~ for_incl_run (X (Min r)) (X (Max r)) (fun x d =>
         d <~ fillMap_Set d x (Y (Min r)) col ;;
         fillMap_Set d x (Y (Max r)) col) d ;;
  for_incl_run (Y (Min r)) (Y (Max r)) (fun y d =>
    d <~ fillMap_Set d (X (Min r)) y col ;;
    fillMap_Set d (X (Max r)) y col) d.

Definition PlotMarker (d : DebugCompositeImage) (p : Point)
  : run DebugCompositeImage :=
  d <~ PlotRectangle d (mkRect (mkPoint (X p - 2) (Y p - 2)) (mkPoint (X p + 2) (Y p + 2))) ;;
  d <~ PlotRectangle d (mkRect (mkPoint (X p - 4) (Y p - 4)) (mkPoint (X p + 4) (Y p + 4))) ;;
  PlotRectangle d (mkRect (mkPoint (X p - 6) (Y p - 6)) (mkPoint (X p + 6) (Y p + 6))).

(** [float64(z)] for an [int]. *)
Definition float64_of_int (z : Z) : float :=
  if z =? - 2 ^ 63 then (-9223372036854775808)%float
  else if z <? 0 then (- of_uint63 (Uint63.of_Z (- z)))%float
  else of_uint63 (Uint63.of_Z z).

Section Overlay.
(** Two functions of Go's library stay open: whether [image.NewRGBA] accepts
    a rectangle (it panics on huge or negative dimensions), and
    [math.Atan2]. *)
Variable NewRGBA_accepts : Rectangle -> bool.
Variable Atan2 : float -> float -> float.

Definition NewRGBA (r : Rectangle) : run RGBA :=
  if NewRGBA_accepts r then Done (mkRGBA r []) else Panics LibraryPanic.

Definition StartNewFrame (d : DebugCompositeImage) (bounds : Rectangle)
    (c : Point) : run DebugCompositeImage :=
  d <~ match fillMap d with
       | None =>
           im <~ NewRGBA bounds ;;
           Done (mkDci (Some im) (currFrame d) c 5)
       | Some _ =>
           Done (mkDci (fillMap d) (int_wrap (currFrame d + 1)) (center d) (maxFrames d))
       end ;;
  PlotMarker d c.

(** [int(thetaDegrees / 12)] is read with [float64_trunc]: for every angle
    that [math.Atan2] returns on finite arguments the quotient is between 0
    and 30, where the conversion is exact. *)
Definition Plot (d : DebugCompositeImage) (p : Point) : run DebugCompositeImage :=
  let thetaRadians :=
    Atan2 (float64_of_int (int_wrap (Y p - Y (center d))))
          (float64_of_int (int_wrap (X p - X (center d)))) in
  let thetaDegrees := (180 + thetaRadians * 180 / math_Pi)%float in
  let segment := float64_trunc (thetaDegrees / 12)%float in
  if maxFrames d =? 0 then Panics DivideByZero
  else if negb (Z.rem segment (maxFrames d) =? currFrame d) then Done d
  else
    col <~ PickColor d ;;
    fillMap_Set d (X p) (Y p) col.
End Overlay.

(* ===================================================================== *)
(** ** The detector with its overlay *)

(** An index panic of the visited grid, among the panics. *)
Definition run_of_res {A : Type} (r : res A) : run A :=
  match r with
  | Ok a => Done a
  | IndexPanic => Panics IndexOutOfRange
  end.

Section Plotting.
Variable NewRGBA_accepts : Rectangle -> bool.
Variable Atan2 : float -> float -> float.

(** One pass through the body of the [for] loop, [dci.Plot(p)] included. *)
Definition fill_step_dci (img : Image) (thresh : Z) (bounds : Rectangle)
    (st : FillState) (d : DebugCompositeImage)
  : run (option (FillState * DebugCompositeImage)) :=
  match toVisit st with
  | [] => Done None
  | p :: rest =>
      s <~ run_of_res (seen_get (seen st) (X p) (Y p)) ;;
      if s then Done (Some (mkFill rest (seen st) (limb st), d))
      else
        seen' <~ run_of_res (seen_mark (seen st) (X p) (Y p)) ;;
        let gray := ColToGrayU16 (At img (X p) (Y p)) in
        if gray >? thresh then Done (Some (mkFill rest seen' (limb st), d))
        else
          let ll := Grow (limb st) p in
          d <~ Plot Atan2 d p ;;
          tv <~ run_of_res (enqueue_neighbours bounds seen' p rest) ;;
          Done (Some (mkFill tv seen' ll, d))
  end.

Fixpoint fill_loop_dci (img : Image) (thresh : Z) (bounds : Rectangle)
    (fuel : nat) (st : FillState) (d : DebugCompositeImage)
  : option (run (LunarLimb * DebugCompositeImage)) :=
  match fuel with
  | O => None
  | S fuel =>
      match fill_step_dci img thresh bounds st d with
      | Panics e => Some (Panics e)
      | Done None => Some (Done (limb st, d))
      | Done (Some (st', d')) => fill_loop_dci img thresh bounds fuel st' d'
      end
  end.

(** [FindLunarLimb] from its first statement to [dci.PlotRectangle(ll.Bounds)],
    on the overlay [d]: the limb and the overlay that are there when
    [dci.Flush()] is called.  [log.Printf] is left out. *)
Definition FindLunarLimb_plotting (d : DebugCompositeImage) (si : StackedImage)
  : option (run (LunarLimb * DebugCompositeImage)) :=
  let bounds := ImgBounds (OrigImage si) in
  let ll := computeLuminalCenter (OrigImage si) zeroLimb in
  match StartNewFrame NewRGBA_accepts d bounds (LuminalCenter ll) with
  | Panics e => Some (Panics e)
  | Done d =>
      let thresh := fill_thresh ll in
      match fill_loop_dci (OrigImage si) thresh bounds
              (fill_fuel bounds (LuminalCenter ll))
              (mkFill [LuminalCenter ll] ∅ ll) d with
      | None => None
      | Some (Panics e) => Some (Panics e)
      | Some (Done (ll, d)) =>
          Some (d <~ PlotRectangle d (Bounds ll) ;; Done (ll, d))
      end
  end.

(** The overlay after the calls [StartNewFrame(bounds, center)] for the pairs
    of a list, in order. *)
Definition start_frames (d : DebugCompositeImage) (l : list (Rectangle * Point))
  : run DebugCompositeImage :=
  fold_left (fun acc bc => d <~ acc ;; StartNewFrame NewRGBA_accepts d (fst bc) (snd bc))
            l (Done d).
End Plotting.

(** The point that a call of [Set] names. *)
Definition set_point (c : SetCall) : Point := mkPoint (set_x c) (set_y c).

(** [p] is on one of the four sides that [PlotRectangle] walks. *)
Definition on_border (r : Rectangle) (p : Point) : Prop :=
  (X (Min r) <= X p <= X (Max r) /\ (Y p = Y (Min r) \/ Y p = Y (Max r))) \/
  (Y (Min r) <= Y p <= Y (Max r) /\ (X p = X (Min r) \/ X p = X (Max r))).

(** [d'] is [d] after the calls [cs] of [Set], and differs in nothing else. *)
Definition drawn (d d' : DebugCompositeImage) (cs : list SetCall) : Prop :=
  exists im, fillMap d = Some im /\
    d' = mkDci (Some (mkRGBA (Rect im) (calls im ++ cs)))
               (currFrame d) (center d) (maxFrames d).

(** The calls of [PlotRectangle], in order. *)
Definition rect_calls (col : Color) (r : Rectangle) : list SetCall :=
  (seqZ (X (Min r)) (X (Max r) + 1 - X (Min r)) ≫= fun x =>
     [mkSetCall x (Y (Min r)) col; mkSetCall x (Y (Max r)) col]) ++
  (seqZ (Y (Min r)) (Y (Max r) + 1 - Y (Min r)) ≫= fun y =>
     [mkSetCall (X (Min r)) y col; mkSetCall (X (Max r)) y col]).

(** The larger of the two coordinate distances. *)
Definition cheb (p q : Point) : Z :=
  Z.max (Z.abs (X p - X q)) (Z.abs (Y p - Y q)).

(** An overlay on which a frame has been started. *)
Definition started (d : DebugCompositeImage) : Prop :=
  fillMap d <> None /\ maxFrames d = 5 /\ 0 <= currFrame d.

(* ===================================================================== *)
(** * Properties *)

(** ** Arithmetic of the Go types *)

Lemma int_wrap_small z : - 2 ^ 63 <= z < 2 ^ 63 -> int_wrap z = z.
Proof.
  intros Hz. unfold int_wrap.
  rewrite Z.mod_small by lia. lia.
Qed.

Lemma int_wrap_add_l a b : int_wrap (int_wrap a + b) = int_wrap (a + b).
Proof.
  unfold int_wrap.
  replace ((a + 2 ^ 63) mod 2 ^ 64 - 2 ^ 63 + b + 2 ^ 63)
    with ((a + 2 ^ 63) mod 2 ^ 64 + b) by ring.
  rewrite Zplus_mod_idemp_l. f_equal. f_equal. ring.
Qed.

Lemma mkPoint_eta p : mkPoint (X p) (Y p) = p.
Proof. by destruct p. Qed.

Lemma in_grid_spec x y :
  in_grid x y = true <-> 0 <= x < grid_side /\ 0 <= y < grid_side.
Proof. unfold in_grid. rewrite !andb_true_iff. lia. Qed.

(** ** The scan loops *)

Lemma fold_left_bind {A B St : Type} (f : St -> B -> St) (g : A -> list B) l s :
  fold_left f (l ≫= g) s = fold_left (fun s a => fold_left f (g a) s) l s.
Proof.
  revert s. induction l as [|a l IH]; intros s; [done|].
  rewrite bind_cons, fold_left_app. simpl. apply IH.
Qed.

Lemma scan_points_spec b p : p ∈ scan_points b <-> inside b p.
Proof.
  unfold scan_points, inside. rewrite list_elem_of_bind. split.
  - intros (x & Hp & Hx). apply list_elem_of_bind in Hp as (y & Hp & Hy).
    apply list_elem_of_singleton in Hp as ->. simpl.
    apply elem_of_seqZ in Hx. apply elem_of_seqZ in Hy. lia.
  - intros [HX HY]. exists (X p). split; [|apply elem_of_seqZ; lia].
    apply list_elem_of_bind. exists (Y p). split; [|apply elem_of_seqZ; lia].
    rewrite mkPoint_eta. apply list_elem_of_singleton. done.
Qed.

Lemma scan_as_fold img :
  scan img =
  fold_left (fun s p => scan_body img (X p) (Y p) s)
            (scan_points (ImgBounds img)) (mkSums 0 0 0).
Proof.
  unfold scan, scan_points, for_incl.
  rewrite fold_left_bind. generalize (mkSums 0 0 0).
  induction (seqZ (X (Min (ImgBounds img))) _) as [|x xs IH]; intros s; [done|].
  simpl. rewrite <- IH. f_equal.
  rewrite fold_left_bind.
  generalize s. clear.
  induction (seqZ (Y (Min (ImgBounds img))) _) as [|y ys IH]; intros s; [done|].
  simpl. apply IH.
Qed.

Lemma int_wrap_idem a : int_wrap (int_wrap a) = int_wrap a.
Proof.
  transitivity (int_wrap (int_wrap a + 0)); [f_equal; lia|].
  rewrite int_wrap_add_l. f_equal. lia.
Qed.

Lemma scan_fold_sums img l s :
  int_wrap (sumX s) = sumX s -> int_wrap (sumY s) = sumY s -> int_wrap (n s) = n s ->
  let qs := filter (fun p => in_band (At img (X p) (Y p)) = true) l in
  fold_left (fun s p => scan_body img (X p) (Y p) s) l s =
  mkSums (int_wrap (sumX s + sumZ (X <$> qs)))
         (int_wrap (sumY s + sumZ (Y <$> qs)))
         (int_wrap (n s + Z.of_nat (length qs))).
Proof.
  cbv zeta. revert s. induction l as [|p l IH]; intros s HX HY Hn.
  - cbn. rewrite !Z.add_0_r, HX, HY, Hn. by destruct s.
  - rewrite filter_cons. cbn [fold_left]. unfold scan_body at 2.
    destruct (decide (in_band (At img (X p) (Y p)) = true)) as [Hb|Hb].
    + rewrite Hb, IH by (cbn; apply int_wrap_idem). cbn [sumX sumY n].
      rewrite !int_wrap_add_l, !fmap_cons. cbn [length]. unfold sumZ. cbn [foldr].
      f_equal; f_equal; lia.
    + apply not_true_is_false in Hb. rewrite Hb. by apply IH.
Qed.

Lemma scan_sums img :
  scan img =
  mkSums (int_wrap (sumZ (X <$> qualifying img)))
         (int_wrap (sumZ (Y <$> qualifying img)))
         (int_wrap (Z.of_nat (length (qualifying img)))).
Proof. rewrite scan_as_fold, scan_fold_sums by done. done. Qed.

(** ** The brightness sample *)

Lemma sample_fold img l ll :
  let ll' := fold_left (fun s i => sample_body img i s) l ll in
  let c := LuminalCenter ll in
  LuminalCenter ll' = c /\ Bounds ll' = Bounds ll /\
  Brightness ll' =
    match l with
    | [] => Brightness ll
    | _ => u16 (Brightness ll
                + sumZ ((fun i => ColToGrayU16 (At img (X c + i) (Y c))) <$> l))
    end.
Proof.
  revert ll. induction l as [|i l IH]; intros ll; [done|].
  destruct (IH (sample_body img i ll)) as (HC & HB & HBr).
  cbn zeta in *. cbn [fold_left]. rewrite HC, HB, HBr. repeat split.
  destruct l as [|j l].
  - cbn. unfold u16. f_equal. lia.
  - remember (j :: l) as l'. cbn -[u16]. unfold u16.
    rewrite Zplus_mod_idemp_l. f_equal. unfold fmap, sumZ. lia.
Qed.

Lemma sample_loop img ll :
  let ll' := for_excl (-5) 5 (sample_body img) ll in
  LuminalCenter ll' = LuminalCenter ll /\ Bounds ll' = Bounds ll /\
  Brightness ll' = u16 (Brightness ll + sumZ (window img (LuminalCenter ll))).
Proof.
  unfold for_excl, window. change (5 - -5) with 10.
  assert (Hne : seqZ (-5) 10 <> []) by (rewrite seqZ_cons by done; done).
  revert Hne. generalize (seqZ (-5) 10). intros l Hne.
  pose proof (sample_fold img l ll) as Hf. cbv zeta in *.
  destruct l as [|i l]; [done|]. exact Hf.
Qed.

Lemma Bounds_setBrightness ll b : Bounds (setBrightness ll b) = Bounds ll.
Proof. done. Qed.

Lemma LuminalCenter_setBrightness ll b :
  LuminalCenter (setBrightness ll b) = LuminalCenter ll.
Proof. done. Qed.

Lemma computeLuminalCenter_Bounds img ll :
  Bounds (computeLuminalCenter img ll) = Bounds ll.
Proof.
  unfold computeLuminalCenter. destruct (n (scan img) =? 0); [done|].
  cbv zeta. rewrite Bounds_setBrightness.
  match goal with |- Bounds (for_excl _ _ _ ?a) = _ =>
    pose proof (sample_loop img a) as (_ & HB & _) end.
  rewrite HB. done.
Qed.

Lemma computeLuminalCenter_some img ll :
  n (scan img) <> 0 ->
  let c := mkPoint (int_quot (sumX (scan img)) (n (scan img)))
                   (int_quot (sumY (scan img)) (n (scan img))) in
  LuminalCenter (computeLuminalCenter img ll) = c /\
  Brightness (computeLuminalCenter img ll) =
    u16 (Brightness ll + sumZ (window img c)) / 10.
Proof.
  intros Hn c. unfold computeLuminalCenter.
  destruct (Z.eqb_spec (n (scan img)) 0) as [|_]; [done|].
  cbv zeta. rewrite LuminalCenter_setBrightness.
  match goal with |- context [for_excl _ _ _ ?a] =>
    pose proof (sample_loop img a) as (HC & _ & HBr) end.
  split; [by rewrite HC|].
  unfold setBrightness at 1. cbn [Brightness]. rewrite HBr. done.
Qed.

Lemma computeLuminalCenter_none img ll :
  n (scan img) = 0 -> computeLuminalCenter img ll = ll.
Proof. intros Hn. unfold computeLuminalCenter. by rewrite Hn. Qed.

(** ** One pass of the fill loop *)

Lemma visit_spec g sn q tv :
  visit g sn q tv = visit_list sn (if g then [q] else []) tv.
Proof.
  unfold visit, visit_list, seen_get. destruct g; simpl.
  - rewrite mkPoint_eta. destruct (in_grid (X q) (Y q)); simpl; [|done].
    rewrite filter_cons, filter_nil.
    destruct (decide (q ∉ sn)) as [Hq|Hq].
    + by rewrite bool_decide_eq_false_2.
    + rewrite bool_decide_eq_true_2, app_nil_r; [done|].
      by destruct (decide (q ∈ sn)).
  - by rewrite filter_nil, app_nil_r.
Qed.

Lemma visit_list_app sn l1 l2 tv :
  (tv' <- visit_list sn l1 tv ;; visit_list sn l2 tv') = visit_list sn (l1 ++ l2) tv.
Proof.
  unfold visit_list. rewrite forallb_app, filter_app.
  destruct (forallb _ l1); simpl; [|done].
  destruct (forallb _ l2); simpl; [|done].
  by rewrite app_assoc.
Qed.

Lemma bind_ext {A B : Type} (m : res A) (f g : A -> res B) :
  (forall a, f a = g a) -> bind m f = bind m g.
Proof. intros Hfg. destruct m; simpl; auto. Qed.

Lemma enqueue_neighbours_spec bounds sn p tv :
  enqueue_neighbours bounds sn p tv = visit_list sn (neighbours bounds p) tv.
Proof.
  unfold enqueue_neighbours, neighbours.
  rewrite <- visit_list_app, visit_spec.
  apply bind_ext; intros tv1. rewrite <- visit_list_app, visit_spec.
  apply bind_ext; intros tv2. rewrite <- visit_list_app, visit_spec.
  apply bind_ext; intros tv3. apply visit_spec.
Qed.

Lemma neighbours_spec bounds p q : q ∈ neighbours bounds p <-> move bounds p q.
Proof.
  unfold neighbours, move. rewrite !elem_of_app.
  destruct (Z.gtb_spec (X p) (X (Min bounds)));
  destruct (Z.gtb_spec (Y p) (Y (Min bounds)));
  destruct (Z.ltb_spec (X p) (X (Max bounds)));
  destruct (Z.ltb_spec (Y p) (Y (Max bounds)));
  rewrite ?list_elem_of_singleton, ?elem_of_nil; intuition lia.
Qed.

Lemma neighbours_length bounds p : (length (neighbours bounds p) <= 4)%nat.
Proof.
  unfold neighbours. rewrite !length_app.
  destruct (_ >? _), (_ >? _), (_ <? _), (_ <? _); simpl; lia.
Qed.

Lemma fill_step_cons img thresh bounds p rest sn ll :
  fill_step img thresh bounds (mkFill (p :: rest) sn ll) =
  if in_grid (X p) (Y p) then
    if bool_decide (p ∈ sn) then Ok (Some (mkFill rest sn ll))
    else if ColToGrayU16 (At img (X p) (Y p)) >? thresh
         then Ok (Some (mkFill rest ({[p]} ∪ sn) ll))
         else match visit_list ({[p]} ∪ sn) (neighbours bounds p) rest with
              | Ok tv => Ok (Some (mkFill tv ({[p]} ∪ sn) (Grow ll p)))
              | IndexPanic => IndexPanic
              end
  else IndexPanic.
Proof.
  unfold fill_step, seen_get, seen_mark. cbn [toVisit seen limb].
  rewrite mkPoint_eta.
  destruct (in_grid (X p) (Y p)); [|done]. cbn [bind].
  destruct (bool_decide (p ∈ sn)); [done|]. cbn [bind].
  destruct (_ >? _); [done|].
  rewrite enqueue_neighbours_spec. done.
Qed.

Lemma forallb_in_grid l :
  forallb (fun q => in_grid (X q) (Y q)) l = true <-> forall q, q ∈ l -> in_gridP q.
Proof.
  unfold in_gridP. induction l as [|a l IH]; simpl.
  - split; [|done]. intros _ q Hq. by apply elem_of_nil in Hq.
  - rewrite andb_true_iff, IH. split.
    + intros [Ha Hl] q Hq. apply elem_of_cons in Hq as [->|Hq]; auto.
    + intros Hall. split; [|intros q Hq]; apply Hall; set_solver.
Qed.

Lemma dark_gtb img thresh p :
  (ColToGrayU16 (At img (X p) (Y p)) >? thresh) = false <-> dark img thresh p.
Proof.
  unfold dark.
  destruct (Z.gtb_spec (ColToGrayU16 (At img (X p) (Y p))) thresh); split; (lia || done).
Qed.

Section Step.
Variables (img : Image) (thresh : Z) (bounds : Rectangle).

Lemma fill_step_None st :
  fill_step img thresh bounds st = Ok None <-> toVisit st = [].
Proof.
  destruct st as [[|p rest] sn ll]; [done|].
  rewrite fill_step_cons. cbn [toVisit]. split; [|done].
  destruct (in_grid _ _); [|done].
  destruct (bool_decide _); [done|].
  destruct (_ >? _); [done|].
  by destruct (visit_list _ _ _).
Qed.

Lemma fill_step_Some st st' :
  fill_step img thresh bounds st = Ok (Some st') ->
  exists p rest, toVisit st = p :: rest /\ in_gridP p /\
    ((p ∈ seen st /\ st' = mkFill rest (seen st) (limb st)) \/
     ((p ∉ seen st) /\ ~ dark img thresh p /\
      st' = mkFill rest ({[p]} ∪ seen st) (limb st)) \/
     ((p ∉ seen st) /\ dark img thresh p /\
      (forall q, move bounds p q -> in_gridP q) /\
      st' = mkFill (rest ++ filter (fun q => q ∉ {[p]} ∪ seen st) (neighbours bounds p))
                   ({[p]} ∪ seen st) (Grow (limb st) p))).
Proof.
  destruct st as [[|p rest] sn ll]; [done|].
  rewrite fill_step_cons. cbn [toVisit seen limb].
  destruct (in_grid (X p) (Y p)) eqn:Hg; [|done].
  intros Hstep. exists p, rest. split; [done|]. split; [done|].
  destruct (bool_decide (p ∈ sn)) eqn:Hs.
  { left. apply bool_decide_eq_true in Hs. by inversion Hstep. }
  apply bool_decide_eq_false in Hs. right.
  destruct (_ >? _) eqn:Hd.
  { left. split; [done|]. split; [|by inversion Hstep].
    rewrite <- dark_gtb. congruence. }
  apply dark_gtb in Hd. right. split; [done|]. split; [done|].
  unfold visit_list in Hstep.
  destruct (forallb _ _) eqn:Hall; [|done].
  split; [|by inversion Hstep].
  intros q Hq. rewrite forallb_in_grid in Hall. apply Hall.
  by apply neighbours_spec.
Qed.

Lemma fill_step_Panic st :
  fill_step img thresh bounds st = IndexPanic ->
  exists p rest, toVisit st = p :: rest /\
    (~ in_gridP p \/
     (in_gridP p /\ (p ∉ seen st) /\ dark img thresh p /\
      exists q, move bounds p q /\ ~ in_gridP q)).
Proof.
  destruct st as [[|p rest] sn ll]; [done|].
  rewrite fill_step_cons. cbn [toVisit seen limb].
  intros Hstep. exists p, rest. split; [done|].
  unfold in_gridP at 1 2.
  destruct (in_grid (X p) (Y p)) eqn:Hg; [right; split; [done|]|by left].
  destruct (bool_decide (p ∈ sn)) eqn:Hs; [done|].
  apply bool_decide_eq_false in Hs. split; [done|].
  destruct (_ >? _) eqn:Hd; [done|].
  apply dark_gtb in Hd. split; [done|].
  unfold visit_list in Hstep.
  destruct (forallb _ _) eqn:Hall; [done|].
  apply not_true_iff_false in Hall. rewrite forallb_in_grid in Hall.
  destruct (decide (Forall in_gridP (neighbours bounds p))) as [HF|HF].
  { exfalso. apply Hall. by apply Forall_forall. }
  apply not_Forall_Exists in HF; [|intros q; unfold in_gridP; apply _].
  apply Exists_exists in HF as (q & Hq & Hnq).
  exists q. split; [by apply neighbours_spec|done].
Qed.

(** The loop rule: an invariant of the passes holds where the loop stops. *)
Lemma fill_loop_inv (P : FillState -> Prop) :
  (forall st st', P st -> fill_step img thresh bounds st = Ok (Some st') -> P st') ->
  forall fuel st r, P st -> fill_loop img thresh bounds fuel st = Some r ->
  exists st', P st' /\
    match r with
    | Ok ll => toVisit st' = [] /\ limb st' = ll
    | IndexPanic => fill_step img thresh bounds st' = IndexPanic
    end.
Proof.
  intros Hpres. induction fuel as [|fuel IH]; intros st r HP Hloop; [done|].
  cbn [fill_loop] in Hloop.
  destruct (fill_step img thresh bounds st) as [[st'|]|] eqn:Hstep.
  - eapply IH; [|done]. eauto.
  - inversion Hloop; subst. exists st. split; [done|].
    split; [by apply fill_step_None|done].
  - inversion Hloop; subst. by exists st.
Qed.
End Step.

(** The three ways a pass goes on: the pixel [p] at the head of the queue was
    visited before, is above the threshold, or is accepted. *)
Ltac pass_cases Hstep st :=
  apply fill_step_Some in Hstep
    as (p & rest & Htv & Hgp & [(Hp & ->)|[(Hp & Hnd & ->)|(Hp & Hd & Hmv & ->)]]);
  destruct st as [tv sn ll].

(** ** The loop invariant *)

Section Invariant.
Variables (img : Image) (thresh : Z) (bounds : Rectangle) (seed : Point).

Abbreviation Inv := (fill_inv img thresh bounds seed).
Abbreviation acc := (accepted img thresh).
Abbreviation reach := (reachable img thresh bounds seed).

Lemma fill_inv_init ll0 : Inv (mkFill [seed] ∅ ll0).
Proof.
  split; unfold accepted; cbn [toVisit seen limb].
  - set_solver.
  - intros q Hq. left. set_solver.
  - right. set_solver.
  - set_solver.
  - set_solver.
  - intros _ q Hq. set_solver.
Qed.

Lemma queue_reachable st q :
  Inv st -> q ∈ toVisit st -> dark img thresh q -> reach q.
Proof.
  intros HI Hq Hd. destruct (inv_queue _ _ _ _ _ HI q Hq) as [->|(_ & p & Hp & Hm)].
  - by constructor.
  - eapply reach_move; [|done..]. by eapply inv_sound.
Qed.

Lemma fill_inv_step st st' :
  Inv st -> fill_step img thresh bounds st = Ok (Some st') -> Inv st'.
Proof.
  intros HI Hstep.
  pose proof (queue_reachable st) as Hqr.
  destruct HI as [Hgrid Hqueue Hseed Hsound Hclosed Hfresh].
  pass_cases Hstep st; unfold accepted in *;
    cbn [toVisit seen limb] in *; subst tv.
  - (* already visited *)
    split; cbn [toVisit seen limb]; unfold accepted; cbn [seen].
    + done.
    + intros q Hq. apply Hqueue. set_solver.
    + destruct Hseed as [?|[->|?]%elem_of_cons]; auto.
    + done.
    + intros a q Ha Hm. destruct (Hclosed a q Ha Hm) as (? & [?|[->|?]%elem_of_cons]); auto.
    + intros Hno q Hq. apply Hfresh; [done|set_solver].
  - (* above the threshold *)
    assert (Hacc : forall a, a ∈ {[p]} ∪ sn /\ dark img thresh a <-> a ∈ sn /\ dark img thresh a).
    { intros a. split; [|set_solver]. intros [[->%elem_of_singleton|?]%elem_of_union ?]; done. }
    split; cbn [toVisit seen limb]; unfold accepted; cbn [seen].
    + intros a [->%elem_of_singleton|?]%elem_of_union; auto.
    + intros q Hq. destruct (Hqueue q) as [?|(? & a & Ha & ?)]; [set_solver|by left|].
      right. split; [done|]. exists a. by rewrite Hacc.
    + destruct Hseed as [?|[->|?]%elem_of_cons]; [left|left|right]; set_solver.
    + intros a Ha. apply Hsound. by apply Hacc.
    + intros a q Ha%Hacc Hm.
      destruct (Hclosed a q Ha Hm) as (? & [?|[->|?]%elem_of_cons]); set_solver.
    + intros Hno q Hq. apply Hfresh; [|set_solver].
      intros a Ha. apply (Hno a). by apply Hacc.
  - (* accepted *)
    assert (Hrp : reach p).
    { apply Hqr; [by split|set_solver|done]. }
    assert (Hacc : forall a, a ∈ {[p]} ∪ sn /\ dark img thresh a <->
                             a = p \/ (a ∈ sn /\ dark img thresh a)).
    { intros a. rewrite elem_of_union, elem_of_singleton. naive_solver. }
    split; cbn [toVisit seen limb]; unfold accepted; cbn [seen].
    + intros a [->%elem_of_singleton|?]%elem_of_union; auto.
    + intros q [Hq|Hq]%elem_of_app.
      * destruct (Hqueue q) as [?|(? & a & Ha & ?)]; [set_solver|by left|].
        right. split; [done|]. exists a. rewrite Hacc. auto.
      * apply list_elem_of_filter in Hq as [_ Hq%neighbours_spec].
        right. split; [auto|]. exists p. rewrite Hacc. auto.
    + destruct Hseed as [?|[->|?]%elem_of_cons]; [left|left|right]; set_solver.
    + intros a [->|Ha]%Hacc; auto.
    + intros a q [->|Ha]%Hacc Hm.
      * split; [auto|].
        destruct (decide (q ∈ {[p]} ∪ sn)) as [?|Hn]; [by left|right].
        apply elem_of_app. right. apply list_elem_of_filter.
        split; [done|by apply neighbours_spec].
      * destruct (Hclosed a q Ha Hm) as (? & [?|[->|?]%elem_of_cons]); set_solver.
    + intros Hno. exfalso. apply (Hno p). apply Hacc. auto.
Qed.

(** Where the queue is empty, the accepted pixels are the limb. *)
Lemma fill_inv_final st :
  Inv st -> toVisit st = [] -> forall p, acc st p <-> reach p.
Proof.
  intros HI Hempty p. split; [by apply inv_sound|].
  assert (Hin : forall q, q ∈ seen st \/ q ∈ toVisit st -> q ∈ seen st).
  { rewrite Hempty. intros q [?|?%elem_of_nil]; done. }
  induction 1 as [Hd|a q Ha IH Hm Hd].
  - split; [|done]. apply Hin, (inv_seed _ _ _ _ _ HI).
  - split; [|done]. apply Hin. by eapply inv_closed.
Qed.
End Invariant.

(** ** Growing the bounds *)

Lemma bounding_rect_ext (S S' : Point -> Prop) r :
  (forall p, S p <-> S' p) -> bounding_rect S r -> bounding_rect S' r.
Proof.
  intros HS (Hin & H1 & H2 & H3 & H4). unfold bounding_rect.
  setoid_rewrite <- HS. done.
Qed.

Lemma bounding_rect_single p : bounding_rect (fun a => a = p) (mkRect p p).
Proof.
  unfold bounding_rect, inside. cbn [Min Max].
  split; [intros a ->; lia|]. repeat split; by exists p.
Qed.

Lemma GrowRectangle_bounding (S : Point -> Prop) r p :
  bounding_rect S r -> bounding_rect (fun a => a = p \/ S a) (GrowRectangle r p).
Proof.
  intros (Hin & (a1 & Ha1 & E1) & (a2 & Ha2 & E2) & (a3 & Ha3 & E3) & (a4 & Ha4 & E4)).
  pose proof (Hin _ Ha1) as I1. pose proof (Hin _ Ha3) as I3.
  destruct r as [[a b] [c d]]. unfold inside in *. cbn [Min Max X Y] in *.
  unfold GrowRectangle, bounding_rect, inside. cbn [Min Max X Y].
  destruct (Z.ltb_spec (X p) a), (Z.gtb_spec (X p) c); try lia; cbn [Min Max X Y];
  destruct (Z.ltb_spec (Y p) b), (Z.gtb_spec (Y p) d); try lia; cbn [Min Max X Y].
  all: split; [intros q [->|Hq]; [lia|specialize (Hin _ Hq); lia]|].
  all: repeat split;
    first [ by (exists p; split; [by left|])
          | by (exists a1; split; [by right|])
          | by (exists a2; split; [by right|])
          | by (exists a3; split; [by right|])
          | by (exists a4; split; [by right|]) ].
Qed.

Lemma GrowRectangle_Max_X r p : X (Max r) <= X (Max (GrowRectangle r p)).
Proof.
  destruct r as [[a b] [c d]]. unfold GrowRectangle. cbn [Min Max X Y].
  destruct (Z.ltb_spec (X p) a), (Z.gtb_spec (X p) c); cbn [Min Max X Y];
  destruct (Z.ltb_spec (Y p) b), (Z.gtb_spec (Y p) d); cbn [Min Max X Y]; lia.
Qed.

Lemma Grow_fresh ll p :
  X (Max (Bounds ll)) = 0 -> Grow ll p = setBounds ll (mkRect p p).
Proof. intros H0. unfold Grow. by rewrite H0. Qed.

Lemma Grow_grown ll p :
  X (Max (Bounds ll)) <> 0 -> Grow ll p = setBounds ll (GrowRectangle (Bounds ll) p).
Proof. intros H0. unfold Grow. by destruct (Z.eqb_spec (X (Max (Bounds ll))) 0). Qed.

Lemma Grow_other ll p :
  LuminalCenter (Grow ll p) = LuminalCenter ll /\ Brightness (Grow ll p) = Brightness ll.
Proof. unfold Grow. by destruct (_ =? _). Qed.

Section BoundsInvariant.
Variables (img : Image) (thresh : Z) (bounds : Rectangle) (seed : Point).
Variable ll0 : LunarLimb.
Hypothesis fresh_bounds : X (Max (Bounds ll0)) = 0.
Hypothesis seed_off_axis : X seed <> 0.

Lemma bounds_inv_init : bounds_inv img thresh ll0 (mkFill [seed] ∅ ll0).
Proof.
  unfold bounds_inv, accepted. cbn [limb seen]. repeat split.
  left. split; [|done]. set_solver.
Qed.

Lemma bounds_inv_step st st' :
  fill_inv img thresh bounds seed st -> bounds_inv img thresh ll0 st ->
  fill_step img thresh bounds st = Ok (Some st') ->
  bounds_inv img thresh ll0 st'.
Proof.
  intros HI (HC & HBr & HB) Hstep.
  pose proof (inv_fresh _ _ _ _ _ HI) as Hfresh.
  pass_cases Hstep st; unfold bounds_inv, accepted in *;
    cbn [toVisit seen limb] in *; subst tv.
  - done.
  - assert (Hacc : forall a, a ∈ sn /\ dark img thresh a <->
                             a ∈ {[p]} ∪ sn /\ dark img thresh a).
    { intros a. split; [set_solver|].
      intros [[->%elem_of_singleton|?]%elem_of_union ?]; done. }
    repeat split; [done..|].
    destruct HB as [[Hno Hb]|[[a Ha] [Hb Hpos]]]; [left|right].
    + split; [|done]. intros a Ha. apply (Hno a). by apply Hacc.
    + split; [exists a; by apply Hacc|]. split; [|done].
      eapply bounding_rect_ext; [|exact Hb]. intros q. cbn beta. apply Hacc.
  - destruct (Grow_other ll p) as [-> ->]. repeat split; [done..|].
    right. split; [exists p; set_solver|].
    destruct HB as [[Hno Hb]|[[a Ha] [Hb Hpos]]].
    + assert (p = seed) as -> by (apply Hfresh; [done|set_solver]).
      rewrite Grow_fresh by congruence. cbn [Bounds setBounds Max X].
      split.
      * eapply bounding_rect_ext; [|apply bounding_rect_single].
        intros a. cbn beta. split; [intros ->; set_solver|].
        intros [[->%elem_of_singleton|Ha]%elem_of_union Hda]; [done|].
        by destruct (Hno a).
      * apply in_grid_spec in Hgp. lia.
    + rewrite Grow_grown by lia. cbn [Bounds setBounds].
      split.
      * eapply bounding_rect_ext; [|by apply GrowRectangle_bounding].
        intros q. cbn beta. rewrite elem_of_union, elem_of_singleton. naive_solver.
      * pose proof (GrowRectangle_Max_X (Bounds ll) p). lia.
Qed.
End BoundsInvariant.

(** ** Termination of the fill *)

Lemma size_list_to_set_le (l : list Point) :
  (size (list_to_set l : gset Point) <= length l)%nat.
Proof.
  induction l as [|a l IH]; cbn [list_to_set length].
  - by rewrite size_empty.
  - rewrite size_union_alt, size_singleton.
    assert (Hsub : (list_to_set l ∖ {[a]} : gset Point) ⊆ list_to_set l) by set_solver.
    apply subseteq_size in Hsub. lia.
Qed.

Lemma length_bind_const {A B : Type} (f : A -> list B) (k : nat) (l : list A) :
  (forall a, length (f a) = k) -> length (l ≫= f) = (length l * k)%nat.
Proof.
  intros Hk. induction l as [|a l IH]; [done|].
  rewrite bind_cons, length_app, IH, Hk. simpl. lia.
Qed.

Lemma length_scan_points b : length (scan_points b) = box_area b.
Proof.
  unfold scan_points, box_area, Dx, Dy.
  rewrite (length_bind_const _ (Z.to_nat (Y (Max b) + 1 - Y (Min b)))).
  - rewrite length_seqZ. f_equal; f_equal; lia.
  - intros x. rewrite (length_bind_const _ 1%nat) by done.
    rewrite length_seqZ. lia.
Qed.

Lemma seen_size_le box (sn : gset Point) :
  (forall p, p ∈ sn -> inside box p) -> (size sn <= box_area box)%nat.
Proof.
  intros Hin. rewrite <- length_scan_points.
  etransitivity; [|apply size_list_to_set_le].
  apply subseteq_size. intros p Hp.
  apply elem_of_list_to_set, scan_points_spec. auto.
Qed.

Lemma move_inside box bounds p q :
  covers box bounds -> inside box p -> move bounds p q -> inside box q.
Proof.
  unfold covers, inside, move.
  intros Hc Hp [[-> ?]|[[-> ?]|[[-> ?]|[-> ?]]]]; cbn [X Y]; lia.
Qed.

Lemma fill_box_covers bounds seed :
  covers (fill_box bounds seed) bounds /\ inside (fill_box bounds seed) seed.
Proof. unfold covers, inside, fill_box. cbn [Min Max X Y]. lia. Qed.

Section Termination.
Variables (img : Image) (thresh : Z) (bounds box : Rectangle).
Hypothesis box_covers : covers box bounds.

Lemma box_inv_step st st' :
  box_inv box st -> fill_step img thresh bounds st = Ok (Some st') ->
  box_inv box st' /\ (fill_measure box st' < fill_measure box st)%nat.
Proof.
  intros [Hq Hs] Hstep.
  pass_cases Hstep st; unfold box_inv, fill_measure in *;
    cbn [toVisit seen limb] in *; subst tv.
  - split; [split; [intros q ?; apply Hq; set_solver|done]|]. simpl. lia.
  - assert (Hin : forall a, a ∈ {[p]} ∪ sn -> inside box a).
    { intros a [->%elem_of_singleton|?]%elem_of_union; [apply Hq; set_solver|auto]. }
    split; [split; [intros q ?; apply Hq; set_solver|done]|].
    pose proof (seen_size_le box _ Hin) as Hle.
    rewrite size_union, size_singleton in * by set_solver. simpl. lia.
  - assert (Hin : forall a, a ∈ {[p]} ∪ sn -> inside box a).
    { intros a [->%elem_of_singleton|?]%elem_of_union; [apply Hq; set_solver|auto]. }
    split; [split; [|done]|].
    + intros q [?|Hn]%elem_of_app; [apply Hq; set_solver|].
      apply list_elem_of_filter in Hn as [_ Hn%neighbours_spec].
      eapply move_inside; [done| |done]. apply Hq. set_solver.
    + pose proof (seen_size_le box _ Hin) as Hle.
      rewrite size_union, size_singleton in * by set_solver.
      rewrite length_app.
      pose proof (length_filter (fun q => q ∉ {[p]} ∪ sn) (neighbours bounds p)).
      pose proof (neighbours_length bounds p). simpl. lia.
Qed.

Lemma fill_loop_total fuel st :
  box_inv box st -> (fill_measure box st < fuel)%nat ->
  exists r, fill_loop img thresh bounds fuel st = Some r.
Proof.
  revert st. induction fuel as [|fuel IH]; intros st HB Hm; [lia|].
  cbn [fill_loop].
  destruct (fill_step img thresh bounds st) as [[st'|]|] eqn:Hstep; [|eauto..].
  destruct (box_inv_step _ _ HB Hstep) as [HB' Hlt].
  apply IH; [done|lia].
Qed.
End Termination.

Lemma floodfill_terminates img thresh ll :
  exists r, floodfill img thresh ll = Some r.
Proof.
  unfold floodfill.
  destruct (fill_box_covers (ImgBounds img) (LuminalCenter ll)) as [Hc Hs].
  eapply fill_loop_total; [exact Hc| |].
  - split; cbn [toVisit seen]; [|set_solver].
    intros q ->%list_elem_of_singleton. done.
  - unfold fill_measure, fill_fuel. cbn [toVisit seen length].
    rewrite size_empty. lia.
Qed.

Lemma FindLunarLimb_terminates si : exists o, FindLunarLimb si = Some o.
Proof.
  unfold FindLunarLimb.
  destruct (floodfill_terminates (OrigImage si) (fill_thresh (seed_limb si)) (seed_limb si))
    as [r Hr].
  unfold seed_limb in Hr. rewrite Hr. by eexists.
Qed.

(** ** What the fill returns *)

Section Result.
Variables (img : Image) (thresh : Z) (ll0 : LunarLimb).

Abbreviation bounds := (ImgBounds img).
Abbreviation seed := (LuminalCenter ll0).
Abbreviation reach := (reachable img thresh bounds seed).

Lemma reachable_dark_seed p : reach p -> dark img thresh seed.
Proof. induction 1; auto. Qed.

Lemma reachable_inside box p :
  covers box bounds -> inside box seed -> reach p -> inside box p.
Proof. intros Hc Hs. induction 1; [done|]. by eapply move_inside. Qed.

Lemma floodfill_inv r :
  floodfill img thresh ll0 = Some r ->
  exists st, fill_inv img thresh bounds seed st /\
    match r with
    | Ok ll => toVisit st = [] /\ limb st = ll
    | IndexPanic => fill_step img thresh bounds st = IndexPanic
    end.
Proof.
  intros Hr. eapply fill_loop_inv; [|apply fill_inv_init|exact Hr].
  apply fill_inv_step.
Qed.

(** The fill panics exactly when it gets to an index outside the grid. *)
Lemma floodfill_panic_iff :
  floodfill img thresh ll0 = Some IndexPanic <->
  ~ in_gridP seed \/ exists p q, reach p /\ move bounds p q /\ ~ in_gridP q.
Proof.
  split.
  - intros (st & HI & Hstep)%floodfill_inv.
    apply fill_step_Panic in Hstep as (p & rest & Htv & [Hp|(Hp & _ & Hd & q & Hm & Hq)]).
    + left. destruct (inv_queue _ _ _ _ _ HI p) as [->|[? _]]; [|done..].
      rewrite Htv. set_solver.
    + right. exists p, q. split; [|done].
      eapply queue_reachable; [done| |done]. rewrite Htv. set_solver.
  - intros Hbad. destruct (floodfill_terminates img thresh ll0) as [[ll|] Hr]; [|done].
    exfalso. apply floodfill_inv in Hr as (st & HI & Hempty & _).
    destruct Hbad as [Hs|(p & q & Hp & Hm & Hq)].
    + apply Hs. apply (inv_seen_grid _ _ _ _ _ HI).
      destruct (inv_seed _ _ _ _ _ HI) as [?|Hin]; [done|].
      rewrite Hempty in Hin. by apply elem_of_nil in Hin.
    + apply Hq. apply (inv_closed _ _ _ _ _ HI p q); [|done].
      by apply (fill_inv_final img thresh bounds seed st).
Qed.

Hypothesis fresh_bounds : X (Max (Bounds ll0)) = 0.
Hypothesis seed_off_axis : X seed <> 0.

Lemma floodfill_bounds ll :
  floodfill img thresh ll0 = Some (Ok ll) ->
  LuminalCenter ll = seed /\ Brightness ll = Brightness ll0 /\
  (dark img thresh seed -> bounding_rect reach (Bounds ll)) /\
  (~ dark img thresh seed -> Bounds ll = Bounds ll0).
Proof.
  intros Hr.
  assert (exists st, (fill_inv img thresh bounds seed st /\ bounds_inv img thresh ll0 st)
                     /\ toVisit st = [] /\ limb st = ll)
    as (st & [HI (HC & HBr & HB)] & Hempty & <-).
  { apply (fill_loop_inv img thresh bounds
             (fun st => fill_inv img thresh bounds seed st /\ bounds_inv img thresh ll0 st)
             ) with (r := Ok ll) (fuel := fill_fuel bounds seed)
                    (st := mkFill [seed] ∅ ll0).
    - intros st st' [HI HB] Hstep. split.
      + by eapply fill_inv_step.
      + by eapply bounds_inv_step.
    - split; [apply fill_inv_init|by apply bounds_inv_init].
    - exact Hr. }
  pose proof (fill_inv_final _ _ _ _ st HI Hempty) as Hfinal.
  split; [done|]. split; [done|]. split.
  - intros Hd. destruct HB as [[Hno _]|(_ & Hb & _)].
    + destruct (Hno seed). apply Hfinal. by constructor.
    + by eapply bounding_rect_ext.
  - intros Hnd. destruct HB as [[_ Hb]|([p Hp] & _)]; [done|].
    destruct Hnd. apply (reachable_dark_seed p). by apply Hfinal.
Qed.
End Result.

(** ** The centroid *)

Lemma qualifying_spec img p :
  p ∈ qualifying img <->
  inside (ImgBounds img) p /\ 0x0300 < cR (At img (X p) (Y p)) < 0xfff0.
Proof.
  unfold qualifying. rewrite list_elem_of_filter, scan_points_spec.
  unfold in_band. rewrite andb_true_iff, !Z.ltb_lt. tauto.
Qed.

Lemma NoDup_scan_points b : NoDup (scan_points b).
Proof.
  unfold scan_points. apply NoDup_bind; [| |apply NoDup_seqZ].
  - intros x1 x2 p _ _ (y1 & ->%list_elem_of_singleton & _)%list_elem_of_bind
                       (y2 & Hp%list_elem_of_singleton & _)%list_elem_of_bind.
    congruence.
  - intros x _. apply NoDup_bind; [| |apply NoDup_seqZ].
    + intros y1 y2 p _ _ ->%list_elem_of_singleton Hp%list_elem_of_singleton.
      congruence.
    + intros y _. apply NoDup_singleton.
Qed.

Lemma NoDup_qualifying img : NoDup (qualifying img).
Proof. apply NoDup_filter, NoDup_scan_points. Qed.

Lemma qualifying_length img :
  (length (qualifying img) <= box_area (ImgBounds img))%nat.
Proof. rewrite <- length_scan_points. apply length_filter. Qed.

Lemma sumZ_bounds (l : list Z) lo hi :
  (forall x, x ∈ l -> lo <= x <= hi) ->
  lo * Z.of_nat (length l) <= sumZ l <= hi * Z.of_nat (length l).
Proof.
  induction l as [|a l IH]; intros Hl; [simpl; lia|].
  assert (lo <= a <= hi) by (apply Hl; set_solver).
  assert (lo * Z.of_nat (length l) <= sumZ l <= hi * Z.of_nat (length l))
    by (apply IH; intros x Hx; apply Hl; set_solver).
  unfold sumZ in *. cbn [foldr length]. lia.
Qed.

Lemma quot_between s c lo hi :
  0 < c -> lo * c <= s <= hi * c -> lo <= Z.quot s c <= hi.
Proof.
  intros Hc Hs. destruct (Z_le_gt_dec 0 s) as [Hpos|Hneg].
  - pose proof (Z.quot_rem' s c). pose proof (Z.rem_bound_pos s c Hpos Hc). nia.
  - assert (Hq : Z.quot s c = - Z.quot (- s) c).
    { rewrite Z.quot_opp_l by lia. lia. }
    pose proof (Z.quot_rem' (- s) c).
    assert (0 <= - s) as Hpos by lia.
    pose proof (Z.rem_bound_pos (- s) c Hpos Hc). nia.
Qed.

Lemma box_area_modest b : modest b -> Z.of_nat (box_area b) <= (2 ^ 21 + 1) * (2 ^ 21 + 1).
Proof.
  unfold modest, box_area, Dx, Dy. intros Hb.
  rewrite Nat2Z.inj_mul.
  assert (0 <= Z.of_nat (Z.to_nat (X (Max b) - X (Min b) + 1)) <= 2 ^ 21 + 1) by lia.
  assert (0 <= Z.of_nat (Z.to_nat (Y (Max b) - Y (Min b) + 1)) <= 2 ^ 21 + 1) by lia.
  nia.
Qed.

(** On an image of modest coordinates nothing wraps: the centroid is the
    truncated mean of the qualifying pixels, and it lies in the bounds. *)
Lemma centroid_modest img ll :
  modest (ImgBounds img) -> qualifying img <> [] ->
  let cnt := Z.of_nat (length (qualifying img)) in
  let c := mkPoint (Z.quot (sumZ (X <$> qualifying img)) cnt)
                   (Z.quot (sumZ (Y <$> qualifying img)) cnt) in
  LuminalCenter (computeLuminalCenter img ll) = c /\ inside (ImgBounds img) c.
Proof.
  intros Hb Hne cnt c.
  pose proof (box_area_modest _ Hb) as Harea.
  pose proof (qualifying_length img) as Hlen.
  assert (Hcnt : 0 < cnt <= (2 ^ 21 + 1) * (2 ^ 21 + 1)).
  { unfold cnt. destruct (qualifying img); [done|]. cbn [length] in *. lia. }
  assert (HX : X (Min (ImgBounds img)) * cnt <= sumZ (X <$> qualifying img)
               <= X (Max (ImgBounds img)) * cnt).
  { unfold cnt. rewrite <- (length_fmap X). apply sumZ_bounds.
    intros x (p & -> & Hp%qualifying_spec)%list_elem_of_fmap. apply Hp. }
  assert (HY : Y (Min (ImgBounds img)) * cnt <= sumZ (Y <$> qualifying img)
               <= Y (Max (ImgBounds img)) * cnt).
  { unfold cnt. rewrite <- (length_fmap Y). apply sumZ_bounds.
    intros x (p & -> & Hp%qualifying_spec)%list_elem_of_fmap. apply Hp. }
  pose proof (quot_between _ _ _ _ (proj1 Hcnt) HX) as HqX.
  pose proof (quot_between _ _ _ _ (proj1 Hcnt) HY) as HqY.
  split; [|done].
  assert (Hn : n (scan img) = cnt).
  { rewrite scan_sums. cbn [n]. apply int_wrap_small. lia. }
  destruct (computeLuminalCenter_some img ll) as [-> _]; [lia|].
  rewrite Hn, scan_sums. cbn [sumX sumY]. unfold c, int_quot, modest in *.
  rewrite !(int_wrap_small (sumZ _)) by nia.
  rewrite !int_wrap_small by lia. done.
Qed.


(** ** The two passes that visit a new pixel *)

Lemma fill_step_reject img thresh bounds st p rest :
  toVisit st = p :: rest -> in_gridP p -> p ∉ seen st -> ~ dark img thresh p ->
  fill_step img thresh bounds st = Ok (Some (mkFill rest ({[p]} ∪ seen st) (limb st))).
Proof.
  intros Htv Hg Hs Hd. destruct st as [tv sn ll]. cbn [toVisit seen limb] in *. subst tv.
  rewrite fill_step_cons, Hg, bool_decide_eq_false_2 by done.
  destruct (_ >? _) eqn:Hgt; [done|]. by apply dark_gtb in Hgt.
Qed.

Lemma fill_step_accept img thresh bounds st p rest :
  toVisit st = p :: rest -> in_gridP p -> p ∉ seen st -> dark img thresh p ->
  (forall q, move bounds p q -> in_gridP q) ->
  fill_step img thresh bounds st =
  Ok (Some (mkFill (rest ++ filter (fun q => q ∉ {[p]} ∪ seen st) (neighbours bounds p))
                   ({[p]} ∪ seen st) (Grow (limb st) p))).
Proof.
  intros Htv Hg Hs Hd Hmv. destruct st as [tv sn ll]. cbn [toVisit seen limb] in *. subst tv.
  rewrite fill_step_cons, Hg, bool_decide_eq_false_2 by done.
  apply dark_gtb in Hd. rewrite Hd. unfold visit_list.
  destruct (forallb _ _) eqn:Hall; [done|].
  apply not_true_iff_false in Hall. destruct Hall. apply forallb_in_grid.
  intros q Hq. by apply Hmv, neighbours_spec.
Qed.

(** The sample is the wrapped sum of the window, divided by ten. *)
Lemma Brightness_sample img ll :
  n (scan img) <> 0 ->
  Brightness (computeLuminalCenter img ll) =
  u16 (Brightness ll + sumZ (window img (LuminalCenter (computeLuminalCenter img ll)))) / 10.
Proof.
  intros Hn. destruct (computeLuminalCenter_some img ll Hn) as [HC HB].
  by rewrite HB, HC.
Qed.

(** It is the average when the sum of the window fits in a [uint16]. *)
Lemma Brightness_average img :
  n (scan img) <> 0 ->
  let w := window img (LuminalCenter (computeLuminalCenter img zeroLimb)) in
  0 <= sumZ w < 2 ^ 16 ->
  Brightness (computeLuminalCenter img zeroLimb) = sumZ w / 10.
Proof.
  intros Hn w Hw. rewrite Brightness_sample by done. fold w.
  cbn [Brightness zeroLimb]. unfold u16. rewrite Z.add_0_l, Z.mod_small; done.
Qed.


(** ** Images that fit the visited grid *)

Lemma seed_in_grid img :
  within_grid (ImgBounds img) ->
  in_gridP (LuminalCenter (computeLuminalCenter img zeroLimb)).
Proof.
  intros Hb. unfold in_gridP. apply in_grid_spec.
  destruct (qualifying img) as [|p0 qs] eqn:Hq.
  - rewrite computeLuminalCenter_none; [cbn; unfold grid_side; lia|].
    rewrite scan_sums, Hq. done.
  - destruct (centroid_modest img zeroLimb) as [-> Hin].
    + unfold within_grid, modest, grid_side in *. lia.
    + by rewrite Hq.
    + unfold within_grid, inside in *. lia.
Qed.

Lemma floodfill_safe img thresh ll0 :
  within_grid (ImgBounds img) -> in_gridP (LuminalCenter ll0) ->
  floodfill img thresh ll0 <> Some IndexPanic.
Proof.
  intros Hb Hs. rewrite floodfill_panic_iff. intros [Hbad|(p & q & Hp & Hm & Hq)]; [done|].
  apply Hq. destruct (fill_box_covers (ImgBounds img) (LuminalCenter ll0)) as [Hc Hin].
  assert (Hq' : inside (fill_box (ImgBounds img) (LuminalCenter ll0)) q).
  { eapply move_inside; [done| |done]. by eapply reachable_inside. }
  unfold in_gridP in *. apply in_grid_spec. apply in_grid_spec in Hs.
  unfold within_grid, inside, fill_box in *. cbn [Min Max X Y] in *. lia.
Qed.

Lemma finish_Panicked r : finish r = Panicked <-> r = IndexPanic.
Proof.
  destruct r as [ll|]; cbn [finish]; [|done].
  by destruct (Radius ll =? 0).
Qed.

Lemma FindLunarLimb_Panicked si :
  FindLunarLimb si = Some Panicked <->
  floodfill (OrigImage si) (fill_thresh (seed_limb si)) (seed_limb si) = Some IndexPanic.
Proof.
  unfold FindLunarLimb. fold (seed_limb si).
  destruct (floodfill _ _ _) as [r|]; cbn [fmap option_fmap option_map]; [|done].
  split.
  - intros [= Hr]. f_equal. by apply finish_Panicked.
  - intros [= ->]. done.
Qed.

(** ** binary64 rounding *)

Section Binary64.
Local Open Scope R_scope.

Lemma bpow_gt0 e : 0 < bpow e.
Proof. apply powerRZ_lt. lra. Qed.

Lemma bpow_add a b : bpow (a + b) = bpow a * bpow b.
Proof. apply powerRZ_add. lra. Qed.

Lemma bpow_0 : bpow 0 = 1.
Proof. reflexivity. Qed.

Lemma bpow_1 : bpow 1 = 2.
Proof. unfold bpow. simpl. lra. Qed.

Lemma bpow_m1 : bpow (-1) = / 2.
Proof. unfold bpow. simpl. f_equal. lra. Qed.

Lemma bpow_succ a : bpow (a + 1) = 2 * bpow a.
Proof. rewrite bpow_add, bpow_1. lra. Qed.

Lemma bpow_pred a : bpow (a - 1) = bpow a / 2.
Proof.
  replace (a - 1)%Z with (a + -1)%Z by lia. rewrite bpow_add, bpow_m1. lra.
Qed.

Lemma bpow_opp a : bpow (- a) = / bpow a.
Proof. apply powerRZ_neg'. Qed.

Lemma bpow_IZR e : (0 <= e)%Z -> bpow e = IZR (2 ^ e).
Proof.
  intros He. unfold bpow. rewrite <- (Z2Nat.id e) by done.
  rewrite <- pow_powerRZ, pow_IZR. done.
Qed.

Lemma bpow_le a b : (a <= b)%Z -> bpow a <= bpow b.
Proof.
  intros Hab. replace b with (a + (b - a))%Z by lia.
  rewrite bpow_add, (bpow_IZR (b - a)) by lia.
  assert (1 <= IZR (2 ^ (b - a))).
  { apply IZR_le. pose proof (Z.pow_pos_nonneg 2 (b - a)). lia. }
  pose proof (bpow_gt0 a). nra.
Qed.

Lemma bpow_lt a b : (a < b)%Z -> bpow a < bpow b.
Proof.
  intros Hab. apply Rlt_le_trans with (bpow (a + 1)).
  - rewrite bpow_succ. pose proof (bpow_gt0 a). lra.
  - apply bpow_le. lia.
Qed.

Lemma bpow_div a b : bpow a / bpow b = bpow (a - b).
Proof.
  replace (a - b)%Z with (a + - b)%Z by lia. rewrite bpow_add, bpow_opp. done.
Qed.

(** *** Digits *)

Lemma digits2_pos_bounds p :
  (2 ^ (Z.pos (digits2_pos p) - 1) <= Z.pos p < 2 ^ Z.pos (digits2_pos p))%Z.
Proof.
  induction p as [p IH|p IH|]; cbn [digits2_pos].
  - rewrite Pos2Z.inj_succ. change (Z.pos p~1) with (2 * Z.pos p + 1)%Z.
    replace (Z.succ (Z.pos (digits2_pos p)) - 1)%Z
      with (Z.succ (Z.pos (digits2_pos p) - 1)) by lia.
    rewrite !Z.pow_succ_r by lia.
    revert IH. generalize (2 ^ (Z.pos (digits2_pos p) - 1))%Z, (2 ^ Z.pos (digits2_pos p))%Z.
    lia.
  - rewrite Pos2Z.inj_succ. change (Z.pos p~0) with (2 * Z.pos p)%Z.
    replace (Z.succ (Z.pos (digits2_pos p)) - 1)%Z
      with (Z.succ (Z.pos (digits2_pos p) - 1)) by lia.
    rewrite !Z.pow_succ_r by lia.
    revert IH. generalize (2 ^ (Z.pos (digits2_pos p) - 1))%Z, (2 ^ Z.pos (digits2_pos p))%Z.
    lia.
  - cbn. lia.
Qed.

Lemma Zdigits2_bounds m :
  (0 < m)%Z -> (2 ^ (Zdigits2 m - 1) <= m < 2 ^ Zdigits2 m)%Z /\ (0 < Zdigits2 m)%Z.
Proof.
  destruct m as [|p|p]; [lia| |lia]. intros _. cbn [Zdigits2].
  split; [apply digits2_pos_bounds|lia].
Qed.

(** A positive integer below [2^k] has at most [k] digits, and one that is
    at least [2^k] has more than [k]. *)
Lemma Zdigits2_le m k : (0 < m)%Z -> (0 <= k)%Z -> (m < 2 ^ k)%Z -> (Zdigits2 m <= k)%Z.
Proof.
  intros Hm Hk Hlt. destruct (Zdigits2_bounds m Hm) as [[Hlo _] Hd].
  destruct (Z_le_gt_dec (Zdigits2 m) k) as [|Hgt]; [done|].
  assert (2 ^ k <= 2 ^ (Zdigits2 m - 1))%Z by (apply Z.pow_le_mono_r; lia). lia.
Qed.

Lemma Zdigits2_gt m k : (0 <= k)%Z -> (2 ^ k <= m)%Z -> (k < Zdigits2 m)%Z.
Proof.
  intros Hk Hle. assert (Hm : (0 < m)%Z) by (pose proof (Z.pow_pos_nonneg 2 k); lia).
  destruct (Zdigits2_bounds m Hm) as [[_ Hhi] Hd].
  destruct (Z_lt_le_dec k (Zdigits2 m)) as [|Hge]; [done|].
  assert (2 ^ Zdigits2 m <= 2 ^ k)%Z by (apply Z.pow_le_mono_r; lia). lia.
Qed.

(** *** Shifting right *)

Lemma IZR_xO p : IZR (Z.pos p~0) = 2 * IZR (Z.pos p).
Proof. change (Z.pos p~0) with (2 * Z.pos p)%Z. rewrite mult_IZR. done. Qed.

Lemma IZR_xI p : IZR (Z.pos p~1) = 2 * IZR (Z.pos p) + 1.
Proof. change (Z.pos p~1) with (2 * Z.pos p + 1)%Z. rewrite plus_IZR, mult_IZR. done. Qed.

Lemma shr_1_located mrs x :
  (0 <= shr_m mrs)%Z -> located mrs x ->
  located (shr_1 mrs) (x / 2) /\ shr_m (shr_1 mrs) = (shr_m mrs / 2)%Z.
Proof.
  destruct mrs as [m r s]. unfold located. cbn [shr_m shr_r shr_s].
  intros Hm Hx. destruct m as [|p|p]; [| |lia].
  - cbn [shr_1 shr_m shr_r shr_s]. split; [|done].
    destruct r, s; cbn [orb]; lra.
  - destruct p as [p|p|]; cbn [shr_1 shr_m shr_r shr_s]; (split; [|]).
    + rewrite IZR_xI in Hx. destruct r, s; cbn [orb]; lra.
    + change (Z.pos p~1) with (2 * Z.pos p + 1)%Z.
      rewrite Z.mul_comm, Z.div_add_l by lia. rewrite Z.div_small; lia.
    + rewrite IZR_xO in Hx. destruct r, s; cbn [orb]; lra.
    + change (Z.pos p~0) with (2 * Z.pos p)%Z. rewrite Z.mul_comm, Z.div_mul; lia.
    + destruct r, s; cbn [orb]; lra.
    + done.
Qed.

Lemma iter_pos_nat {A : Type} (f : A -> A) p : forall x,
  SpecFloat.iter_pos f p x = Nat.iter (Pos.to_nat p) f x.
Proof.
  induction p as [p IH|p IH|]; intros x; cbn [SpecFloat.iter_pos].
  - rewrite !IH, Pos2Nat.inj_xI. rewrite <- Nat.iter_add, <- Nat.iter_succ_r.
    f_equal. lia.
  - rewrite !IH, Pos2Nat.inj_xO. rewrite <- Nat.iter_add. f_equal. lia.
  - done.
Qed.

Lemma shr_iter_located k : forall mrs x,
  (0 <= shr_m mrs)%Z -> located mrs x ->
  located (Nat.iter k shr_1 mrs) (x / 2 ^ k) /\
  shr_m (Nat.iter k shr_1 mrs) = (shr_m mrs / 2 ^ Z.of_nat k)%Z.
Proof.
  induction k as [|k IH]; intros mrs x Hm Hx.
  - cbn [Nat.iter pow]. rewrite Rdiv_1_r, Z.div_1_r. done.
  - change (Nat.iter (S k) shr_1 mrs) with (shr_1 (Nat.iter k shr_1 mrs)).
    destruct (IH mrs x Hm Hx) as [Hloc Hmk].
    assert (Hm' : (0 <= shr_m (Nat.iter k shr_1 mrs))%Z).
    { rewrite Hmk. apply Z.div_pos; [done|]. apply Z.pow_pos_nonneg; lia. }
    destruct (shr_1_located _ _ Hm' Hloc) as [Hloc1 Hm1]. split.
    + replace (x / 2 ^ S k) with (x / 2 ^ k / 2); [done|].
      cbn [pow]. field. apply pow_nonzero. lra.
    + rewrite Hm1, Hmk, Nat2Z.inj_succ, Z.pow_succ_r by lia.
      rewrite Z.div_div by (try apply Z.pow_pos_nonneg; lia).
      f_equal. lia.
Qed.

(** [shr] at a shift that is not negative. *)
Lemma shr_located mrs e n x :
  (0 <= n)%Z -> (0 <= shr_m mrs)%Z -> located mrs x ->
  let '(mrs', e') := shr mrs e n in
  e' = (e + n)%Z /\ located mrs' (x / bpow n) /\
  shr_m mrs' = (shr_m mrs / 2 ^ n)%Z.
Proof.
  intros Hn Hm Hx. unfold shr. destruct n as [|p|p]; [| |lia].
  - rewrite bpow_0, Rdiv_1_r, Z.div_1_r, Z.add_0_r. done.
  - rewrite iter_pos_nat.
    destruct (shr_iter_located (Pos.to_nat p) mrs x Hm Hx) as [Hloc Hmk].
    rewrite positive_nat_Z in Hmk. split; [done|]. split; [|done].
    unfold bpow. rewrite <- (positive_nat_Z p), <- pow_powerRZ. done.
Qed.

(** *** Rounding to nearest, ties to even *)

Lemma round_nearest_even_located mrs x :
  located mrs x ->
  let z := round_nearest_even (shr_m mrs) (loc_of_shr_record mrs) in
  Rabs (IZR z - x) <= / 2 /\ (shr_m mrs <= z <= shr_m mrs + 1)%Z.
Proof.
  destruct mrs as [m r s]. unfold located. cbn [shr_m shr_r shr_s loc_of_shr_record].
  intros Hx. destruct r, s; cbn [round_nearest_even].
  - rewrite plus_IZR. split; [|lia]. apply Rabs_le. lra.
  - destruct (Z.even m); [|rewrite plus_IZR]; (split; [|lia]); apply Rabs_le; lra.
  - split; [|lia]. apply Rabs_le. lra.
  - split; [|lia]. apply Rabs_le. lra.
Qed.

End Binary64.

Section Binary64Round.
Local Open Scope R_scope.

Lemma fexp64 e : fexp prec emax e = Z.max (e - 53) (-1074)%Z.
Proof. reflexivity. Qed.

Lemma shr_m_of_loc m l : shr_m (shr_record_of_loc m l) = m.
Proof. by destruct l as [|[]]. Qed.

Lemma located_ge mrs x : located mrs x -> IZR (shr_m mrs) <= x.
Proof.
  destruct mrs as [m r s]. unfold located. cbn [shr_m shr_r shr_s].
  destruct r, s; lra.
Qed.

Lemma located_exact m : located (shr_record_of_loc m loc_Exact) (IZR m).
Proof. reflexivity. Qed.

(** The heart of every operation: [binary_round_aux] takes a mantissa, an
    exponent and the place of the exact value among the integers, and
    returns the multiple of [2^E] nearest to the exact value, where [E] is
    the exponent of the format for numbers of that size. *)
Lemma binary_round_aux_spec s mx ex lx x :
  (0 <= mx)%Z -> located (shr_record_of_loc mx lx) x ->
  let E := fexp prec emax (Zdigits2 mx + ex) in
  (ex <= E)%Z -> (E <= 971)%Z ->
  exists z, (0 <= z <= 2 ^ 53)%Z /\ Rabs (IZR z - x / bpow (E - ex)) <= / 2 /\
    ((E < 971)%Z \/ (z < 2 ^ 53)%Z ->
     SFfinite (binary_round_aux prec emax s mx ex lx) = true /\
     SF2R (binary_round_aux prec emax s mx ex lx) = sgn s * IZR z * bpow E).
Proof.
  intros Hmx Hloc E HexE HE.
  assert (HEmin : (-1074 <= E)%Z) by (unfold E; rewrite fexp64; lia).
  unfold binary_round_aux, shr_fexp. fold E.
  pose proof (shr_located (shr_record_of_loc mx lx) ex (E - ex)%Z x) as Hshr.
  destruct (shr (shr_record_of_loc mx lx) ex (E - ex)%Z) as [mrs1 e1].
  destruct Hshr as (-> & Hloc1 & Hm1); [lia|by rewrite shr_m_of_loc|done|].
  rewrite shr_m_of_loc in Hm1.
  replace (ex + (E - ex))%Z with E by lia.
  destruct (round_nearest_even_located mrs1 _ Hloc1) as [Herr Hz].
  set (z := round_nearest_even (shr_m mrs1) (loc_of_shr_record mrs1)) in *.
  assert (Hm1lo : (0 <= shr_m mrs1)%Z).
  { rewrite Hm1. apply Z.div_pos; [done|]. apply Z.pow_pos_nonneg; lia. }
  assert (Hm1hi : (shr_m mrs1 < 2 ^ 53)%Z).
  { rewrite Hm1. apply Z.div_lt_upper_bound; [apply Z.pow_pos_nonneg; lia|].
    destruct (Z.eq_dec mx 0%Z) as [->|Hne].
    - apply Z.mul_pos_pos; apply Z.pow_pos_nonneg; lia.
    - destruct (Zdigits2_bounds mx) as [[_ Hhi] Hd]; [lia|].
      rewrite <- Z.pow_add_r by lia.
      apply Z.lt_le_trans with (1 := Hhi). apply Z.pow_le_mono_r; [lia|].
      unfold E in HexE |- *. rewrite fexp64 in *. lia. }
  change (2 ^ 53)%Z with 9007199254740992%Z in *.
  exists z. split; [lia|]. split; [done|]. intros Hok.
  destruct (Z.eq_dec z 9007199254740992%Z) as [Hz53|Hz53].
  - (* the mantissa has been rounded up to 2^53: one more shift *)
    rewrite Hz53. change (Zdigits2 9007199254740992%Z) with 54%Z.
    rewrite fexp64. replace (Z.max (54 + E - 53) (-1074) - E)%Z with 1%Z by lia.
    cbn [shr shr_record_of_loc SpecFloat.iter_pos shr_1 shr_m].
    destruct (Z.leb_spec (E + 1)%Z (emax - prec)%Z) as [_|Hbad];
      [|unfold emax, prec in Hbad; lia].
    split; [done|]. cbn [SF2R]. rewrite bpow_succ.
    unfold sgn. destruct s; lra.
  - assert (Hzlt : (z < 9007199254740992)%Z) by lia.
    assert (Hn2 : (fexp prec emax (Zdigits2 z + E) - E <= 0)%Z).
    { rewrite fexp64. destruct (Z.eq_dec z 0%Z) as [->|Hz0]; [cbn [Zdigits2]; lia|].
      pose proof (Zdigits2_le z 53%Z).
      change (2 ^ 53)%Z with 9007199254740992%Z in *. lia. }
    assert (Hshr2 : shr (shr_record_of_loc z loc_Exact) E
                        (fexp prec emax (Zdigits2 z + E) - E)%Z
                    = (shr_record_of_loc z loc_Exact, E)).
    { unfold shr. destruct (fexp prec emax (Zdigits2 z + E) - E)%Z; [done|lia|done]. }
    rewrite Hshr2. cbn [shr_record_of_loc shr_m].
    destruct z as [|p|p]; [| |lia].
    + split; [done|]. cbn [SF2R]. lra.
    + destruct (Z.leb_spec E (emax - prec)%Z) as [_|Hbad];
        [|unfold emax, prec in Hbad; lia].
      split; [done|]. done.
Qed.

(** The same with the error measured against the exact value: at most half
    a unit of the last place, which is at most the relative error [2^-53]
    plus, for results below the normal range, the absolute error [2^-1075]. *)
Lemma binary_round_aux_err s mx ex lx x :
  (0 <= mx)%Z -> located (shr_record_of_loc mx lx) x ->
  (ex <= fexp prec emax (Zdigits2 mx + ex))%Z ->
  x * bpow ex < bpow 1023 ->
  let f := binary_round_aux prec emax s mx ex lx in
  SFfinite f = true /\
  Rabs (SF2R f - sgn s * (x * bpow ex)) <= u64 * (x * bpow ex) + eta64.
Proof.
  intros Hmx Hloc HexE Hbig f.
  pose proof (located_ge _ _ Hloc) as Hge. rewrite shr_m_of_loc in Hge.
  pose proof (bpow_gt0 ex) as Hbex.
  assert (Hx0 : 0 <= x) by (apply Rle_trans with (2 := Hge); by apply IZR_le).
  set (E := fexp prec emax (Zdigits2 mx + ex)) in *.
  assert (HE : (E < 971)%Z).
  { unfold E. rewrite fexp64. destruct (Z.eq_dec mx 0%Z) as [->|Hne]; [cbn [Zdigits2]|].
    - unfold E in HexE. rewrite fexp64 in HexE. cbn [Zdigits2] in HexE. lia.
    - destruct (Zdigits2_bounds mx) as [[Hlo _] Hd]; [lia|].
      assert (Hlt : bpow (Zdigits2 mx - 1 + ex) < bpow 1023).
      { apply Rle_lt_trans with (2 := Hbig). rewrite bpow_add.
        apply Rmult_le_compat_r; [lra|]. apply Rle_trans with (2 := Hge).
        rewrite bpow_IZR by lia. by apply IZR_le. }
      destruct (Z_lt_le_dec (Zdigits2 mx - 1 + ex)%Z 1023%Z) as [|Hbad]; [lia|].
      apply bpow_le in Hbad. lra. }
  destruct (binary_round_aux_spec s mx ex lx x Hmx Hloc HexE)
    as (z & Hz0 & Herr & Hok); [fold E; lia|].
  destruct Hok as [Hfin Hval]; [left; by fold E|].
  fold E in Herr, Hval. fold f in Hfin, Hval. split; [done|].
  rewrite Hval.
  assert (Hhalf : Rabs (sgn s * IZR z * bpow E - sgn s * (x * bpow ex)) <= bpow E / 2).
  { replace (sgn s * IZR z * bpow E - sgn s * (x * bpow ex))
      with (sgn s * bpow E * (IZR z - x / bpow (E - ex))).
    - rewrite !Rabs_mult. pose proof (bpow_gt0 E).
      replace (Rabs (sgn s)) with 1 by (unfold sgn; destruct s;
        [rewrite Rabs_left|rewrite Rabs_right]; lra).
      rewrite (Rabs_right (bpow E)) by lra. nra.
    - rewrite <- bpow_div. pose proof (bpow_gt0 E). field. lra. }
  apply Rle_trans with (1 := Hhalf).
  assert (HP : 0 <= x * bpow ex) by (apply Rmult_le_pos; lra).
  pose proof (bpow_gt0 (-53)) as Hu. pose proof (bpow_gt0 (-1075)) as Heta.
  unfold u64, eta64. unfold E. rewrite fexp64.
  destruct (Z.max_spec (Zdigits2 mx + ex - 53)%Z (-1074)%Z) as [[_ ->]|[Hnorm ->]].
  - replace (bpow (-1074) / 2) with (bpow (-1075))
      by (rewrite <- bpow_pred; done).
    pose proof (Rmult_le_pos _ _ (Rlt_le _ _ Hu) HP). lra.
  - destruct (Z.eq_dec mx 0%Z) as [->|Hne].
    { unfold E in HexE. rewrite fexp64 in HexE. cbn [Zdigits2] in *. lia. }
    destruct (Zdigits2_bounds mx) as [[Hlo _] Hd]; [lia|].
    assert (Hm : bpow (Zdigits2 mx - 1) <= x).
    { apply Rle_trans with (2 := Hge). rewrite bpow_IZR by lia. by apply IZR_le. }
    replace (Zdigits2 mx + ex - 53)%Z with ((Zdigits2 mx - 1) + ex + -53 + 1)%Z by lia.
    rewrite bpow_succ, !bpow_add.
    assert (H1 : bpow (Zdigits2 mx - 1) * bpow ex <= x * bpow ex)
      by (apply Rmult_le_compat_r; lra).
    assert (H2 : bpow (-53) * (bpow (Zdigits2 mx - 1) * bpow ex)
                 <= bpow (-53) * (x * bpow ex))
      by (apply Rmult_le_compat_l; lra).
    lra.
Qed.

End Binary64Round.

Section Binary64Ops.
Local Open Scope R_scope.

Lemma valid_finite s m e :
  valid_binary prec emax (S754_finite s m e) = true ->
  (Z.max (Z.pos (digits2_pos m) + e - 53) (-1074) = e)%Z /\ (e <= 971)%Z.
Proof.
  cbn [valid_binary]. unfold SpecFloat.bounded, canonical_mantissa. rewrite fexp64.
  intros H. apply andb_prop in H as [H1 H2].
  apply Z.eqb_eq in H1. apply Z.leb_le in H2. unfold emax, prec in H2. lia.
Qed.

Lemma Rabs_sgn s x : Rabs (sgn s * x) = Rabs x.
Proof.
  unfold sgn. destruct s.
  - replace (-1 * x) with (- x) by lra. apply Rabs_Ropp.
  - by rewrite Rmult_1_l.
Qed.

Lemma sgn_xorb a b : sgn (xorb a b) = sgn a * sgn b.
Proof. unfold sgn. destruct a, b; cbn [xorb]; lra. Qed.

Lemma SF2R_finite s m e :
  SF2R (S754_finite s m e) = sgn s * (IZR (Z.pos m) * bpow e).
Proof. cbn [SF2R]. unfold sgn. destruct s; lra. Qed.

Lemma IZR_pos_gt0 p : 0 < IZR (Z.pos p).
Proof. apply IZR_lt. lia. Qed.

(** A finite binary64 number is below 2^1024 in magnitude. *)
Lemma SF2R_lt_max X :
  valid_binary prec emax X = true -> Rabs (SF2R X) < bpow 1024.
Proof.
  destruct X as [s|s| |s m e]; intros Hv;
    try (cbn [SF2R]; rewrite Rabs_R0; apply bpow_gt0).
  apply valid_finite in Hv as [Hc He].
  rewrite SF2R_finite, Rabs_sgn.
  pose proof (IZR_pos_gt0 m). pose proof (bpow_gt0 e).
  rewrite Rabs_pos_eq by (apply Rmult_le_pos; lra).
  destruct (digits2_pos_bounds m) as [_ Hhi].
  assert (Hm : (Z.pos m < 2 ^ 53)%Z).
  { apply Z.lt_le_trans with (1 := Hhi). apply Z.pow_le_mono_r; lia. }
  apply IZR_lt in Hm. rewrite <- bpow_IZR in Hm by lia.
  apply Rlt_le_trans with (bpow 53 * bpow e).
  - apply Rmult_lt_compat_r; lra.
  - rewrite <- bpow_add. apply bpow_le. lia.
Qed.

(** ** Multiplication *)

Lemma SFmul_err X Y :
  valid_binary prec emax X = true -> valid_binary prec emax Y = true ->
  SFfinite X = true -> SFfinite Y = true ->
  Rabs (SF2R X * SF2R Y) < bpow 1023 ->
  SFfinite (SFmul prec emax X Y) = true /\
  Rabs (SF2R (SFmul prec emax X Y) - SF2R X * SF2R Y)
    <= u64 * Rabs (SF2R X * SF2R Y) + eta64.
Proof.
  assert (Hz : 0 <= u64 * Rabs 0 + eta64).
  { rewrite Rabs_R0. unfold eta64. pose proof (bpow_gt0 (-1075)). lra. }
  destruct X as [sx|sx| |sx mx ex], Y as [sy|sy| |sy my ey];
    intros HvX HvY HfX HfY Hlt; try discriminate; cbn [SFmul];
    try (split; [done|]; cbn [SF2R];
         rewrite ?Rmult_0_l, ?Rmult_0_r, Rminus_diag; rewrite (Rabs_R0) at 1;
         exact Hz).
  apply valid_finite in HvX as [HcX HeX]. apply valid_finite in HvY as [HcY HeY].
  rewrite !SF2R_finite in *.
  pose proof (IZR_pos_gt0 mx). pose proof (IZR_pos_gt0 my).
  pose proof (bpow_gt0 ex). pose proof (bpow_gt0 ey).
  assert (Hval : sgn sx * (IZR (Z.pos mx) * bpow ex) * (sgn sy * (IZR (Z.pos my) * bpow ey))
                 = sgn (xorb sx sy) * (IZR (Z.pos (mx * my)) * bpow (ex + ey))).
  { rewrite sgn_xorb, Pos2Z.inj_mul, mult_IZR, bpow_add. ring. }
  rewrite Hval in *. rewrite Rabs_sgn in *.
  assert (Hpos : 0 <= IZR (Z.pos (mx * my)) * bpow (ex + ey)).
  { apply Rmult_le_pos; [apply IZR_le; lia|]. pose proof (bpow_gt0 (ex + ey)). lra. }
  rewrite (Rabs_pos_eq _ Hpos) in Hlt. rewrite (Rabs_pos_eq _ Hpos).
  apply (binary_round_aux_err _ _ _ _ (IZR (Z.pos (mx * my))));
    [lia|apply located_exact| |done].
  rewrite fexp64. cbn [Zdigits2].
  destruct (digits2_pos_bounds mx) as [Hlx _].
  destruct (digits2_pos_bounds my) as [Hly _].
  assert (Hd : (Z.pos (digits2_pos mx) + Z.pos (digits2_pos my) - 2
                < Zdigits2 (Z.pos (mx * my)))%Z).
  { apply Zdigits2_gt; [lia|].
    replace (Z.pos (digits2_pos mx) + Z.pos (digits2_pos my) - 2)%Z
      with ((Z.pos (digits2_pos mx) - 1) + (Z.pos (digits2_pos my) - 1))%Z by lia.
    rewrite Z.pow_add_r, Pos2Z.inj_mul by lia.
    apply Z.mul_le_mono_nonneg; try done; apply Z.pow_nonneg; lia. }
  cbn [Zdigits2] in Hd. lia.
Qed.

End Binary64Ops.

Section Binary64Add.
Local Open Scope R_scope.

Lemma Pos_iter_xO m d : Z.pos (Pos.iter xO m d) = (Z.pos m * 2 ^ Z.pos d)%Z.
Proof.
  induction d as [|d IH] using Pos.peano_ind.
  - cbn [Pos.iter]. lia.
  - rewrite Pos.iter_succ, Pos2Z.inj_succ, Z.pow_succ_r by lia.
    change (Z.pos (Pos.iter xO m d)~0) with (2 * Z.pos (Pos.iter xO m d))%Z.
    rewrite IH. lia.
Qed.

Lemma shl_align_spec m e e' :
  snd (shl_align m e e') = Z.min e e' /\
  Z.pos (fst (shl_align m e e')) = (Z.pos m * 2 ^ (e - Z.min e e'))%Z.
Proof.
  unfold shl_align. destruct (e' - e)%Z as [|d|d] eqn:Hd; cbn [fst snd].
  - replace (Z.min e e') with e by lia. rewrite Z.sub_diag. lia.
  - replace (Z.min e e') with e by lia. rewrite Z.sub_diag. lia.
  - replace (Z.min e e') with e' by lia. rewrite Pos_iter_xO.
    replace (e - e')%Z with (Z.pos d) by lia. done.
Qed.

Lemma Zdigits2_shift m k :
  (0 <= k)%Z -> Zdigits2 (Z.pos m * 2 ^ k) = (Zdigits2 (Z.pos m) + k)%Z.
Proof.
  intros Hk. destruct (Zdigits2_bounds (Z.pos m)) as [[Hlo Hhi] Hd]; [lia|].
  assert (H2k : (0 < 2 ^ k)%Z) by (apply Z.pow_pos_nonneg; lia).
  assert (Hlt : (Zdigits2 (Z.pos m) + k - 1 < Zdigits2 (Z.pos m * 2 ^ k))%Z).
  { apply Zdigits2_gt; [lia|].
    replace (Zdigits2 (Z.pos m) + k - 1)%Z with ((Zdigits2 (Z.pos m) - 1) + k)%Z by lia.
    rewrite Z.pow_add_r by lia. apply Z.mul_le_mono_nonneg_r; lia. }
  assert (Hle : (Zdigits2 (Z.pos m * 2 ^ k) <= Zdigits2 (Z.pos m) + k)%Z).
  { apply Zdigits2_le; [lia|lia|].
    rewrite Z.pow_add_r by lia. apply Z.mul_lt_mono_pos_r; lia. }
  lia.
Qed.

(** [binary_round]: a mantissa and an exponent, rounded to binary64. *)
Lemma binary_round_err s m e :
  IZR (Z.pos m) * bpow e < bpow 1023 ->
  SFfinite (binary_round prec emax s m e) = true /\
  Rabs (SF2R (binary_round prec emax s m e) - sgn s * (IZR (Z.pos m) * bpow e))
    <= u64 * (IZR (Z.pos m) * bpow e) + eta64.
Proof.
  intros Hlt. unfold binary_round.
  set (F := fexp prec emax (Z.pos (digits2_pos m) + e)).
  destruct (shl_align_spec m e F) as [He Hm].
  destruct (shl_align m e F) as [mz ez]. cbn [fst snd] in He, Hm. subst ez.
  assert (Hval : IZR (Z.pos mz) * bpow (Z.min e F) = IZR (Z.pos m) * bpow e).
  { rewrite Hm, mult_IZR, <- bpow_IZR by lia.
    rewrite Rmult_assoc, <- bpow_add. f_equal. f_equal. lia. }
  rewrite <- Hval in *.
  apply (binary_round_aux_err _ _ _ _ (IZR (Z.pos mz)));
    [lia|apply located_exact| |done].
  rewrite Hm, Zdigits2_shift by lia. cbn [Zdigits2].
  replace (Z.pos (digits2_pos m) + (e - Z.min e F) + Z.min e F)%Z
    with (Z.pos (digits2_pos m) + e)%Z by lia.
  fold F. lia.
Qed.

Lemma binary_normalize_err M e :
  Rabs (IZR M * bpow e) < bpow 1023 ->
  SFfinite (binary_normalize prec emax M e false) = true /\
  Rabs (SF2R (binary_normalize prec emax M e false) - IZR M * bpow e)
    <= u64 * Rabs (IZR M * bpow e) + eta64.
Proof.
  pose proof (bpow_gt0 e) as He. pose proof (bpow_gt0 (-1075)) as Heta.
  destruct M as [|m|m]; intros Hlt; cbn [binary_normalize].
  - split; [done|]. cbn [SF2R]. rewrite Rmult_0_l, Rminus_diag, Rabs_R0.
    unfold eta64. lra.
  - pose proof (IZR_pos_gt0 m).
    assert (Hpos : 0 <= IZR (Z.pos m) * bpow e) by (apply Rmult_le_pos; lra).
    rewrite (Rabs_pos_eq _ Hpos) in Hlt |- *.
    destruct (binary_round_err false m e Hlt) as [Hf Herr]. split; [done|].
    unfold sgn in Herr. by rewrite Rmult_1_l in Herr.
  - pose proof (IZR_pos_gt0 m).
    assert (Hpos : 0 <= IZR (Z.pos m) * bpow e) by (apply Rmult_le_pos; lra).
    assert (Hneg : IZR (Z.neg m) * bpow e = - (IZR (Z.pos m) * bpow e)).
    { change (Z.neg m) with (- Z.pos m)%Z. rewrite opp_IZR. lra. }
    rewrite Hneg, Rabs_Ropp, (Rabs_pos_eq _ Hpos) in Hlt |- *.
    destruct (binary_round_err true m e Hlt) as [Hf Herr]. split; [done|].
    unfold sgn in Herr.
    by replace (-1 * (IZR (Z.pos m) * bpow e)) with (- (IZR (Z.pos m) * bpow e))
      in Herr by lra.
Qed.

Lemma cond_Zopp_IZR s z : IZR (cond_Zopp s z) = sgn s * IZR z.
Proof. unfold sgn. destruct s; cbn [cond_Zopp]; rewrite ?opp_IZR; lra. Qed.

Lemma shl_align_value m e e' :
  IZR (Z.pos (fst (shl_align m e (Z.min e e')))) * bpow (Z.min e e')
  = IZR (Z.pos m) * bpow e.
Proof.
  destruct (shl_align_spec m e (Z.min e e')) as [_ Hm]. rewrite Hm.
  replace (Z.min e (Z.min e e')) with (Z.min e e') by lia.
  rewrite mult_IZR, <- bpow_IZR by lia.
  rewrite Rmult_assoc, <- bpow_add. f_equal. f_equal. lia.
Qed.

Lemma SFfinite_zero X :
  SFfinite X = true -> SF2R X = 0 -> exists s, X = S754_zero s.
Proof.
  destruct X as [s|s| |s m e]; try discriminate; intros _; [by exists s|].
  rewrite SF2R_finite. intros H0. exfalso.
  pose proof (IZR_pos_gt0 m). pose proof (bpow_gt0 e).
  assert (0 < IZR (Z.pos m) * bpow e) by (apply Rmult_lt_0_compat; lra).
  unfold sgn in H0. destruct s; lra.
Qed.

(** ** Addition *)

Lemma SFadd_err X Y :
  SFfinite X = true -> SFfinite Y = true ->
  Rabs (SF2R X + SF2R Y) < bpow 1023 ->
  SFfinite (SFadd prec emax X Y) = true /\
  Rabs (SF2R (SFadd prec emax X Y) - (SF2R X + SF2R Y))
    <= u64 * Rabs (SF2R X + SF2R Y) + eta64.
Proof.
  assert (Hz : forall r, 0 <= u64 * Rabs r + eta64).
  { intros r. pose proof (Rabs_pos r). pose proof (bpow_gt0 (-1075)).
    pose proof (bpow_gt0 (-53)). unfold u64, eta64.
    assert (0 <= bpow (-53) * Rabs r) by (apply Rmult_le_pos; lra). lra. }
  assert (Hex : forall a b, a = b -> Rabs (a - b) <= u64 * Rabs b + eta64).
  { intros a b ->. rewrite Rminus_diag, Rabs_R0. apply Hz. }
  destruct X as [sx|sx| |sx mx ex], Y as [sy|sy| |sy my ey];
    intros HfX HfY Hlt; try discriminate.
  - split; [by destruct sx, sy|]. apply Hex. destruct sx, sy; cbn [SFadd SF2R]; lra.
  - split; [done|]. apply Hex. cbn [SFadd]. cbn [SF2R]. lra.
  - split; [done|]. apply Hex. cbn [SFadd]. cbn [SF2R]. lra.
  - cbn [SFadd]. change (IntDef.Z.min ex ey) with (Z.min ex ey).
    set (ez := Z.min ex ey).
    assert (Hval : IZR (cond_Zopp sx (Z.pos (fst (shl_align mx ex ez))) +
                        cond_Zopp sy (Z.pos (fst (shl_align my ey ez)))) * bpow ez
                   = SF2R (S754_finite sx mx ex) + SF2R (S754_finite sy my ey)).
    { rewrite plus_IZR, !cond_Zopp_IZR, !SF2R_finite.
      rewrite Rmult_plus_distr_r, !Rmult_assoc. unfold ez.
      rewrite shl_align_value. rewrite (Z.min_comm ex ey), shl_align_value. done. }
    rewrite <- Hval in *. by apply binary_normalize_err.
Qed.

(** Adding a zero is exact. *)
Lemma SFadd_zero_r X Y :
  SFfinite X = true -> SFfinite Y = true -> SF2R Y = 0 ->
  SFfinite (SFadd prec emax X Y) = true /\ SF2R (SFadd prec emax X Y) = SF2R X.
Proof.
  intros HfX HfY HY. destruct (SFfinite_zero Y HfY HY) as [sy ->].
  destruct X as [sx|sx| |sx mx ex]; try discriminate; cbn [SFadd].
  - split; by destruct sx, sy.
  - done.
Qed.

Lemma SFadd_zero_l X Y :
  SFfinite X = true -> SFfinite Y = true -> SF2R X = 0 ->
  SFfinite (SFadd prec emax X Y) = true /\ SF2R (SFadd prec emax X Y) = SF2R Y.
Proof.
  intros HfX HfY HX. destruct (SFfinite_zero X HfX HX) as [sx ->].
  destruct Y as [sy|sy| |sy my ey]; try discriminate; cbn [SFadd].
  - split; by destruct sx, sy.
  - done.
Qed.

End Binary64Add.

Section Binary64Exact.
Local Open Scope R_scope.

Lemma SFmul_comm X Y : SFmul prec emax X Y = SFmul prec emax Y X.
Proof.
  destruct X as [sx|sx| |sx mx ex], Y as [sy|sy| |sy my ey]; cbn [SFmul];
    rewrite ?(xorb_comm sx sy); try done.
  by rewrite (Pos.mul_comm mx my), (Z.add_comm ex ey).
Qed.

(** Multiplying by [1] or [-1], the numbers of mantissa [2^52] and exponent
    [-52], is exact. *)
Lemma SFmul_unit_r X sy :
  valid_binary prec emax X = true -> SFfinite X = true ->
  let Y := S754_finite sy 4503599627370496 (-52) in
  SFfinite (SFmul prec emax X Y) = true /\
  SF2R (SFmul prec emax X Y) = sgn sy * SF2R X.
Proof.
  intros HvX HfX Y. subst Y.
  destruct X as [sx|sx| |sx m e]; try discriminate; cbn [SFmul].
  { split; [done|]. cbn [SF2R]. lra. }
  apply valid_finite in HvX as [Hc He].
  assert (Hd : Zdigits2 (Z.pos (m * 4503599627370496))
               = (Z.pos (digits2_pos m) + 52)%Z).
  { rewrite Pos2Z.inj_mul. change (Z.pos 4503599627370496) with (2 ^ 52)%Z.
    by rewrite Zdigits2_shift. }
  assert (HE : fexp prec emax (Zdigits2 (Z.pos (m * 4503599627370496)) + (e + -52)) = e).
  { rewrite Hd, fexp64. lia. }
  destruct (binary_round_aux_spec (xorb sx sy) (Z.pos (m * 4503599627370496))
              (e + -52) loc_Exact (IZR (Z.pos (m * 4503599627370496))))
    as (z & Hz & Herr & Hok); [lia|apply located_exact|rewrite HE; lia..|].
  rewrite HE in Herr, Hok.
  assert (Hzm : z = Z.pos m).
  { replace (e - (e + -52))%Z with 52%Z in Herr by lia.
    rewrite Pos2Z.inj_mul, mult_IZR in Herr.
    change (Z.pos 4503599627370496) with (2 ^ 52)%Z in Herr.
    rewrite <- bpow_IZR in Herr by lia.
    pose proof (bpow_gt0 52).
    replace (IZR (Z.pos m) * bpow 52 / bpow 52) with (IZR (Z.pos m)) in Herr
      by (field; lra).
    rewrite <- minus_IZR in Herr.
    assert (-1 < z - Z.pos m < 1)%Z; [|lia].
    unfold Rabs in Herr. destruct (Rcase_abs _) in Herr; split; apply lt_IZR; lra. }
  subst z.
  assert (Hm53 : (Z.pos m < 2 ^ 53)%Z).
  { destruct (digits2_pos_bounds m) as [_ Hhi].
    apply Z.lt_le_trans with (1 := Hhi). apply Z.pow_le_mono_r; lia. }
  destruct Hok as [Hf Hv]; [by right|]. split; [done|].
  rewrite Hv, SF2R_finite, sgn_xorb. ring.
Qed.

Lemma SFmul_unit_l X sy :
  valid_binary prec emax X = true -> SFfinite X = true ->
  let Y := S754_finite sy 4503599627370496 (-52) in
  SFfinite (SFmul prec emax Y X) = true /\
  SF2R (SFmul prec emax Y X) = sgn sy * SF2R X.
Proof. intros HvX HfX Y. rewrite SFmul_comm. by apply SFmul_unit_r. Qed.

(** A product with a zero is a zero. *)
Lemma SFmul_zero_l X Y :
  SFfinite X = true -> SFfinite Y = true -> SF2R X = 0 ->
  SFfinite (SFmul prec emax X Y) = true /\ SF2R (SFmul prec emax X Y) = 0.
Proof.
  intros HfX HfY HX. destruct (SFfinite_zero X HfX HX) as [sx ->].
  by destruct Y; try discriminate.
Qed.

Lemma SFmul_zero_r X Y :
  SFfinite X = true -> SFfinite Y = true -> SF2R Y = 0 ->
  SFfinite (SFmul prec emax X Y) = true /\ SF2R (SFmul prec emax X Y) = 0.
Proof. intros HfX HfY HY. rewrite SFmul_comm. by apply SFmul_zero_l. Qed.

End Binary64Exact.

Section Binary64Div.
Local Open Scope R_scope.

Lemma new_location_located q m2 r :
  (0 <= r < m2)%Z ->
  located (shr_record_of_loc q (new_location m2 r)) (IZR q + IZR r / IZR m2).
Proof.
  intros Hr. assert (Hm2 : 0 < IZR m2) by (apply IZR_lt; lia).
  set (t := IZR r / IZR m2).
  assert (Ht : t * IZR m2 = IZR r) by (unfold t; field; lra).
  assert (Hlt : (2 * r < m2)%Z -> t < / 2).
  { intros Hlt. apply IZR_lt in Hlt. rewrite mult_IZR in Hlt. nra. }
  assert (Hgt : (m2 < 2 * r)%Z -> / 2 < t).
  { intros Hgt. apply IZR_lt in Hgt. rewrite mult_IZR in Hgt. nra. }
  assert (Heq : (2 * r = m2)%Z -> t = / 2).
  { intros Heq. apply (f_equal IZR) in Heq. rewrite mult_IZR in Heq. nra. }
  assert (Ht0 : (r <> 0)%Z -> 0 < t < 1).
  { intros Hr0. assert (0 < IZR r) by (apply IZR_lt; lia).
    assert (IZR r < IZR m2) by (apply IZR_lt; lia).
    split; [unfold t; apply Rdiv_lt_0_compat; lra|nra]. }
  assert (Hz : r = 0%Z -> t = 0) by (intros ->; unfold t; field; lra).
  clearbody t. unfold new_location.
  change (IntDef.Z.even m2) with (Z.even m2).
  destruct (Z.even m2) eqn:Hev; unfold new_location_even, new_location_odd.
  - destruct (Z.eqb_spec r 0) as [Hr0|Hr0].
    { unfold located; cbn [shr_record_of_loc shr_m shr_r shr_s].
      rewrite (Hz Hr0). lra. }
    specialize (Ht0 Hr0).
    destruct (Z.compare_spec (2 * r) m2) as [H|H|H];
      unfold located; cbn [shr_record_of_loc shr_m shr_r shr_s];
      [specialize (Heq H)|specialize (Hlt H)|specialize (Hgt H)]; lra.
  - rewrite <- Z.negb_odd in Hev. apply negb_false_iff in Hev.
    apply Z.odd_spec in Hev as [k Hk].
    destruct (Z.eqb_spec r 0) as [Hr0|Hr0].
    { unfold located; cbn [shr_record_of_loc shr_m shr_r shr_s].
      rewrite (Hz Hr0). lra. }
    specialize (Ht0 Hr0).
    destruct (Z.compare_spec (2 * r + 1) m2) as [H|H|H];
      unfold located; cbn [shr_record_of_loc shr_m shr_r shr_s];
      [assert (H' : (2 * r < m2)%Z) by lia; specialize (Hlt H')
      |assert (H' : (2 * r < m2)%Z) by lia; specialize (Hlt H')
      |assert (H' : (m2 < 2 * r)%Z) by lia; specialize (Hgt H')]; lra.
Qed.

(** ** Division *)

Lemma SFdiv_err X Y :
  SFfinite X = true -> SFfinite Y = true -> SF2R Y <> 0 ->
  Rabs (SF2R X / SF2R Y) < bpow 1023 ->
  SFfinite (SFdiv prec emax X Y) = true /\
  Rabs (SF2R (SFdiv prec emax X Y) - SF2R X / SF2R Y)
    <= u64 * Rabs (SF2R X / SF2R Y) + eta64.
Proof.
  destruct X as [sx|sx| |sx mx ex], Y as [sy|sy| |sy my ey];
    intros HfX HfY HY0 Hlt; try discriminate; try (by cbn [SF2R] in HY0).
  { cbn [SFdiv]. split; [done|]. cbn [SF2R].
    replace (0 / _) with 0 by (unfold Rdiv; ring).
    rewrite Rminus_diag, Rabs_R0, Rmult_0_r. unfold eta64.
    pose proof (bpow_gt0 (-1075)). lra. }
  cbn [SFdiv]. unfold SFdiv_core_binary.
  change (IntDef.Z.min) with Z.min. change IntDef.Z.shiftl with Z.shiftl.
  change IntDef.Z.div_eucl with Z.div_eucl.
  set (d1 := Zdigits2 (Z.pos mx)). set (d2 := Zdigits2 (Z.pos my)).
  set (e' := Z.min (fexp prec emax (d1 + ex - (d2 + ey))) (ex - ey)).
  set (s := (ex - ey - e')%Z).
  assert (Hs : (0 <= s)%Z) by (unfold s, e'; lia).
  set (m' := match s with
             | 0%Z => Z.pos mx
             | Z.pos _ => Z.shiftl (Z.pos mx) s
             | Z.neg _ => 0%Z
             end).
  assert (Hm' : m' = (Z.pos mx * 2 ^ s)%Z).
  { unfold m'. destruct s as [|p|p] eqn:Hsp; [lia| |lia].
    by rewrite Z.shiftl_mul_pow2. }
  clearbody m'.
  pose proof (Z_div_mod m' (Z.pos my) ltac:(lia)) as Hdm.
  destruct (Z.div_eucl m' (Z.pos my)) as [q r]. destruct Hdm as [Hqr Hr].
  assert (H2s : (0 < 2 ^ s)%Z) by (apply Z.pow_pos_nonneg; lia).
  assert (Hq0 : (0 <= q)%Z) by nia.
  pose proof (IZR_pos_gt0 mx) as Hmx. pose proof (IZR_pos_gt0 my) as Hmy.
  pose proof (bpow_gt0 ex). pose proof (bpow_gt0 ey). pose proof (bpow_gt0 e').
  assert (Hx : (IZR q + IZR r / IZR (Z.pos my)) * bpow e'
               = IZR (Z.pos mx) * bpow ex / (IZR (Z.pos my) * bpow ey)).
  { replace (IZR q + IZR r / IZR (Z.pos my)) with (IZR m' / IZR (Z.pos my))
      by (rewrite Hqr, plus_IZR, mult_IZR; field; lra).
    rewrite Hm', mult_IZR, <- bpow_IZR by done.
    assert (Hex : bpow ex = bpow s * bpow e' * bpow ey).
    { rewrite <- !bpow_add. f_equal. unfold s. lia. }
    rewrite Hex. field. lra. }
  assert (Hval : SF2R (S754_finite sx mx ex) / SF2R (S754_finite sy my ey)
                 = sgn (xorb sx sy) * ((IZR q + IZR r / IZR (Z.pos my)) * bpow e')).
  { rewrite Hx, !SF2R_finite, sgn_xorb. unfold sgn. destruct sx, sy; field; lra. }
  assert (Hpos : 0 <= (IZR q + IZR r / IZR (Z.pos my)) * bpow e').
  { rewrite Hx. apply Rlt_le. apply Rdiv_lt_0_compat; apply Rmult_lt_0_compat; lra. }
  rewrite Hval in *. rewrite Rabs_sgn in *.
  rewrite (Rabs_pos_eq _ Hpos) in Hlt. rewrite (Rabs_pos_eq _ Hpos).
  apply (binary_round_aux_err _ _ _ _ (IZR q + IZR r / IZR (Z.pos my)));
    [done|by apply new_location_located| |done].
  rewrite fexp64.
  destruct (Z_le_gt_dec e' (-1074)) as [|He']; [lia|].
  assert (HF : (e' <= d1 + ex - (d2 + ey) - 53)%Z).
  { unfold e' in He' |- *. rewrite fexp64 in *. lia. }
  destruct (Zdigits2_bounds (Z.pos mx)) as [[Hlo1 _] Hd1]; [lia|].
  destruct (Zdigits2_bounds (Z.pos my)) as [[_ Hhi2] Hd2]; [lia|].
  fold d1 in Hlo1, Hd1. fold d2 in Hhi2, Hd2.
  assert (Hq52 : (52 < Zdigits2 q)%Z).
  { apply Zdigits2_gt; [lia|].
    assert (Hq : q = (m' / Z.pos my)%Z) by (apply Z.div_unique with r; lia).
    rewrite Hq. apply Z.div_le_lower_bound; [lia|].
    apply Z.le_trans with (2 ^ d2 * 2 ^ 52)%Z; [apply Z.mul_le_mono_nonneg_r; lia|].
    rewrite <- Z.pow_add_r by lia. rewrite Hm'.
    apply Z.le_trans with (2 ^ (d1 - 1) * 2 ^ s)%Z;
      [|apply Z.mul_le_mono_nonneg_r; lia].
    rewrite <- Z.pow_add_r by lia. apply Z.pow_le_mono_r; [lia|].
    unfold s. lia. }
  lia.
Qed.

End Binary64Div.

Section Float64.
Local Open Scope R_scope.

Lemma Prim2SF_one : Prim2SF 1 = S754_finite false 4503599627370496 (-52).
Proof. reflexivity. Qed.

Lemma Prim2SF_minus_one : Prim2SF (-1) = S754_finite true 4503599627370496 (-52).
Proof. reflexivity. Qed.

Lemma Prim2SF_zero : Prim2SF 0 = S754_zero false.
Proof. reflexivity. Qed.

Lemma finite64_zero : finite64 0 /\ B2R 0 = 0.
Proof. unfold finite64, B2R. rewrite Prim2SF_zero. done. Qed.

Lemma finite64_one : finite64 1 /\ B2R 1 = 1.
Proof.
  unfold finite64, B2R. rewrite Prim2SF_one. split; [done|].
  rewrite SF2R_finite. change (Z.pos 4503599627370496) with (2 ^ 52)%Z.
  rewrite <- bpow_IZR, <- bpow_add by lia. change (52 + -52)%Z with 0%Z.
  unfold sgn. rewrite bpow_0. lra.
Qed.

Lemma B2R_lt_max x : Rabs (B2R x) < bpow 1024.
Proof. apply SF2R_lt_max, FloatAxioms.Prim2SF_valid. Qed.

Lemma mul_err x y :
  finite64 x -> finite64 y -> Rabs (B2R x * B2R y) < bpow 1023 ->
  finite64 (x * y) /\
  Rabs (B2R (x * y) - B2R x * B2R y) <= u64 * Rabs (B2R x * B2R y) + eta64.
Proof.
  unfold finite64, B2R. rewrite FloatAxioms.mul_spec.
  apply SFmul_err; apply FloatAxioms.Prim2SF_valid.
Qed.

Lemma add_err x y :
  finite64 x -> finite64 y -> Rabs (B2R x + B2R y) < bpow 1023 ->
  finite64 (x + y) /\
  Rabs (B2R (x + y) - (B2R x + B2R y)) <= u64 * Rabs (B2R x + B2R y) + eta64.
Proof. unfold finite64, B2R. rewrite FloatAxioms.add_spec. apply SFadd_err. Qed.

Lemma div_err x y :
  finite64 x -> finite64 y -> B2R y <> 0 -> Rabs (B2R x / B2R y) < bpow 1023 ->
  finite64 (x / y) /\
  Rabs (B2R (x / y) - B2R x / B2R y) <= u64 * Rabs (B2R x / B2R y) + eta64.
Proof. unfold finite64, B2R. rewrite FloatAxioms.div_spec. apply SFdiv_err. Qed.

Lemma mul_one_l x : finite64 x -> finite64 (1 * x) /\ B2R (1 * x) = B2R x.
Proof.
  unfold finite64, B2R. rewrite FloatAxioms.mul_spec, Prim2SF_one.
  unfold FloatAxioms.SF64mul. intros Hx.
  destruct (SFmul_unit_l (Prim2SF x) false (FloatAxioms.Prim2SF_valid x) Hx) as [Hf Hv].
  split; [done|]. rewrite Hv. unfold sgn. lra.
Qed.

Lemma mul_one_r x : finite64 x -> finite64 (x * 1) /\ B2R (x * 1) = B2R x.
Proof.
  unfold finite64, B2R. rewrite FloatAxioms.mul_spec, Prim2SF_one.
  unfold FloatAxioms.SF64mul. intros Hx.
  destruct (SFmul_unit_r (Prim2SF x) false (FloatAxioms.Prim2SF_valid x) Hx) as [Hf Hv].
  split; [done|]. rewrite Hv. unfold sgn. lra.
Qed.

Lemma mul_minus_one_l x : finite64 x -> finite64 (-1 * x) /\ B2R (-1 * x) = - B2R x.
Proof.
  unfold finite64, B2R. rewrite FloatAxioms.mul_spec, Prim2SF_minus_one.
  unfold FloatAxioms.SF64mul. intros Hx.
  destruct (SFmul_unit_l (Prim2SF x) true (FloatAxioms.Prim2SF_valid x) Hx) as [Hf Hv].
  split; [done|]. rewrite Hv. unfold sgn. lra.
Qed.

Lemma mul_zero_l z x :
  finite64 z -> B2R z = 0 -> finite64 x -> finite64 (z * x) /\ B2R (z * x) = 0.
Proof.
  unfold finite64, B2R. rewrite FloatAxioms.mul_spec. intros Hz H0 Hx.
  by apply SFmul_zero_l.
Qed.

Lemma mul_zero_r z x :
  finite64 z -> B2R z = 0 -> finite64 x -> finite64 (x * z) /\ B2R (x * z) = 0.
Proof.
  unfold finite64, B2R. rewrite FloatAxioms.mul_spec. intros Hz H0 Hx.
  by apply SFmul_zero_r.
Qed.

Lemma add_zero_l z x :
  finite64 z -> B2R z = 0 -> finite64 x -> finite64 (z + x) /\ B2R (z + x) = B2R x.
Proof.
  unfold finite64, B2R. rewrite FloatAxioms.add_spec. intros Hz H0 Hx.
  by apply SFadd_zero_l.
Qed.

Lemma add_zero_r z x :
  finite64 z -> B2R z = 0 -> finite64 x -> finite64 (x + z) /\ B2R (x + z) = B2R x.
Proof.
  unfold finite64, B2R. rewrite FloatAxioms.add_spec. intros Hz H0 Hx.
  by apply SFadd_zero_r.
Qed.

Lemma near_weaken c r t t' : t <= t' -> near c r t -> near c r t'.
Proof. intros Ht [Hf He]. split; [done|lra]. Qed.

(** The magnitude of a number given by its mantissa and exponent. *)
Lemma B2R_abs_le x s m e k :
  Prim2SF x = S754_finite s m e -> (e <= k)%Z -> (Z.pos m <= 2 ^ (k - e))%Z ->
  Rabs (B2R x) <= bpow k.
Proof.
  intros Hx He Hm. unfold B2R. rewrite Hx, SF2R_finite, Rabs_sgn.
  pose proof (IZR_pos_gt0 m). pose proof (bpow_gt0 e).
  rewrite Rabs_pos_eq by (apply Rmult_le_pos; lra).
  apply IZR_le in Hm. rewrite <- bpow_IZR in Hm by lia.
  replace (bpow k) with (bpow (k - e) * bpow e)
    by (rewrite <- bpow_add; f_equal; lia).
  apply Rmult_le_compat_r; lra.
Qed.

End Float64.

Section InvertDiag64.
Local Open Scope R_scope.

Lemma normal64_spec x :
  normal64 x = true -> finite64 x /\ bpow (-1022) <= Rabs (B2R x).
Proof.
  unfold normal64, finite64, B2R. rewrite FloatAxioms.classify_spec.
  unfold FloatAxioms.SF64classify, SFclassify.
  pose proof (FloatAxioms.Prim2SF_valid x) as Hv.
  destruct (Prim2SF x) as [[]|[]| |s m e]; try discriminate.
  intros Hn. split; [done|].
  assert (Hd : Z.pos (digits2_pos m) = 53%Z).
  { destruct s; destruct (Z.eqb_spec (Z.pos (digits2_pos m)) prec); done. }
  apply valid_finite in Hv as [Hc He].
  rewrite SF2R_finite, Rabs_sgn.
  pose proof (IZR_pos_gt0 m). pose proof (bpow_gt0 e).
  rewrite Rabs_pos_eq by (apply Rmult_le_pos; lra).
  destruct (digits2_pos_bounds m) as [Hlo _]. rewrite Hd in Hlo.
  apply IZR_le in Hlo. rewrite <- bpow_IZR in Hlo by lia.
  apply Rle_trans with (bpow (53 - 1) * bpow e).
  - rewrite <- bpow_add. apply bpow_le. lia.
  - apply Rmult_le_compat_r; lra.
Qed.

Lemma u64_eta64 : 0 < eta64 <= u64 /\ bpow (-51) = 4 * u64 /\ bpow (-50) = 8 * u64.
Proof.
  unfold eta64, u64. split; [split; [apply bpow_gt0|apply bpow_le; lia]|].
  split.
  - replace (-51)%Z with (-53 + 1 + 1)%Z by lia. rewrite !bpow_succ. lra.
  - replace (-50)%Z with (-53 + 1 + 1 + 1)%Z by lia. rewrite !bpow_succ. lra.
Qed.

(** One diagonal entry: [1.0 / x * x] for a normal [x]. *)
Lemma inv_mul_near_one x :
  normal64 x = true -> near (1 / x * x) 1 (7 * u64 + eta64).
Proof.
  intros Hn. apply normal64_spec in Hn as [Hfx Hlo].
  destruct finite64_one as [Hf1 H1].
  pose proof (B2R_lt_max x) as Hhi.
  destruct u64_eta64 as ([Heta0 Heta] & H51 & H50).
  pose proof (bpow_gt0 (-1022)) as Hmin.
  set (X := B2R x) in *. set (a := Rabs X) in *.
  assert (Ha : 0 < a) by lra.
  assert (HX0 : X <> 0).
  { intros HX. unfold a in Ha. rewrite HX, Rabs_R0 in Ha. lra. }
  assert (Hq : Rabs (B2R 1 / X) = / a).
  { rewrite H1. unfold Rdiv. rewrite Rmult_1_l. by apply Rabs_inv. }
  assert (Hinva : / a <= bpow 1022).
  { rewrite <- (Rinv_inv (bpow 1022)), <- bpow_opp.
    apply Rinv_le_contravar; [done|]. exact Hlo. }
  destruct (div_err 1 x Hf1 Hfx HX0) as [Hfi Hei].
  { fold X. rewrite Hq. apply Rle_lt_trans with (1 := Hinva). apply bpow_lt. lia. }
  fold X in Hei. rewrite Hq in Hei. rewrite H1 in Hei.
  set (I := B2R (1 / x)) in *.
  (* I * X is within u + eta * a of 1 *)
  assert (HIX : Rabs (I * X - 1) <= u64 + eta64 * a).
  { replace (I * X - 1) with ((I - 1 / X) * X) by (field; done).
    rewrite Rabs_mult. fold a.
    apply Rle_trans with ((u64 * / a + eta64) * a).
    - apply Rmult_le_compat_r; lra.
    - apply Req_le. field. lra. }
  assert (Hetaa : eta64 * a <= 4 * u64).
  { rewrite <- H51. replace (-51)%Z with (-1075 + 1024)%Z by lia.
    rewrite bpow_add. fold eta64. apply Rmult_le_compat_l; lra. }
  assert (Hu : u64 <= / 8).
  { unfold u64. apply Rle_trans with (bpow (-3)); [apply bpow_le; lia|].
    replace (-3)%Z with (-1 + -1 + -1)%Z by lia.
    rewrite !bpow_add, bpow_m1. lra. }
  assert (Hu0 : 0 < u64) by apply bpow_gt0.
  assert (HIXabs : Rabs (I * X) <= 2).
  { replace (I * X) with ((I * X - 1) + 1) by ring.
    apply Rle_trans with (1 := Rabs_triang _ _). rewrite Rabs_R1. lra. }
  destruct (mul_err (1 / x) x Hfi Hfx) as [Hfp Hep].
  { fold I X. apply Rle_lt_trans with (1 := HIXabs).
    rewrite <- bpow_1. apply bpow_lt. lia. }
  fold I X in Hep. split; [done|].
  replace (B2R (1 / x * x) - 1) with ((B2R (1 / x * x) - I * X) + (I * X - 1)) by ring.
  apply Rle_trans with (1 := Rabs_triang _ _).
  assert (u64 * Rabs (I * X) <= u64 * 2) by (apply Rmult_le_compat_l; lra).
  lra.
Qed.

End InvertDiag64.

Section Rotate64.
Local Open Scope R_scope.

Lemma Rabs_le_inv x y : Rabs x <= y -> - y <= x <= y.
Proof. intros H. unfold Rabs in H. destruct (Rcase_abs x); lra. Qed.

Lemma u64_val : u64 = / 9007199254740992.
Proof.
  unfold u64. replace (-53)%Z with (Z.opp 53) by lia.
  rewrite bpow_opp, bpow_IZR by lia.
  by change (2 ^ 53)%Z with 9007199254740992%Z.
Qed.

Lemma Rabs_mul_le1 c x : Rabs c <= 1 -> Rabs (c * x) <= Rabs x.
Proof.
  intros Hc. rewrite Rabs_mult. pose proof (Rabs_pos x). pose proof (Rabs_pos c).
  replace (Rabs x) with (1 * Rabs x) at 2 by ring.
  by apply Rmult_le_compat_r.
Qed.

(** One entry of the third column of a product, [p*a + q*b + t], each
    operation rounded on its own. *)
Lemma lin3_err P A Q B T N Tb :
  finite64 P -> finite64 A -> finite64 Q -> finite64 B -> finite64 T ->
  Rabs (B2R P * B2R A) + Rabs (B2R Q * B2R B) <= N ->
  Rabs (B2R T) <= Tb -> N <= bpow 1010 -> Tb <= bpow 1010 ->
  near (P * A + Q * B + T)%float (B2R P * B2R A + B2R Q * B2R B + B2R T)
       (4 * u64 * N + u64 * Tb + 5 * eta64).
Proof.
  intros HP HA HQ HB HT HN HTb HN' HTb'.
  destruct u64_eta64 as ([Heta0 Heta] & _ & _).
  assert (H1023 : bpow 1023 = 8192 * bpow 1010).
  { replace 1023%Z with (13 + 1010)%Z by lia. rewrite bpow_add, (bpow_IZR 13) by lia.
    by change (2 ^ 13)%Z with 8192%Z. }
  assert (H1010 : 1 <= bpow 1010).
  { rewrite <- bpow_0. apply bpow_le. lia. }
  rewrite u64_val in *.
  set (pa := B2R P * B2R A) in *. set (qb := B2R Q * B2R B) in *.
  set (t := B2R T) in *.
  pose proof (Rabs_pos pa) as Hwa0. pose proof (Rabs_pos qb) as Hwb0.
  pose proof (Rabs_pos t) as Hwt0.
  pose proof (Rabs_le_inv pa _ (Rle_refl _)) as Hpa.
  pose proof (Rabs_le_inv qb _ (Rle_refl _)) as Hqb.
  pose proof (Rabs_le_inv t _ (Rle_refl _)) as Ht.
  set (wa := Rabs pa) in *. set (wb := Rabs qb) in *. set (wt := Rabs t) in *.
  destruct (mul_err P A HP HA) as [Hf1 He1]; [fold pa wa; lra|].
  destruct (mul_err Q B HQ HB) as [Hf2 He2]; [fold qb wb; lra|].
  fold pa wa in He1. fold qb wb in He2. rewrite u64_val in He1, He2.
  apply Rabs_le_inv in He1, He2.
  set (m1 := B2R (P * A)) in *. set (m2 := B2R (Q * B)) in *.
  assert (Hws : Rabs (m1 + m2) <= N + / 9007199254740992 * N + 2 * eta64).
  { apply Rabs_le. lra. }
  destruct (add_err _ _ Hf1 Hf2) as [Hf3 He3]; [fold m1 m2; lra|].
  fold m1 m2 in He3. rewrite u64_val in He3.
  pose proof (Rabs_pos (m1 + m2)) as Hws0.
  pose proof (Rabs_le_inv (m1 + m2) _ (Rle_refl _)) as Hm12.
  set (ws := Rabs (m1 + m2)) in *. apply Rabs_le_inv in He3.
  set (s := B2R (P * A + Q * B)) in *.
  assert (Hwr : Rabs (s + t) <= 2 * N + Tb + 4 * eta64).
  { apply Rabs_le. lra. }
  destruct (add_err _ _ Hf3 HT) as [Hf4 He4]; [fold s t; lra|].
  fold s t in He4. rewrite u64_val in He4.
  pose proof (Rabs_pos (s + t)) as Hwr0.
  pose proof (Rabs_le_inv (s + t) _ (Rle_refl _)) as Hst.
  assert (Hwr' : Rabs (s + t)
                 <= N + 2 * / 9007199254740992 * N
                    + / 9007199254740992 * / 9007199254740992 * N
                    + (3 + 2 * / 9007199254740992) * eta64 + Tb).
  { apply Rabs_le. lra. }
  set (wr := Rabs (s + t)) in *. apply Rabs_le_inv in He4.
  split; [done|]. apply Rabs_le. lra.
Qed.

End Rotate64.

Section RotateAbout64.
Local Open Scope R_scope.

Lemma exact64_zero : exact64 0 0.
Proof. exact finite64_zero. Qed.

(** The rows and columns of [MyAff3_MatMult] that meet a [1] and a [0]:
    nothing is rounded. *)
Lemma row_10 p q r : exact64 p r -> finite64 q -> exact64 (1 * p + 0 * q) r.
Proof.
  intros [Hp <-] Hq. destruct finite64_zero as [Hfz Hz].
  destruct (mul_one_l p Hp) as [H1 <-].
  destruct (mul_zero_l 0 q Hfz Hz Hq) as [H2 H2v].
  exact (add_zero_r _ _ H2 H2v H1).
Qed.

Lemma row_01 p q r : finite64 p -> exact64 q r -> exact64 (0 * p + 1 * q) r.
Proof.
  intros Hp [Hq <-]. destruct finite64_zero as [Hfz Hz].
  destruct (mul_one_l q Hq) as [H1 <-].
  destruct (mul_zero_l 0 p Hfz Hz Hp) as [H2 H2v].
  exact (add_zero_l _ _ H2 H2v H1).
Qed.

Lemma col_10 p q r : exact64 p r -> finite64 q -> exact64 (p * 1 + q * 0) r.
Proof.
  intros [Hp <-] Hq. destruct finite64_zero as [Hfz Hz].
  destruct (mul_one_r p Hp) as [H1 <-].
  destruct (mul_zero_r 0 q Hfz Hz Hq) as [H2 H2v].
  exact (add_zero_r _ _ H2 H2v H1).
Qed.

Lemma col_01 p q r : finite64 p -> exact64 q r -> exact64 (p * 0 + q * 1) r.
Proof.
  intros Hp [Hq <-]. destruct finite64_zero as [Hfz Hz].
  destruct (mul_one_r q Hq) as [H1 <-].
  destruct (mul_zero_r 0 p Hfz Hz Hp) as [H2 H2v].
  exact (add_zero_l _ _ H2 H2v H1).
Qed.

Lemma exact64_add_zero_l z x r : exact64 z 0 -> exact64 x r -> exact64 (z + x) r.
Proof. intros [Hz Hzv] [Hx <-]. exact (add_zero_l _ _ Hz Hzv Hx). Qed.

Lemma exact64_add_zero_r z x r : exact64 z 0 -> exact64 x r -> exact64 (x + z) r.
Proof. intros [Hz Hzv] [Hx <-]. exact (add_zero_r _ _ Hz Hzv Hx). Qed.

Lemma exact64_neg x r : exact64 x r -> exact64 (-1 * x) (- r).
Proof. intros [Hx <-]. exact (mul_minus_one_l x Hx). Qed.

(** The transform [MatRotateAbout], entry by entry, for a cosine [c] and a
    sine [s] of magnitude at most 1 and a pivot below [2^1000] in both
    coordinates: the image of the pivot. *)
Lemma rotate_about_coord (p q pm qm x y t : float) (P Q X Y T : R) :
  exact64 p P -> exact64 q Q -> exact64 pm P -> exact64 qm Q ->
  exact64 x X -> exact64 y Y -> exact64 t T ->
  Rabs P <= 1 -> Rabs Q <= 1 -> Rabs X <= bpow 1000 -> Rabs Y <= bpow 1000 ->
  Rabs T <= Rabs X + Rabs Y ->
  near (pm * x + qm * y + (p * (-1 * x) + q * (-1 * y) + t))%float T
       (bpow (-49) * (Rabs X + Rabs Y) + bpow (-1071)).
Proof.
  intros [Hp HP] [Hq HQ] [Hpm HPm] [Hqm HQm] [Hx HX] [Hy HY] [Ht HT]
         HP1 HQ1 HX1 HY1 HT1.
  destruct (mul_minus_one_l x Hx) as [Hnx Hnxv].
  destruct (mul_minus_one_l y Hy) as [Hny Hnyv].
  set (N := Rabs X + Rabs Y) in *.
  pose proof (Rabs_pos X) as HX0. pose proof (Rabs_pos Y) as HY0.
  destruct u64_eta64 as ([Heta0 Heta] & _ & _).
  assert (H49 : bpow (-49) = 16 * u64).
  { unfold u64. replace (-49)%Z with (-53 + 1 + 1 + 1 + 1)%Z by lia.
    rewrite !bpow_succ. lra. }
  assert (H1071 : bpow (-1071) = 16 * eta64).
  { unfold eta64. replace (-1071)%Z with (-1075 + 1 + 1 + 1 + 1)%Z by lia.
    rewrite !bpow_succ. lra. }
  assert (H1010 : bpow 1010 = 1024 * bpow 1000).
  { replace 1010%Z with (10 + 1000)%Z by lia. rewrite bpow_add, (bpow_IZR 10) by lia.
    by change (2 ^ 10)%Z with 1024%Z. }
  assert (H1000 : 1 <= bpow 1000).
  { rewrite <- bpow_0. apply bpow_le. lia. }
  assert (Hu1 : u64 <= 1) by (rewrite u64_val; lra).
  (* the translation entry of the transform *)
  assert (HN1 : Rabs (B2R p * B2R (-1 * x)) + Rabs (B2R q * B2R (-1 * y)) <= N).
  { rewrite HP, HQ, Hnxv, Hnyv, HX, HY.
    pose proof (Rabs_mul_le1 P (- X) HP1). pose proof (Rabs_mul_le1 Q (- Y) HQ1).
    rewrite Rabs_Ropp in *. unfold N. lra. }
  destruct (lin3_err p (-1 * x) q (-1 * y) t N N Hp Hnx Hq Hny Ht HN1) as [Hf1 He1];
    [rewrite HT; done|unfold N; lra|unfold N; lra|].
  rewrite HP, HQ, Hnxv, Hnyv, HX, HY, HT in He1.
  set (m := (p * (-1 * x) + q * (-1 * y) + t)%float) in *.
  apply Rabs_le_inv in He1.
  (* the image *)
  assert (HN2 : Rabs (B2R pm * B2R x) + Rabs (B2R qm * B2R y) <= N).
  { rewrite HPm, HQm, HX, HY.
    pose proof (Rabs_mul_le1 P X HP1). pose proof (Rabs_mul_le1 Q Y HQ1).
    unfold N. lra. }
  rewrite HP, HQ, Hnxv, Hnyv, HX, HY in HN1.
  pose proof (Rabs_le_inv _ _ (Rle_refl (Rabs (P * - X)))) as Ha.
  pose proof (Rabs_le_inv _ _ (Rle_refl (Rabs (Q * - Y)))) as Hb.
  pose proof (Rabs_le_inv _ _ HT1) as HT1'. fold N in HT1'.
  assert (Hm : Rabs (B2R m) <= 3 * N + 5 * eta64).
  { apply Rabs_le. rewrite u64_val in *. lra. }
  destruct (lin3_err pm x qm y m N (3 * N + 5 * eta64) Hpm Hx Hqm Hy Hf1 HN2 Hm)
    as [Hf2 He2]; [unfold N; lra|unfold N; lra|].
  rewrite HPm, HQm, HX, HY in He2. apply Rabs_le_inv in He2.
  split; [done|]. apply Rabs_le. rewrite H49, H1071.
  rewrite u64_val in *. lra.
Qed.

End RotateAbout64.


(** ** Moves and 4-adjacency *)

(** From a pixel inside the bounds, the allowed moves are the steps to the
    4-neighbours that are inside the bounds, [Max] corner included. *)
Lemma move_adjacent_inside bounds p q :
  inside bounds p -> (move bounds p q <-> adjacent4 p q /\ inside bounds q).
Proof.
  unfold inside, move, adjacent4. intros Hp. destruct q as [x y]. cbn [X Y]. split.
  - intros [[[= -> ->] ?]|[[[= -> ->] ?]|[[[= -> ->] ?]|[[= -> ->] ?]]]]; lia.
  - intros [[[-> ->]|[[-> ->]|[[-> ->]|[-> ->]]]] Hq].
    + left. split; [done|lia].
    + right. left. split; [done|lia].
    + right. right. left. split; [done|lia].
    + right. right. right. split; [done|lia].
Qed.

(** ** Sequences of accepted pixels *)

Lemma grow_all_grown ps ll (S : Point -> Prop) :
  bounding_rect S (Bounds ll) -> 0 < X (Max (Bounds ll)) ->
  bounding_rect (fun a => S a \/ a ∈ ps) (Bounds (grow_all ll ps)) /\
  0 < X (Max (Bounds (grow_all ll ps))).
Proof.
  revert ll S. induction ps as [|p ps IH]; intros ll S Hb Hpos.
  - split; [|done]. eapply bounding_rect_ext; [|exact Hb].
    intros a. cbn beta. rewrite elem_of_nil. tauto.
  - unfold grow_all. cbn [fold_left]. fold (grow_all (Grow ll p) ps).
    rewrite Grow_grown by lia.
    destruct (IH (setBounds ll (GrowRectangle (Bounds ll) p)) (fun a => a = p \/ S a))
      as [Hb' Hpos'].
    + by apply GrowRectangle_bounding.
    + cbn [Bounds setBounds]. pose proof (GrowRectangle_Max_X (Bounds ll) p). lia.
    + split; [|done]. eapply bounding_rect_ext; [|exact Hb'].
      intros a. cbn beta. rewrite elem_of_cons. tauto.
Qed.

Lemma grow_all_Min_le_Max ps ll :
  X (Min (Bounds ll)) <= X (Max (Bounds ll)) ->
  Y (Min (Bounds ll)) <= Y (Max (Bounds ll)) ->
  X (Min (Bounds (grow_all ll ps))) <= X (Max (Bounds (grow_all ll ps))) /\
  Y (Min (Bounds (grow_all ll ps))) <= Y (Max (Bounds (grow_all ll ps))).
Proof.
  revert ll. induction ps as [|p ps IH]; intros ll HX HY; [done|].
  unfold grow_all. cbn [fold_left]. fold (grow_all (Grow ll p) ps).
  apply IH; unfold Grow; destruct (_ =? _); cbn [Bounds setBounds Min Max]; try lia;
    destruct (Bounds ll) as [[a b] [c d]]; unfold GrowRectangle; cbn [Min Max X Y] in *;
    destruct (Z.ltb_spec (X p) a), (Z.gtb_spec (X p) c); cbn [Min Max X Y];
    destruct (Z.ltb_spec (Y p) b), (Z.gtb_spec (Y p) d); cbn [Min Max X Y]; lia.
Qed.

(** When the first accepted pixel is right of column 0, [Bounds] is the
    bounding rectangle of the accepted pixels, whatever comes after it. *)
Lemma grow_all_bounding p ps ll :
  X (Max (Bounds ll)) = 0 -> 0 < X p ->
  bounding_rect (fun a => a ∈ p :: ps) (Bounds (grow_all ll (p :: ps))).
Proof.
  intros Hfresh Hp. unfold grow_all. cbn [fold_left]. fold (grow_all (Grow ll p) ps).
  rewrite Grow_fresh by done.
  destruct (grow_all_grown ps (setBounds ll (mkRect p p)) (fun a => a = p)) as [Hb _].
  - apply bounding_rect_single.
  - done.
  - eapply bounding_rect_ext; [|exact Hb]. intros a. cbn beta. rewrite elem_of_cons. tauto.
Qed.

(* ===================================================================== *)
(** * The claims *)

(** ** Centroid (C3, C4, C10) *)

(** C3.  The centroid step sums the coordinates of, and counts, exactly the
    pixels of the scan whose red channel is strictly between 0x0300 and
    0xfff0, each once.  With at least one such pixel (and fewer than 2^63 of
    them, so that the count is an [int]) the centroid is
    [(sumX / n, sumY / n)], the sums being those of Go's [int] and the
    division truncating; on an image of modest coordinates the sums are the
    mathematical ones.  With none, the limb is returned as it was, so a
    fresh limb keeps the origin as its centroid. *)
Theorem computeLuminalCenter_centroid (img : Image) (ll : LunarLimb) :
  let qs := qualifying img in
  let cnt := Z.of_nat (length qs) in
  (forall p, p ∈ qs <->
     inside (ImgBounds img) p /\ 0x0300 < cR (At img (X p) (Y p)) < 0xfff0) /\
  NoDup qs /\
  scan img = mkSums (int_wrap (sumZ (X <$> qs))) (int_wrap (sumZ (Y <$> qs))) (int_wrap cnt) /\
  (qs <> [] -> cnt < 2 ^ 63 ->
     LuminalCenter (computeLuminalCenter img ll) =
       mkPoint (int_quot (int_wrap (sumZ (X <$> qs))) cnt)
               (int_quot (int_wrap (sumZ (Y <$> qs))) cnt)) /\
  (qs <> [] -> modest (ImgBounds img) ->
     LuminalCenter (computeLuminalCenter img ll) =
       mkPoint (Z.quot (sumZ (X <$> qs)) cnt) (Z.quot (sumZ (Y <$> qs)) cnt)) /\
  (qs = [] ->
     computeLuminalCenter img ll = ll /\
     LuminalCenter (computeLuminalCenter img zeroLimb) = mkPoint 0 0).
Proof.
  intros qs cnt. split; [apply qualifying_spec|]. split; [apply NoDup_qualifying|].
  split; [apply scan_sums|]. split; [|split].
  - intros Hne Hcnt.
    assert (Hn : n (scan img) = cnt).
    { rewrite scan_sums. cbn [n]. apply int_wrap_small. lia. }
    destruct (computeLuminalCenter_some img ll) as [-> _].
    + rewrite Hn. unfold cnt. destruct qs; [done|]. cbn [length]. lia.
    + rewrite Hn, scan_sums. done.
  - intros Hne Hb. by apply centroid_modest.
  - intros Hnil.
    assert (Hn : n (scan img) = 0).
    { rewrite scan_sums. fold qs. by rewrite Hnil. }
    by rewrite !computeLuminalCenter_none.
Qed.

(** On [img_disk] the sixteen pixels of the ring qualify and their truncated
    mean is (2,2); on [img_black3] no pixel qualifies. *)
Lemma computeLuminalCenter_centroid_witness :
  LuminalCenter (computeLuminalCenter img_disk zeroLimb) = mkPoint 2 2 /\
  computeLuminalCenter img_black3 zeroLimb = zeroLimb.
Proof.
  split.
  - destruct (computeLuminalCenter_centroid img_disk zeroLimb) as (_ & _ & _ & H & _).
    rewrite H; [vm_compute; reflexivity|vm_compute; discriminate|vm_compute; reflexivity].
  - apply (computeLuminalCenter_centroid img_black3 zeroLimb).
    vm_compute. reflexivity.
Defined.



(** C4 (the code departs from the claim).  On the 20 x 1 image of uniform
    grey 0x2000 the centroid is (9, 0), each of the ten sampled pixels has
    gray value 8191, their average is 8191, and [Brightness] is 1637: the
    [uint16] sum has wrapped. *)
Theorem Brightness_sum_wraps :
  let ll := computeLuminalCenter img_grey20 zeroLimb in
  n (scan img_grey20) = 20 /\
  LuminalCenter ll = mkPoint 9 0 /\
  window img_grey20 (LuminalCenter ll) =
    [8191; 8191; 8191; 8191; 8191; 8191; 8191; 8191; 8191; 8191] /\
  sumZ (window img_grey20 (LuminalCenter ll)) / 10 = 8191 /\
  Brightness ll = 1637 /\
  Brightness ll = u16 (10 * 8191) / 10.
Proof. vm_compute. repeat split. Qed.

(** ** Threshold and outcome (C5, C6) *)

(** A loop that runs to its end has gone through its passes one by one. *)
Lemma fill_loop_passes img thresh bounds (P : FillState -> Prop) :
  (forall st st', P st -> fill_step img thresh bounds st = Ok (Some st') -> P st') ->
  forall fuel st0 ll, P st0 ->
  fill_loop img thresh bounds fuel st0 = Some (Ok ll) ->
  exists k st, fill_passes img thresh bounds k st0 = Some st /\
               P st /\ toVisit st = [] /\ limb st = ll.
Proof.
  intros Hpres. induction fuel as [|fuel IH]; intros st0 ll HP Hloop; [done|].
  cbn [fill_loop] in Hloop.
  destruct (fill_step img thresh bounds st0) as [[st1|]|] eqn:Hstep; [| |done].
  - destruct (IH st1 ll) as (k & st & Hk & HPst & Hempty & Hll); [eauto|done|].
    exists (S k), st. cbn [fill_passes]. rewrite Hstep. done.
  - inversion Hloop; subst. exists O, st0. cbn [fill_passes].
    split; [done|]. split; [done|]. split; [|done]. by eapply fill_step_None.
Qed.

Lemma fill_runs_with_thresh si :
  fill_runs_with si (fill_thresh (seed_limb si)).
Proof.
  unfold fill_runs_with. cbv zeta. split; [done|]. split.
  - intros st p rest Htv Hg Hs. split.
    + intros Hgt. apply fill_step_reject; [done..|]. unfold dark. lia.
    + intros Hle Hmv. by apply fill_step_accept.
  - intros ll Hloop.
    destruct (fill_loop_passes (OrigImage si) (fill_thresh (seed_limb si))
                (ImgBounds (OrigImage si))
                (fill_inv (OrigImage si) (fill_thresh (seed_limb si))
                          (ImgBounds (OrigImage si)) (LuminalCenter (seed_limb si)))
                (fill_inv_step _ _ _ _) _ _ ll (fill_inv_init _ _ _ _ _) Hloop)
      as (k & st & Hk & HI & Hempty & Hll).
    exists k, st. repeat split; try done.
    + intros Hacc. by apply (fill_inv_final _ _ _ _ st HI Hempty).
    + by apply (fill_inv_final _ _ _ _ st HI Hempty).
    + by apply (fill_inv_final _ _ _ _ st HI Hempty).
Qed.

(** C5.  The fill of [FindLunarLimb] runs with threshold 0x1000 when the
    brightness sample is at least 0x0015 and with 0x0040 when it is below:
    with that threshold the gray value of every pixel taken from the queue
    is compared, and the pixels of the limb are those that the seed reaches
    through pixels of a gray value not above it. *)
Theorem fill_threshold_policy (si : StackedImage) :
  (0x0015 <= Brightness (seed_limb si) -> fill_runs_with si 0x1000) /\
  (Brightness (seed_limb si) < 0x0015 -> fill_runs_with si 0x0040).
Proof.
  pose proof (fill_runs_with_thresh si) as Hrun. unfold fill_thresh in Hrun.
  split; intros Hb.
  - destruct (Z.ltb_spec (Brightness (seed_limb si)) 0x0015); [lia|done].
  - destruct (Z.ltb_spec (Brightness (seed_limb si)) 0x0015); [done|lia].
Qed.

(** [img_dim] has sample 2047: its pixels, of gray value 2047, are accepted
    and the flood covers the image, where the threshold 0x0040 would leave
    no limb.  [img_faint] has sample 0: the fill stops at the columns of
    gray value 2047, which the threshold 0x1000 would let it cross. *)
Lemma fill_threshold_policy_witness :
  (FindLunarLimb (mkStackedImage img_dim) =
     Some (Returned (mkLunarLimb (mkPoint 9 0) 2047 (mkRect (mkPoint 0 0) (mkPoint 20 1)))) /\
   finish <$> floodfill img_dim 0x0040 (seed_limb (mkStackedImage img_dim)) = Some Fatal) /\
  (FindLunarLimb (mkStackedImage img_faint) =
     Some (Returned (mkLunarLimb (mkPoint 17 0) 0 (mkRect (mkPoint 2 0) (mkPoint 27 1)))) /\
   finish <$> floodfill img_faint 0x1000 (seed_limb (mkStackedImage img_faint)) =
     Some (Returned (mkLunarLimb (mkPoint 17 0) 0 (mkRect (mkPoint 0 0) (mkPoint 30 1))))).
Proof.
  split; split.
  - destruct (proj1 (fill_threshold_policy (mkStackedImage img_dim))) as (-> & _).
    + vm_compute. discriminate.
    + vm_compute. reflexivity.
  - vm_compute. reflexivity.
  - destruct (proj2 (fill_threshold_policy (mkStackedImage img_faint))) as (-> & _).
    + vm_compute. reflexivity.
    + vm_compute. reflexivity.
  - vm_compute. reflexivity.
Defined.

(** C6 (as stated).  On [img_left_edge] the process halts though no limb of
    radius zero results: after sixteen passes the limb has radius 1, and the
    next pass, which accepts (0,0), indexes [seen[-1][0]]. *)
Lemma FindLunarLimb_halts_by_panic :
  FindLunarLimb (mkStackedImage img_left_edge) = Some Panicked /\
  exists st,
    fill_passes img_left_edge (fill_thresh (seed_limb (mkStackedImage img_left_edge)))
                (ImgBounds img_left_edge) 16 (fill_start (mkStackedImage img_left_edge))
      = Some st /\
    Radius (limb st) = 1 /\
    fill_step img_left_edge (fill_thresh (seed_limb (mkStackedImage img_left_edge)))
              (ImgBounds img_left_edge) st = IndexPanic.
Proof.
  split; [vm_compute; reflexivity|].
  eexists. split; [vm_compute; reflexivity|].
  split; vm_compute; reflexivity.
Qed.

(** C6 (as amended).  [FindLunarLimb] always stops, in one of three ways.
    When the fill runs to its end, it ends in [log.Fatal] exactly when the
    limb that results has radius zero, and returns that limb when the radius
    is not zero.  The third way is the index out of range inside the fill,
    which halts the process whatever has been accepted. *)
Theorem FindLunarLimb_fatal_iff_radius_zero (si : StackedImage) :
  let fill := floodfill (OrigImage si) (fill_thresh (seed_limb si)) (seed_limb si) in
  (exists o, FindLunarLimb si = Some o) /\
  (forall ll, fill = Some (Ok ll) ->
     (FindLunarLimb si = Some Fatal <-> Radius ll = 0) /\
     (FindLunarLimb si = Some (Returned ll) <-> Radius ll <> 0) /\
     FindLunarLimb si <> Some Panicked) /\
  (FindLunarLimb si = Some Fatal <-> exists ll, fill = Some (Ok ll) /\ Radius ll = 0) /\
  (forall ll, FindLunarLimb si = Some (Returned ll) <->
              fill = Some (Ok ll) /\ Radius ll <> 0) /\
  (FindLunarLimb si = Some Panicked <-> fill = Some IndexPanic).
Proof.
  intros fill. split; [apply FindLunarLimb_terminates|].
  split; [|split; [|split; [|apply FindLunarLimb_Panicked]]];
    unfold FindLunarLimb; fold (seed_limb si); fold fill.
  - intros ll ->. cbn [fmap option_fmap option_map finish].
    destruct (Z.eqb_spec (Radius ll) 0) as [H0|H0].
    + split; [done|]. split; [split; [done|intros ?; done]|done].
    + split; [split; [done|intros ?; done]|]. split; [done|done].
  - destruct fill as [[ll|]|]; cbn [fmap option_fmap option_map finish].
    + destruct (Z.eqb_spec (Radius ll) 0) as [H0|H0].
      * split; [eauto|done].
      * split; [done|]. intros (ll' & [= ->] & ?). done.
    + split; [done|intros (? & ? & _); done].
    + split; [done|intros (? & ? & _); done].
  - intros ll'. destruct fill as [[ll|]|]; cbn [fmap option_fmap option_map finish].
    + destruct (Z.eqb_spec (Radius ll) 0) as [H0|H0].
      * split; [done|]. intros [[= ->] ?]. done.
      * split; [intros [= ->]; done|]. intros [[= ->] _]. done.
    + split; [done|]. intros [? _]. done.
    + split; [done|]. intros [? _]. done.
Qed.

(** [img_disk] yields a limb of radius 1, which is returned; the all-white
    image yields radius 0, which is fatal. *)
Lemma FindLunarLimb_fatal_iff_radius_zero_witness :
  FindLunarLimb (mkStackedImage img_disk) = Some (Returned limb_disk) /\
  FindLunarLimb (mkStackedImage img_white_neg) = Some Fatal.
Proof.
  split.
  - apply (FindLunarLimb_fatal_iff_radius_zero (mkStackedImage img_disk)).
    split; [vm_compute; reflexivity|vm_compute; discriminate].
  - apply (FindLunarLimb_fatal_iff_radius_zero (mkStackedImage img_white_neg)).
    exists zeroLimb. split; vm_compute; reflexivity.
Defined.

(** ** Transform algebra (C7, C8) *)

(** C7 (as stated, in binary64).  The components of [49, 1, 1] are not zero,
    and the diagonal inverse applied to it is not the all-ones vector: the
    first component is [1/49*49 + 0*1 + 0*1 = 0.99999999999999989].  The
    components of [1e-320, 1, 1] are not zero either, and the first
    component of the result is [+Inf], since [1/1e-320] overflows.  With an
    infinite component, as in [1, +Inf, 1], every component of the result is
    NaN ([0 * Inf]). *)
Lemma InvertDiag_Apply_binary64_inexact :
  (v0 vec49 =? 0)%float = false /\
  (v1 vec49 =? 0)%float = false /\
  (v2 vec49 =? 0)%float = false /\
  v0 (MyMat3_Apply (InvertDiag vec49) vec49) = 0.99999999999999989%float /\
  MyMat3_Apply (InvertDiag vec49) vec49 <> mkVec3 1%float 1%float 1%float /\
  (v0 vec_tiny =? 0)%float = false /\
  v0 (MyMat3_Apply (InvertDiag vec_tiny) vec_tiny) = infinity /\
  (v1 vec_inf =? 0)%float = false /\
  is_nan (v0 (MyMat3_Apply (InvertDiag vec_inf) vec_inf)) = true /\
  is_nan (v1 (MyMat3_Apply (InvertDiag vec_inf) vec_inf)) = true /\
  is_nan (v2 (MyMat3_Apply (InvertDiag vec_inf) vec_inf)) = true.
Proof.
  repeat split; try (vm_compute; reflexivity).
  intros H. apply (f_equal (fun v => (v0 v =? 1)%float)) in H.
  vm_compute in H. discriminate.
Qed.

Section InvertDiagApply.
Local Open Scope R_scope.

(** C7 (as amended).  For every vector of three normal binary64 numbers
    (finite, not zero, not subnormal), each component of the diagonal
    inverse applied to the vector is finite and within [2^-50] of [1]. *)
Theorem InvertDiag_Apply_near_ones (v : MyVec3 float) :
  normal64 (v0 v) = true -> normal64 (v1 v) = true -> normal64 (v2 v) = true ->
  let r := MyMat3_Apply (InvertDiag v) v in
  near (v0 r) 1 (bpow (-50)) /\ near (v1 r) 1 (bpow (-50)) /\
  near (v2 r) 1 (bpow (-50)).
Proof.
  intros H0 H1 H2. destruct v as [x0 x1 x2]. cbn [v0 v1 v2] in *.
  unfold MyMat3_Apply, InvertDiag.
  cbn [v0 v1 v2 m00 m01 m02 m10 m11 m12 m20 m21 m22 a_zero a_one a_add a_mul a_div
       float64_Arith].
  destruct (normal64_spec x0 H0) as [Hf0 _].
  destruct (normal64_spec x1 H1) as [Hf1 _].
  destruct (normal64_spec x2 H2) as [Hf2 _].
  destruct finite64_zero as [Hfz Hz].
  destruct (mul_zero_l 0 x0 Hfz Hz Hf0) as [Hfz0 Hz0].
  destruct (mul_zero_l 0 x1 Hfz Hz Hf1) as [Hfz1 Hz1].
  destruct (mul_zero_l 0 x2 Hfz Hz Hf2) as [Hfz2 Hz2].
  assert (Htol : 7 * u64 + eta64 <= bpow (-50)).
  { destruct u64_eta64 as ([? ?] & _ & ->). lra. }
  apply inv_mul_near_one, (near_weaken _ _ _ _ Htol) in H0 as [Hp0 He0].
  apply inv_mul_near_one, (near_weaken _ _ _ _ Htol) in H1 as [Hp1 He1].
  apply inv_mul_near_one, (near_weaken _ _ _ _ Htol) in H2 as [Hp2 He2].
  repeat split.
  - destruct (add_zero_r _ _ Hfz1 Hz1 Hp0) as [Ha _].
    by destruct (add_zero_r _ _ Hfz2 Hz2 Ha).
  - destruct (add_zero_r _ _ Hfz1 Hz1 Hp0) as [Ha Hva].
    destruct (add_zero_r _ _ Hfz2 Hz2 Ha) as [_ Hvb]. by rewrite Hvb, Hva.
  - destruct (add_zero_l _ _ Hfz0 Hz0 Hp1) as [Ha _].
    by destruct (add_zero_r _ _ Hfz2 Hz2 Ha).
  - destruct (add_zero_l _ _ Hfz0 Hz0 Hp1) as [Ha Hva].
    destruct (add_zero_r _ _ Hfz2 Hz2 Ha) as [_ Hvb]. by rewrite Hvb, Hva.
  - destruct (add_zero_l _ _ Hfz0 Hz0 Hfz1) as [Ha Hva].
    rewrite Hz1 in Hva. by destruct (add_zero_l _ _ Ha Hva Hp2).
  - destruct (add_zero_l _ _ Hfz0 Hz0 Hfz1) as [Ha Hva].
    rewrite Hz1 in Hva. destruct (add_zero_l _ _ Ha Hva Hp2) as [_ Hvb].
    by rewrite Hvb.
Qed.

End InvertDiagApply.

(** The vector [49, 1, 1] of the counterexample: its three components are
    normal numbers, and the three components of the result, the first of
    which is [0.99999999999999989], are finite and within [2^-50] of [1]. *)
Lemma InvertDiag_Apply_near_ones_witness :
  let r := MyMat3_Apply (InvertDiag vec49) vec49 in
  near (v0 r) 1%R (bpow (-50)) /\ near (v1 r) 1%R (bpow (-50)) /\
  near (v2 r) 1%R (bpow (-50)).
Proof. apply (InvertDiag_Apply_near_ones vec49); reflexivity. Defined.

(** C8 (as stated, in binary64).  Take [0.7071067811865476] for the cosine
    and the sine of 45 degrees.  The image of the pivot
    [(1.5e308, -1.5e308)] has NaN for its first coordinate: the translation
    entry [c*(-x) + (-s)*(-y) + x] of the transform overflows to [-Inf] and
    [c*x + (-s)*y] to [+Inf].  The image of the pivot [(1, 1e20)] is
    [(0, 1e20)]: the first coordinate, 1, is lost against the second, so
    the tolerance cannot be relative to each coordinate on its own. *)
Lemma MatRotateAbout_pivot_lost :
  is_nan (fst (image_of (MatRotateAbout (H0 := Trig45) 45 1.5e308 (-1.5e308))
                        1.5e308 (-1.5e308)))%float = true /\
  (image_of (MatRotateAbout (H0 := Trig45) 45 1 1e20) 1 1e20 = (0, 1e20))%float.
Proof. split; vm_compute; reflexivity. Qed.

Section RotateAboutPivot.
Local Open Scope R_scope.

(** C8 (as amended).  Let the cosine and the sine that [MatRotate] obtains
    for the angle be finite and of magnitude at most 1, and let the pivot be
    finite with both coordinates of magnitude at most [2^1000].  Then the
    image of the pivot under [MatRotateAbout thetaDeg x y] is finite, and
    each of its coordinates is within [2^-49 * (|x| + |y|) + 2^-1071] of
    the pivot's. *)
Theorem MatRotateAbout_pivot_near (Cos Sin : float -> float) (thetaDeg x y : float) :
  finite64 (Cos (thetaDeg * math_Pi / 180)%float) ->
  Rabs (B2R (Cos (thetaDeg * math_Pi / 180)%float)) <= 1 ->
  finite64 (Sin (thetaDeg * math_Pi / 180)%float) ->
  Rabs (B2R (Sin (thetaDeg * math_Pi / 180)%float)) <= 1 ->
  finite64 x -> Rabs (B2R x) <= bpow 1000 ->
  finite64 y -> Rabs (B2R y) <= bpow 1000 ->
  let p := image_of (MatRotateAbout (H0 := float64_Trig_with Cos Sin) thetaDeg x y) x y in
  let tol := bpow (-49) * (Rabs (B2R x) + Rabs (B2R y)) + bpow (-1071) in
  near (fst p) (B2R x) tol /\ near (snd p) (B2R y) tol.
Proof.
  intros Hc Hc1 Hs Hs1 Hx Hx1 Hy Hy1.
  unfold image_of.
  cbv [MatRotateAbout MatRotate MatTranslate MatIdentity MyAff3_MatMult
       f00 f01 f02 f10 f11 f12 a_zero a_one a_add a_mul a_div float64_Arith
       t_minus_one t_180 t_Pi t_Cos t_Sin float64_Trig_with fst snd].
  set (c := Cos (thetaDeg * math_Pi / 180)%float) in *.
  set (s := Sin (thetaDeg * math_Pi / 180)%float) in *.
  change (1 * 1 + 0 * 0)%float with 1%float.
  change (1 * 0 + 0 * 1)%float with 0%float.
  change (0 * 1 + 1 * 0)%float with 0%float.
  change (0 * 0 + 1 * 1)%float with 1%float.
  change (1 * 0 + 0 * 0)%float with 0%float.
  change (0 * 0 + 1 * 0)%float with 0%float.
  assert (Ec : exact64 c (B2R c)) by done.
  assert (Es : exact64 s (B2R s)) by done.
  assert (Ex : exact64 x (B2R x)) by done.
  assert (Ey : exact64 y (B2R y)) by done.
  pose proof (exact64_neg s _ Es) as Ens.
  assert (Hs1' : Rabs (- B2R s) <= 1) by by rewrite Rabs_Ropp.
  pose proof (Rabs_pos (B2R x)). pose proof (Rabs_pos (B2R y)).
  (* the rotation after the first translation *)
  pose proof (row_10 c s _ Ec Hs) as R00.
  pose proof (row_10 (-1 * s) c _ Ens Hc) as R01.
  pose proof (row_01 c s _ Hc Es) as R10.
  pose proof (row_01 (-1 * s) c _ (proj1 Ens) Ec) as R11.
  pose proof (exact64_add_zero_l 0 _ _ exact64_zero
                (exact64_add_zero_r 0 _ _ exact64_zero (row_10 x y _ Ex Hy))) as R02.
  pose proof (exact64_add_zero_l 0 _ _ exact64_zero
                (exact64_add_zero_r 0 _ _ exact64_zero (row_01 x y _ Hx Ey))) as R12.
  (* the linear part after the second translation *)
  pose proof (col_10 _ _ _ R00 (proj1 R01)) as M00.
  pose proof (col_01 _ _ _ (proj1 R00) R01) as M01.
  pose proof (col_10 _ _ _ R10 (proj1 R11)) as M10.
  pose proof (col_01 _ _ _ (proj1 R10) R11) as M11.
  split.
  - apply (rotate_about_coord _ _ _ _ x y _ _ _ _ _ _ R00 R01 M00 M01 Ex Ey R02);
      try done. lra.
  - apply (rotate_about_coord _ _ _ _ x y _ _ _ _ _ _ R10 R11 M10 M11 Ex Ey R12);
      try done. lra.
Qed.

End RotateAboutPivot.

(** The pivot [(1, 1e20)] of the counterexample, at 45 degrees: its image
    [(0, 1e20)] is within [2^-49 * (1 + 1e20) + 2^-1071], about 177636, of
    the pivot in both coordinates. *)
Lemma MatRotateAbout_pivot_near_witness :
  let p := (image_of (MatRotateAbout (H0 := Trig45) 45 1 1e20) 1 1e20)%float in
  let tol := (bpow (-49) * (Rabs (B2R 1) + Rabs (B2R 1e20)) + bpow (-1071))%R in
  near (fst p) (B2R 1) tol /\ near (snd p) (B2R 1e20) tol.
Proof.
  apply (MatRotateAbout_pivot_near (fun _ => c45) (fun _ => c45) 45 1 1e20)%float;
    try reflexivity.
  - rewrite <- bpow_0.
    apply (B2R_abs_le _ false 6369051672525773 (-53)); [reflexivity|lia|].
    vm_compute. discriminate.
  - rewrite <- bpow_0.
    apply (B2R_abs_le _ false 6369051672525773 (-53)); [reflexivity|lia|].
    vm_compute. discriminate.
  - apply (B2R_abs_le _ false 4503599627370496 (-52)); [reflexivity|lia|].
    vm_compute. discriminate.
  - apply (B2R_abs_le _ false 6103515625000000 14); [reflexivity|lia|].
    vm_compute. discriminate.
Defined.

(** ** Bounds of the limb (C1, C2) *)

(** C2 (the code departs from the claim).  On the 2 x 3 image [img_column]
    the first three passes of the fill accept (0,0), reject (1,0) and accept
    (0,1); [Bounds] is then the single point (0,1) and no longer holds the
    accepted pixel (0,0).  [Grow] takes [Bounds.Max.X == 0] for "nothing
    accepted yet", which is also what one accepted pixel of column 0
    leaves. *)
Theorem Grow_forgets_column_zero :
  let img := img_column in
  let ll0 := seed_limb (mkStackedImage img) in
  let thresh := fill_thresh ll0 in
  (exists st,
     fill_passes img thresh (ImgBounds img) 3 (mkFill [LuminalCenter ll0] ∅ ll0) = Some st /\
     accepted img thresh st (mkPoint 0 0) /\
     accepted img thresh st (mkPoint 0 1) /\
     limb st = grow_all ll0 [mkPoint 0 0; mkPoint 0 1] /\
     Bounds (limb st) = mkRect (mkPoint 0 1) (mkPoint 0 1) /\
     ~ inside (Bounds (limb st)) (mkPoint 0 0)) /\
  Bounds (Grow (Grow zeroLimb (mkPoint 0 0)) (mkPoint 0 1))
    = mkRect (mkPoint 0 1) (mkPoint 0 1).
Proof.
  split; [|vm_compute; reflexivity].
  eexists. split; [vm_compute; reflexivity|].
  split; [split; [apply (bool_decide_unpack _); by vm_compute|vm_compute; discriminate]|].
  split; [split; [apply (bool_decide_unpack _); by vm_compute|vm_compute; discriminate]|].
  split; [vm_compute; reflexivity|]. split; [vm_compute; reflexivity|].
  unfold inside. cbn. lia.
Qed.

(** C1 (as stated).  Two images with a limb on which the fill does not end
    with its bounding rectangle: on [img_black_neg] the fill stops in an
    index panic at [seen[-1][0]]; on [img_column] it ends with [Min.X = 1]
    although the seed (0,0) belongs to the limb. *)
Lemma limb_bounds_counterexample :
  ~ limb_bounds_computed (mkStackedImage img_black_neg) /\
  ~ limb_bounds_computed (mkStackedImage img_column).
Proof.
  split.
  - intros (ll & Hf & _). cbv zeta in Hf.
    assert (Hp : floodfill img_black_neg
                   (fill_thresh (seed_limb (mkStackedImage img_black_neg)))
                   (seed_limb (mkStackedImage img_black_neg)) = Some IndexPanic)
      by (vm_compute; reflexivity).
    cbn [OrigImage] in Hf. rewrite Hp in Hf. discriminate.
  - intros (ll & Hf & Hin & _). cbv zeta in Hf.
    assert (Hc : floodfill img_column
                   (fill_thresh (seed_limb (mkStackedImage img_column)))
                   (seed_limb (mkStackedImage img_column))
                 = Some (Ok (mkLunarLimb (mkPoint 0 0) 0
                                         (mkRect (mkPoint 1 0) (mkPoint 2 3)))))
      by (vm_compute; reflexivity).
    assert (Hll : Bounds ll = mkRect (mkPoint 1 0) (mkPoint 2 3)).
    { cbn [OrigImage] in Hf. rewrite Hc in Hf. injection Hf as <-. reflexivity. }
    specialize (Hin (mkPoint 0 0)). rewrite Hll in Hin.
    unfold inside in Hin. cbn [Min Max X Y] in Hin.
    enough (1 <= 0 <= 2 /\ 0 <= 0 <= 3) by lia. apply Hin.
    apply (reach_seed img_column 64 (mkRect (mkPoint 0 0) (mkPoint 2 3)) (mkPoint 0 0)).
    vm_compute. discriminate.
Qed.

(** C1 (as amended).  When the fill of [FindLunarLimb] runs to its end (no
    index of the visited grid out of range) and the seed is not in column 0:
    if the seed does not exceed the threshold, [Bounds] is exactly the
    bounding rectangle of the pixels that do not exceed the threshold and
    that the seed reaches by moves to 4-neighbours inside the image bounds
    ([Max] included) through such pixels; if it does, no pixel is reached
    and [Bounds] is left as it was.  A pass that takes from the queue an
    unvisited pixel above the threshold marks it visited and changes nothing
    else: the limb is as before and the queue has only lost that pixel. *)
Theorem floodfill_bounds_limb (si : StackedImage) (ll : LunarLimb) :
  let img := OrigImage si in
  let ll0 := seed_limb si in
  let seed := LuminalCenter ll0 in
  let thresh := fill_thresh ll0 in
  floodfill img thresh ll0 = Some (Ok ll) ->
  X seed <> 0 ->
  (dark img thresh seed ->
     bounding_rect (reachable img thresh (ImgBounds img) seed) (Bounds ll)) /\
  (~ dark img thresh seed ->
     (forall p, ~ reachable img thresh (ImgBounds img) seed p) /\
     Bounds ll = Bounds zeroLimb) /\
  (forall st p rest,
     toVisit st = p :: rest -> in_gridP p -> p ∉ seen st -> ~ dark img thresh p ->
     fill_step img thresh (ImgBounds img) st
       = Ok (Some (mkFill rest ({[p]} ∪ seen st) (limb st)))).
Proof.
  intros img ll0 seed thresh Hfill Hseed.
  assert (Hfresh : X (Max (Bounds ll0)) = 0).
  { unfold ll0, seed_limb. by rewrite computeLuminalCenter_Bounds. }
  destruct (floodfill_bounds img thresh ll0 Hfresh Hseed ll Hfill) as (_ & _ & Hd & Hnd).
  split; [exact Hd|]. split.
  - intros Hdark. split.
    + intros p Hp. by apply Hdark, (reachable_dark_seed img thresh ll0 p).
    + rewrite (Hnd Hdark). unfold ll0, seed_limb. apply computeLuminalCenter_Bounds.
  - intros st p rest. apply fill_step_reject.
Qed.

(** On [img_disk] the fill runs to its end from the seed (2,2), and the
    bounding rectangle of the limb is (1,1)-(3,3). *)
Lemma floodfill_bounds_limb_witness :
  let si := mkStackedImage img_disk in
  let ll0 := seed_limb si in
  bounding_rect
    (reachable img_disk (fill_thresh ll0) (ImgBounds img_disk) (LuminalCenter ll0))
    (Bounds limb_disk).
Proof.
  intros si ll0.
  destruct (floodfill_bounds_limb si limb_disk) as [H _].
  - vm_compute. reflexivity.
  - vm_compute. discriminate.
  - apply H. vm_compute. discriminate.
Defined.

(** ** The visited grid (C9) *)

(** C9 (as stated).  [img_wide] is 10000 pixels wide: every pixel coordinate
    is below 10000, and the fill panics at [seen[10000][0]].  [img_white_neg]
    has pixels at negative coordinates, and the fill ends without a panic:
    its seed (0,0) is above the threshold and nothing else is visited. *)
Lemma grid_index_counterexample :
  ~ index_range_decided (mkStackedImage img_wide) /\
  ~ index_range_decided (mkStackedImage img_white_neg).
Proof.
  split.
  - intros [Hsafe _]. destruct Hsafe as (o & Ho & Hne).
    + unfold pixels_in_grid, grid_side. cbn. lia.
    + assert (Hw : FindLunarLimb (mkStackedImage img_wide) = Some Panicked)
        by (vm_compute; reflexivity).
      rewrite Hw in Ho. injection Ho as <-. exact (Hne eq_refl).
  - intros [_ Hpanic].
    assert (Hf : FindLunarLimb (mkStackedImage img_white_neg) = Some Fatal)
      by (vm_compute; reflexivity).
    rewrite Hpanic in Hf; [discriminate|].
    unfold leaves_grid, grid_side. cbn. lia.
Qed.

(** C9 (as amended).  The visited grid is indexed with the absolute
    coordinates, unchecked but by Go itself.  When both corners of the image
    bounds, [Max] included, are valid indices, [FindLunarLimb] ends without
    an index panic.  In general it ends in an index panic exactly when the
    seed is no valid index, or a pixel of the limb has an allowed move to a
    neighbour that is none. *)
Theorem grid_index_safety (si : StackedImage) :
  let img := OrigImage si in
  let b := ImgBounds img in
  let ll0 := seed_limb si in
  let seed := LuminalCenter ll0 in
  let thresh := fill_thresh ll0 in
  (within_grid b -> exists o, FindLunarLimb si = Some o /\ o <> Panicked) /\
  (FindLunarLimb si = Some Panicked <->
     ~ in_gridP seed \/
     exists p q, reachable img thresh b seed p /\ move b p q /\ ~ in_gridP q).
Proof.
  intros img b ll0 seed thresh. split.
  - intros Hb. destruct (FindLunarLimb_terminates si) as [o Ho].
    exists o. split; [done|]. intros ->.
    apply FindLunarLimb_Panicked in Ho. revert Ho.
    apply floodfill_safe; [done|]. by apply seed_in_grid.
  - rewrite FindLunarLimb_Panicked. apply floodfill_panic_iff.
Qed.

(** [img_disk] lies within the grid. *)
Lemma grid_index_safety_witness :
  exists o, FindLunarLimb (mkStackedImage img_disk) = Some o /\ o <> Panicked.
Proof.
  apply (grid_index_safety (mkStackedImage img_disk)).
  unfold within_grid, grid_side. cbn. lia.
Defined.

(* ===================================================================== *)
(** * Further properties of the code *)

(** ** Rectangles *)

Lemma GrowRectangle_well_formed r p :
  well_formed r -> GrowRectangle r p = hull r p /\ well_formed (hull r p).
Proof.
  destruct r as [[a b] [c d]]. unfold well_formed, GrowRectangle, hull.
  cbn [Min Max X Y]. intros [Hx Hy].
  destruct (Z.ltb_spec (X p) a), (Z.gtb_spec (X p) c); try lia; cbn [Min Max X Y];
  destruct (Z.ltb_spec (Y p) b), (Z.gtb_spec (Y p) d); try lia; cbn [Min Max X Y].
  all: split; [f_equal; f_equal; lia|lia].
Qed.

(** X1.  On a rectangle whose [Min] corner is not beyond its [Max] corner,
    [GrowRectangle] returns the smallest rectangle that holds the old one and
    the point: each [Min] coordinate becomes the minimum, each [Max]
    coordinate the maximum. *)
Theorem GrowRectangle_is_hull r p :
  well_formed r -> GrowRectangle r p = hull r p.
Proof. intros Hr. by apply GrowRectangle_well_formed. Qed.

Lemma GrowRectangle_is_hull_witness :
  GrowRectangle (mkRect (mkPoint 0 0) (mkPoint 2 2)) (mkPoint 5 (-1)) =
  hull (mkRect (mkPoint 0 0) (mkPoint 2 2)) (mkPoint 5 (-1)).
Proof. apply GrowRectangle_is_hull. unfold well_formed. cbn. lia. Defined.

(** X2.  [GrowRectangle] returns its rectangle unchanged exactly for the
    points that lie in it, both corners included; no condition on the
    rectangle. *)
Theorem GrowRectangle_fixed_iff r p :
  GrowRectangle r p = r <-> inside r p.
Proof.
  destruct r as [[a b] [c d]]. unfold GrowRectangle, inside. cbn [Min Max X Y].
  destruct (Z.ltb_spec (X p) a), (Z.gtb_spec (X p) c); cbn [Min Max X Y];
  destruct (Z.ltb_spec (Y p) b), (Z.gtb_spec (Y p) d); cbn [Min Max X Y].
  all: split; [intros [=]; lia|intros ?; first [done|lia]].
Qed.

Lemma GrowRectangle_comm r p q :
  well_formed r ->
  GrowRectangle (GrowRectangle r p) q = GrowRectangle (GrowRectangle r q) p.
Proof.
  intros Hr.
  destruct (GrowRectangle_well_formed r p Hr) as [-> Hp].
  destruct (GrowRectangle_well_formed r q Hr) as [-> Hq].
  rewrite (proj1 (GrowRectangle_well_formed _ q Hp)).
  rewrite (proj1 (GrowRectangle_well_formed _ p Hq)).
  unfold hull. cbn [Min Max X Y]. f_equal; f_equal; lia.
Qed.

(** X3.  Growing a well formed rectangle by a sequence of points gives the
    same rectangle in whatever order the points come. *)
Theorem GrowRectangle_order_irrelevant ps qs r :
  well_formed r -> ps ≡ₚ qs ->
  fold_left GrowRectangle ps r = fold_left GrowRectangle qs r.
Proof.
  intros Hr Hperm. revert r Hr.
  induction Hperm as [|x l l' _ IH|x y l|l l' l'' _ IH1 _ IH2]; intros r Hr.
  - done.
  - cbn [fold_left]. apply IH.
    destruct (GrowRectangle_well_formed r x Hr) as [-> ?]. done.
  - cbn [fold_left]. by rewrite GrowRectangle_comm.
  - by rewrite IH1, IH2.
Qed.

Lemma GrowRectangle_order_irrelevant_witness :
  fold_left GrowRectangle [mkPoint 5 1; mkPoint (-3) 7] (mkRect (mkPoint 0 0) (mkPoint 2 2)) =
  fold_left GrowRectangle [mkPoint (-3) 7; mkPoint 5 1] (mkRect (mkPoint 0 0) (mkPoint 2 2)).
Proof.
  apply GrowRectangle_order_irrelevant.
  - unfold well_formed. cbn. lia.
  - apply perm_swap.
Defined.

(** ** Growing the limb *)

Lemma touches_ext (S S' : Point -> Prop) r :
  (forall p, S p -> S' p) -> touches S r -> touches S' r.
Proof.
  intros HS ((a1 & ? & ?) & (a2 & ? & ?) & (a3 & ? & ?) & (a4 & ? & ?)).
  repeat split; [exists a1|exists a2|exists a3|exists a4]; auto.
Qed.

Lemma touches_single p : touches (fun a => a = p) (mkRect p p).
Proof. repeat split; by exists p. Qed.

Lemma hull_touches (S : Point -> Prop) r p :
  well_formed r -> touches S r ->
  touches (fun a => a = p \/ S a) (hull r p).
Proof.
  intros [Hx Hy] ((a1 & Ha1 & E1) & (a2 & Ha2 & E2) & (a3 & Ha3 & E3) & (a4 & Ha4 & E4)).
  unfold touches, hull. cbn [Min Max X Y]. repeat split.
  - destruct (Z.min_spec (X (Min r)) (X p)) as [[_ ->]|[_ ->]];
      [exists a1|exists p]; auto.
  - destruct (Z.max_spec (X (Max r)) (X p)) as [[_ ->]|[_ ->]];
      [exists p|exists a2]; auto.
  - destruct (Z.min_spec (Y (Min r)) (Y p)) as [[_ ->]|[_ ->]];
      [exists a3|exists p]; auto.
  - destruct (Z.max_spec (Y (Max r)) (Y p)) as [[_ ->]|[_ ->]];
      [exists p|exists a4]; auto.
Qed.

(** One call of [Grow], whichever branch it takes. *)
Lemma Grow_touches (S : Point -> Prop) ll p :
  X (Max (Bounds ll)) = 0 \/ (well_formed (Bounds ll) /\ touches S (Bounds ll)) ->
  well_formed (Bounds (Grow ll p)) /\
  touches (fun a => a = p \/ S a) (Bounds (Grow ll p)) /\
  inside (Bounds (Grow ll p)) p.
Proof.
  intros Hll. destruct (Z.eq_dec (X (Max (Bounds ll))) 0) as [H0|H0].
  - rewrite Grow_fresh by done. cbn [Bounds setBounds].
    split; [unfold well_formed; cbn [Min Max]; lia|]. split.
    + eapply touches_ext; [|apply touches_single]. intros a ->. by left.
    + unfold inside. cbn [Min Max]. lia.
  - destruct Hll as [?|[Hwf Ht]]; [done|].
    rewrite Grow_grown by done. cbn [Bounds setBounds].
    destruct (GrowRectangle_well_formed (Bounds ll) p Hwf) as [-> Hwf'].
    split; [done|]. split; [by apply hull_touches|].
    unfold inside, hull. cbn [Min Max X Y]. lia.
Qed.

Lemma grow_all_touches ps : forall (S : Point -> Prop) ll,
  ps <> [] ->
  X (Max (Bounds ll)) = 0 \/ (well_formed (Bounds ll) /\ touches S (Bounds ll)) ->
  let r := Bounds (grow_all ll ps) in
  well_formed r /\ touches (fun a => S a \/ a ∈ ps) r /\
  forall d, inside r (List.last ps d).
Proof.
  induction ps as [|p ps IH]; intros S ll Hne Hll; [done|].
  unfold grow_all. cbn [fold_left]. fold (grow_all (Grow ll p) ps).
  destruct (Grow_touches S ll p Hll) as (Hwf & Ht & Hin).
  destruct ps as [|q ps].
  - cbn [grow_all fold_left List.last]. split; [done|]. split; [|done].
    eapply touches_ext; [|exact Ht]. intros a [->|?]; [right; set_solver|by left].
  - destruct (IH (fun a => a = p \/ S a) (Grow ll p)) as (Hwf' & Ht' & Hin');
      [done|by right|].
    split; [done|]. split; [|exact Hin'].
    eapply touches_ext; [|exact Ht'].
    intros a [[->|?]|?]; [right; set_solver|by left|right; set_solver].
Qed.

(** X4.  Started on a limb whose [Bounds.Max.X] is 0, and grown by a
    sequence of at least one pixel, [Bounds] is a well formed rectangle, each
    of its four sides goes through a pixel of the sequence, and it holds the
    last pixel: it never reaches beyond the pixels, also when a pixel of
    column 0 makes it start again. *)
Theorem Grow_never_overshoots p ps ll :
  X (Max (Bounds ll)) = 0 ->
  let r := Bounds (grow_all ll (p :: ps)) in
  well_formed r /\ touches (fun a => a ∈ p :: ps) r /\ inside r (List.last ps p).
Proof.
  intros Hfresh r.
  destruct (grow_all_touches (p :: ps) (fun _ => False) ll) as (Hwf & Ht & Hin);
    [done|by left|].
  split; [done|]. split.
  - eapply touches_ext; [|exact Ht]. by intros a [[]|?].
  - specialize (Hin p). by destruct ps.
Qed.

Lemma Grow_never_overshoots_witness :
  let r := Bounds (grow_all zeroLimb [mkPoint 3 4; mkPoint 0 9; mkPoint 1 2]) in
  well_formed r /\
  touches (fun a => a ∈ [mkPoint 3 4; mkPoint 0 9; mkPoint 1 2]) r /\
  inside r (mkPoint 1 2).
Proof. apply (Grow_never_overshoots (mkPoint 3 4) [mkPoint 0 9; mkPoint 1 2]). reflexivity. Defined.

(** X5.  When [Bounds] is well formed, [Center] lies in it. *)
Theorem Center_inside_Bounds ll :
  well_formed (Bounds ll) -> inside (Bounds ll) (Center ll).
Proof.
  unfold well_formed, inside, Center. cbn [X Y]. intros [Hx Hy].
  split; apply quot_between; lia.
Qed.

Lemma Center_inside_Bounds_witness : inside (Bounds limb_disk) (Center limb_disk).
Proof. apply Center_inside_Bounds. unfold well_formed. cbn. lia. Defined.

(** ** The limb that the fill leaves *)

Section LimbInvariant.
Variables (img : Image) (thresh : Z) (bounds : Rectangle).
Variable ll0 : LunarLimb.
Hypothesis fresh_bounds : X (Max (Bounds ll0)) = 0.

Lemma limb_inv_init tv : limb_inv img thresh ll0 (mkFill tv ∅ ll0).
Proof. unfold limb_inv. cbn [limb]. auto. Qed.

Lemma limb_inv_step st st' :
  limb_inv img thresh ll0 st ->
  fill_step img thresh bounds st = Ok (Some st') ->
  limb_inv img thresh ll0 st'.
Proof.
  intros (HC & HBr & HB) Hstep.
  pass_cases Hstep st; unfold limb_inv, accepted in *;
    cbn [toVisit seen limb] in *; subst tv.
  - done.
  - split; [done|]. split; [done|].
    destruct HB as [Hb|[Hwf Ht]]; [by left|right]. split; [done|].
    eapply touches_ext; [|exact Ht]. cbn beta. intros a [? ?]. set_solver.
  - destruct (Grow_other ll p) as [-> ->]. split; [done|]. split; [done|]. right.
    destruct (Grow_touches (fun a => a ∈ sn /\ dark img thresh a) ll p)
      as (Hwf & Ht & _).
    { destruct HB as [->|?]; [by left|by right]. }
    split; [done|]. eapply touches_ext; [|exact Ht]. cbn beta.
    intros a [->|[? ?]]; set_solver.
Qed.
End LimbInvariant.

Lemma floodfill_limb img thresh ll0 ll :
  X (Max (Bounds ll0)) = 0 ->
  floodfill img thresh ll0 = Some (Ok ll) ->
  LuminalCenter ll = LuminalCenter ll0 /\ Brightness ll = Brightness ll0 /\
  (Bounds ll = Bounds ll0 \/
   (well_formed (Bounds ll) /\
    touches (reachable img thresh (ImgBounds img) (LuminalCenter ll0)) (Bounds ll))).
Proof.
  intros Hfresh Hr.
  assert (exists st, (fill_inv img thresh (ImgBounds img) (LuminalCenter ll0) st /\
                      limb_inv img thresh ll0 st)
                     /\ toVisit st = [] /\ limb st = ll)
    as (st & [HI (HC & HBr & HB)] & Hempty & <-).
  { apply (fill_loop_inv img thresh (ImgBounds img)
             (fun st => fill_inv img thresh (ImgBounds img) (LuminalCenter ll0) st /\
                        limb_inv img thresh ll0 st))
      with (r := Ok ll) (fuel := fill_fuel (ImgBounds img) (LuminalCenter ll0))
           (st := mkFill [LuminalCenter ll0] ∅ ll0).
    - intros st st' [HI HL] Hstep. split.
      + by eapply fill_inv_step.
      + by eapply limb_inv_step.
    - split; [apply fill_inv_init|apply limb_inv_init].
    - exact Hr. }
  split; [done|]. split; [done|].
  destruct HB as [?|[Hwf Ht]]; [by left|right]. split; [done|].
  eapply touches_ext; [|exact Ht]. apply (inv_sound _ _ _ _ _ HI).
Qed.

Lemma seed_limb_Bounds si : Bounds (seed_limb si) = mkRect zeroPoint zeroPoint.
Proof. unfold seed_limb. by rewrite computeLuminalCenter_Bounds. Qed.

Lemma FindLunarLimb_Returned si ll :
  FindLunarLimb si = Some (Returned ll) ->
  floodfill (OrigImage si) (fill_thresh (seed_limb si)) (seed_limb si) = Some (Ok ll) /\
  Radius ll <> 0.
Proof.
  unfold FindLunarLimb. fold (seed_limb si).
  destruct (floodfill _ _ _) as [[l|]|]; cbn [fmap option_fmap option_map finish]; [|done..].
  destruct (Z.eqb_spec (Radius l) 0); [done|]. by intros [= ->].
Qed.

(** X6.  A limb that [FindLunarLimb] returns has the [LuminalCenter] and the
    [Brightness] that [computeLuminalCenter] found, a well formed [Bounds]
    with [Dx + Dy] at least 4, and so a radius of at least 1. *)
Theorem FindLunarLimb_returned_limb si ll :
  FindLunarLimb si = Some (Returned ll) ->
  LuminalCenter ll = LuminalCenter (seed_limb si) /\
  Brightness ll = Brightness (seed_limb si) /\
  well_formed (Bounds ll) /\
  4 <= Dx (Bounds ll) + Dy (Bounds ll) /\
  1 <= Radius ll.
Proof.
  intros [Hfill Hrad]%FindLunarLimb_Returned.
  apply floodfill_limb in Hfill as (HC & HBr & HB);
    [|by rewrite seed_limb_Bounds].
  split; [done|]. split; [done|].
  assert (Hwf : well_formed (Bounds ll)).
  { destruct HB as [Hb|[? _]]; [|done].
    rewrite Hb, seed_limb_Bounds. unfold well_formed. cbn. lia. }
  assert (H4 : 4 <= Dx (Bounds ll) + Dy (Bounds ll)).
  { destruct (Z_lt_le_dec (Dx (Bounds ll) + Dy (Bounds ll)) 4) as [Hlt|]; [|done].
    destruct Hrad. unfold Radius. apply Z.quot_small.
    unfold well_formed, Dx, Dy in *. lia. }
  split; [done|]. split; [done|].
  unfold Radius. apply (quot_between _ 4 1 (Dx (Bounds ll) + Dy (Bounds ll))); lia.
Qed.

Lemma FindLunarLimb_returned_limb_witness :
  LuminalCenter limb_disk = LuminalCenter (seed_limb (mkStackedImage img_disk)) /\
  Brightness limb_disk = Brightness (seed_limb (mkStackedImage img_disk)) /\
  well_formed (Bounds limb_disk) /\
  4 <= Dx (Bounds limb_disk) + Dy (Bounds limb_disk) /\
  1 <= Radius limb_disk.
Proof.
  apply (FindLunarLimb_returned_limb (mkStackedImage img_disk)).
  vm_compute. reflexivity.
Defined.

(** X7.  The [Bounds] of a returned limb never reach beyond the limb: each of
    its four sides goes through a pixel that the seed reaches through pixels
    not above the threshold, so every rectangle that holds those pixels
    holds [Bounds]. *)
Theorem FindLunarLimb_bounds_tight si ll :
  FindLunarLimb si = Some (Returned ll) ->
  let img := OrigImage si in
  let limb_pixel :=
    reachable img (fill_thresh (seed_limb si)) (ImgBounds img)
              (LuminalCenter (seed_limb si)) in
  touches limb_pixel (Bounds ll) /\
  forall box, (forall p, limb_pixel p -> inside box p) -> covers box (Bounds ll).
Proof.
  intros [Hfill Hrad]%FindLunarLimb_Returned img limb_pixel.
  apply floodfill_limb in Hfill as (_ & _ & HB);
    [|by rewrite seed_limb_Bounds].
  assert (Ht : touches limb_pixel (Bounds ll)).
  { destruct HB as [Hb|[_ Ht]]; [|done].
    destruct Hrad. unfold Radius, Dx, Dy. rewrite Hb, seed_limb_Bounds. done. }
  split; [done|]. intros box Hbox.
  destruct Ht as ((a1 & Ha1 & E1) & (a2 & Ha2 & E2) & (a3 & Ha3 & E3) & (a4 & Ha4 & E4)).
  apply Hbox in Ha1, Ha2, Ha3, Ha4. unfold covers, inside in *. lia.
Qed.

Lemma FindLunarLimb_bounds_tight_witness :
  let img := img_disk in
  let limb_pixel :=
    reachable img (fill_thresh (seed_limb (mkStackedImage img_disk))) (ImgBounds img)
              (LuminalCenter (seed_limb (mkStackedImage img_disk))) in
  touches limb_pixel (Bounds limb_disk) /\
  forall box, (forall p, limb_pixel p -> inside box p) -> covers box (Bounds limb_disk).
Proof.
  apply (FindLunarLimb_bounds_tight (mkStackedImage img_disk)).
  vm_compute. reflexivity.
Defined.

(** ** The seed and its brightness *)

(** X8.  The brightness that [computeLuminalCenter] leaves in a fresh limb is
    at most 6553: the ten samples are added in a [uint16] and the sum is
    divided by ten. *)
Theorem Brightness_at_most_6553 img :
  0 <= Brightness (computeLuminalCenter img zeroLimb) <= 6553.
Proof.
  destruct (Z.eq_dec (n (scan img)) 0) as [Hn|Hn].
  - rewrite computeLuminalCenter_none by done. cbn. lia.
  - rewrite (proj2 (computeLuminalCenter_some img zeroLimb Hn)).
    match goal with |- context [u16 ?a] =>
      assert (0 <= u16 a < 65536) as Hu by (apply (Z.mod_pos_bound a (2 ^ 16)); lia);
      revert Hu; generalize (u16 a) end.
    intros u Hu. split.
    + apply Z.div_pos; lia.
    + assert (u / 10 < 6554) by (apply Z.div_lt_upper_bound; lia). lia.
Qed.

(** X9.  On an image of modest coordinates in which some pixel qualifies, the
    seed that [computeLuminalCenter] finds lies in the image bounds. *)
Theorem seed_inside_bounds img ll :
  modest (ImgBounds img) -> qualifying img <> [] ->
  inside (ImgBounds img) (LuminalCenter (computeLuminalCenter img ll)).
Proof.
  intros Hb Hne. destruct (centroid_modest img ll Hb Hne) as [-> Hin]. exact Hin.
Qed.

Lemma seed_inside_bounds_witness :
  inside (ImgBounds img_disk) (LuminalCenter (computeLuminalCenter img_disk zeroLimb)).
Proof.
  apply seed_inside_bounds.
  - unfold modest. cbn. lia.
  - vm_compute. discriminate.
Defined.

(** X10.  When the seed is a valid index of the visited grid and its gray
    value is above the threshold, the fill stops after the seed with
    [Bounds] untouched, and [FindLunarLimb] ends in [log.Fatal]. *)
Theorem bright_seed_is_fatal si :
  let ll0 := seed_limb si in
  in_gridP (LuminalCenter ll0) ->
  ~ dark (OrigImage si) (fill_thresh ll0) (LuminalCenter ll0) ->
  floodfill (OrigImage si) (fill_thresh ll0) ll0 = Some (Ok ll0) /\
  FindLunarLimb si = Some Fatal.
Proof.
  intros ll0 Hg Hd.
  assert (Hfill : floodfill (OrigImage si) (fill_thresh ll0) ll0 = Some (Ok ll0)).
  { unfold floodfill, fill_fuel. cbn [Nat.add fill_loop].
    rewrite (fill_step_reject _ _ _ _ (LuminalCenter ll0) []);
      [|done|done|cbn [seen]; set_solver|done].
    done. }
  split; [done|].
  unfold FindLunarLimb. fold (seed_limb si). fold ll0. rewrite Hfill.
  cbn [fmap option_fmap option_map finish].
  unfold Radius, Dx, Dy, ll0. rewrite seed_limb_Bounds. done.
Qed.

Lemma bright_seed_is_fatal_witness :
  FindLunarLimb (mkStackedImage img_white_neg) = Some Fatal.
Proof.
  apply (bright_seed_is_fatal (mkStackedImage img_white_neg)).
  - vm_compute. reflexivity.
  - intros Hd. vm_compute in Hd. apply Hd. reflexivity.
Defined.

(** ** Panics and the length of the fill *)

(** X11.  [FindLunarLimb] panics exactly when the seed is no valid index of
    the visited grid, or a pixel of the limb has a neighbour, on a side
    where the image bounds let the fill go on, that is none. *)
Theorem FindLunarLimb_panics_iff si :
  let img := OrigImage si in
  let ll0 := seed_limb si in
  FindLunarLimb si = Some Panicked <->
  ~ in_gridP (LuminalCenter ll0) \/
  exists p q, reachable img (fill_thresh ll0) (ImgBounds img) (LuminalCenter ll0) p /\
              move (ImgBounds img) p q /\ ~ in_gridP q.
Proof. intros img ll0. rewrite FindLunarLimb_Panicked. apply floodfill_panic_iff. Qed.

Lemma fill_passes_measure img thresh bounds box k : forall st st',
  covers box bounds -> box_inv box st ->
  fill_passes img thresh bounds k st = Some st' ->
  (fill_measure box st' + k <= fill_measure box st)%nat.
Proof.
  induction k as [|k IH]; intros st st' Hc HB Hk.
  - cbn in Hk. inversion Hk. lia.
  - cbn [fill_passes] in Hk.
    destruct (fill_step img thresh bounds st) as [[st1|]|] eqn:Hstep; [|done..].
    destruct (box_inv_step img thresh bounds box Hc _ _ HB Hstep) as [HB1 Hlt].
    specialize (IH st1 st' Hc HB1 Hk). lia.
Qed.

(** X12.  The loop of the fill goes through its body at most [4 * A + 1]
    times before the pass that stops it, where [A] is the number of cells of
    the smallest box that holds the seed and both corners of the image
    bounds. *)
Theorem fill_passes_bounded img thresh ll k st :
  fill_passes img thresh (ImgBounds img) k (mkFill [LuminalCenter ll] ∅ ll) = Some st ->
  (k <= 4 * box_area (fill_box (ImgBounds img) (LuminalCenter ll)) + 1)%nat.
Proof.
  intros Hk.
  destruct (fill_box_covers (ImgBounds img) (LuminalCenter ll)) as [Hc Hs].
  eapply fill_passes_measure in Hk; [|exact Hc|].
  - unfold fill_measure at 2 in Hk. cbn [toVisit seen length] in Hk.
    rewrite size_empty in Hk. lia.
  - split; cbn [toVisit seen]; [|set_solver].
    intros q ->%list_elem_of_singleton. done.
Qed.

Lemma fill_passes_bounded_witness :
  (1 <= 4 * box_area (fill_box (ImgBounds img_white_neg) (LuminalCenter zeroLimb)) + 1)%nat.
Proof.
  apply (fill_passes_bounded img_white_neg 0x40 zeroLimb 1
           (mkFill [] {[ zeroPoint ]} zeroLimb)).
  cbn [fill_passes].
  rewrite (fill_step_reject _ _ _ _ zeroPoint []).
  - cbn [seen limb]. by rewrite (right_id_L ∅ (∪)).
  - reflexivity.
  - vm_compute. reflexivity.
  - cbn [seen]. set_solver.
  - intros Hd. vm_compute in Hd. apply Hd. reflexivity.
Defined.

(** ** A flood over the whole image *)

Section Flood.
Variables (img : Image) (thresh : Z) (seed : Point).
Hypothesis all_dark : forall p, inside (ImgBounds img) p -> dark img thresh p.

Lemma reach_step p q :
  reachable img thresh (ImgBounds img) seed p ->
  inside (ImgBounds img) p -> adjacent4 p q -> inside (ImgBounds img) q ->
  reachable img thresh (ImgBounds img) seed q.
Proof.
  intros Hp Hin Hadj Hq. eapply reach_move; [exact Hp| |by apply all_dark].
  by apply move_adjacent_inside.
Qed.

Lemma reach_row k : forall p x,
  reachable img thresh (ImgBounds img) seed p -> inside (ImgBounds img) p ->
  Z.abs (x - X p) = Z.of_nat k -> inside (ImgBounds img) (mkPoint x (Y p)) ->
  reachable img thresh (ImgBounds img) seed (mkPoint x (Y p)).
Proof.
  induction k as [|k IH]; intros p x Hp Hin Hx Hq.
  - replace x with (X p) by lia. by rewrite mkPoint_eta.
  - destruct (Z_lt_le_dec x (X p)) as [Hlt|Hge].
    + apply (IH (mkPoint (X p - 1) (Y p)) x); cbn [X Y]; [|..|lia|done].
      * apply (reach_step p); [done|done|unfold adjacent4; cbn; lia|].
        unfold inside in *. cbn [X Y] in *. lia.
      * unfold inside in *. cbn [X Y] in *. lia.
    + apply (IH (mkPoint (X p + 1) (Y p)) x); cbn [X Y]; [|..|lia|done].
      * apply (reach_step p); [done|done|unfold adjacent4; cbn; lia|].
        unfold inside in *. cbn [X Y] in *. lia.
      * unfold inside in *. cbn [X Y] in *. lia.
Qed.

Lemma reach_column k : forall p y,
  reachable img thresh (ImgBounds img) seed p -> inside (ImgBounds img) p ->
  Z.abs (y - Y p) = Z.of_nat k -> inside (ImgBounds img) (mkPoint (X p) y) ->
  reachable img thresh (ImgBounds img) seed (mkPoint (X p) y).
Proof.
  induction k as [|k IH]; intros p y Hp Hin Hy Hq.
  - replace y with (Y p) by lia. by rewrite mkPoint_eta.
  - destruct (Z_lt_le_dec y (Y p)) as [Hlt|Hge].
    + apply (IH (mkPoint (X p) (Y p - 1)) y); cbn [X Y]; [|..|lia|done].
      * apply (reach_step p); [done|done|unfold adjacent4; cbn; lia|].
        unfold inside in *. cbn [X Y] in *. lia.
      * unfold inside in *. cbn [X Y] in *. lia.
    + apply (IH (mkPoint (X p) (Y p + 1)) y); cbn [X Y]; [|..|lia|done].
      * apply (reach_step p); [done|done|unfold adjacent4; cbn; lia|].
        unfold inside in *. cbn [X Y] in *. lia.
      * unfold inside in *. cbn [X Y] in *. lia.
Qed.

Lemma reach_everything p :
  inside (ImgBounds img) seed -> inside (ImgBounds img) p ->
  reachable img thresh (ImgBounds img) seed p.
Proof.
  intros Hs Hp.
  assert (Hmid : inside (ImgBounds img) (mkPoint (X p) (Y seed))).
  { unfold inside in *. cbn [X Y]. lia. }
  pose proof (reach_row (Z.abs_nat (X p - X seed)) seed (X p)
                (reach_seed _ _ _ _ (all_dark _ Hs)) Hs) as Hrow.
  rewrite Zabs2Nat.id_abs in Hrow. specialize (Hrow eq_refl Hmid).
  pose proof (reach_column (Z.abs_nat (Y p - Y seed)) (mkPoint (X p) (Y seed)) (Y p)
                Hrow Hmid) as Hcol.
  cbn [X Y] in Hcol. rewrite Zabs2Nat.id_abs in Hcol.
  rewrite mkPoint_eta in Hcol. by apply Hcol.
Qed.
End Flood.

(** X13.  When no pixel of the image bounds, [Max] row and column included,
    is above the threshold, the bounds are valid indices of the visited grid
    and the seed lies in them and off column 0, the fill returns with
    [Bounds] equal to the image bounds: the flood covers the whole image. *)
Theorem flood_covers_dark_image img thresh ll0 :
  X (Max (Bounds ll0)) = 0 -> X (LuminalCenter ll0) <> 0 ->
  within_grid (ImgBounds img) -> inside (ImgBounds img) (LuminalCenter ll0) ->
  (forall p, inside (ImgBounds img) p -> dark img thresh p) ->
  exists ll, floodfill img thresh ll0 = Some (Ok ll) /\ Bounds ll = ImgBounds img.
Proof.
  intros Hfresh Hoff Hgrid Hseed Hdark.
  assert (Hsg : in_gridP (LuminalCenter ll0)).
  { unfold in_gridP. apply in_grid_spec.
    unfold within_grid, inside in *. lia. }
  destruct (floodfill_terminates img thresh ll0) as [[ll|] Hr];
    [|by destruct (floodfill_safe img thresh ll0 Hgrid Hsg)].
  exists ll. split; [done|].
  destruct (floodfill_bounds img thresh ll0 Hfresh Hoff ll Hr) as (_ & _ & Hb & _).
  destruct (Hb (Hdark _ Hseed))
    as (Hall & (a1 & Ha1 & E1) & (a2 & Ha2 & E2) & (a3 & Ha3 & E3) & (a4 & Ha4 & E4)).
  assert (Hin : forall p, reachable img thresh (ImgBounds img) (LuminalCenter ll0) p ->
                          inside (ImgBounds img) p).
  { intros p. apply reachable_inside; [unfold covers; lia|done]. }
  apply Hin in Ha1, Ha2, Ha3, Ha4.
  assert (Hwf : well_formed (ImgBounds img)).
  { unfold well_formed, inside in *. lia. }
  assert (Hmin : inside (Bounds ll) (Min (ImgBounds img))).
  { apply Hall, reach_everything; [done..|]. unfold well_formed, inside in *. lia. }
  assert (Hmax : inside (Bounds ll) (Max (ImgBounds img))).
  { apply Hall, reach_everything; [done..|]. unfold well_formed, inside in *. lia. }
  destruct (Bounds ll) as [[a b] [c d]], (ImgBounds img) as [[a' b'] [c' d']].
  unfold inside in *. cbn [Min Max X Y] in *. f_equal; f_equal; lia.
Qed.

Lemma flood_covers_dark_image_witness :
  exists ll, floodfill img_black3 0x40 (setLuminalCenter zeroLimb (mkPoint 1 1)) = Some (Ok ll) /\
             Bounds ll = ImgBounds img_black3.
Proof.
  apply flood_covers_dark_image.
  - reflexivity.
  - cbn. lia.
  - unfold within_grid, grid_side. cbn. lia.
  - unfold inside. cbn. lia.
  - intros p _. unfold dark, img_black3, mk_image. cbn [At].
    destruct (_ && _); vm_compute; discriminate.
Defined.

(** ** Gray levels *)

Lemma all_from_spec P k : forall v x,
  all_from P k v = true -> v <= x < v + Z.of_nat k -> P x = true.
Proof.
  induction k as [|k IH]; intros v x Hall Hx; [lia|].
  cbn [all_from] in Hall. apply andb_true_iff in Hall as [Hv Hk].
  destruct (Z.eq_dec x v) as [->|Hne]; [done|].
  apply (IH (v + 1)); [done|lia].
Qed.

Lemma grey_levels_checked :
  all_from (fun v => ColToGrayU16 (grey v) =? 9999 * v / 10000) (Z.to_nat 65536) 0 = true.
Proof. vm_compute. reflexivity. Qed.

(** X14.  A neutral colour of 16-bit level [v] is given the gray value
    [9999 * v / 10000], rounded down: the three weights add up to 0.9999 and
    not to 1.  So white gets 65528, no gray value reaches 65535, and level
    0x1001 still gets 0x1000. *)
Theorem ColToGrayU16_grey v :
  0 <= v <= 0xffff -> ColToGrayU16 (grey v) = 9999 * v / 10000.
Proof.
  intros Hv. apply Z.eqb_eq.
  apply (all_from_spec (fun v => ColToGrayU16 (grey v) =? 9999 * v / 10000)
           (Z.to_nat 65536) 0).
  - apply grey_levels_checked.
  - lia.
Qed.

Lemma ColToGrayU16_grey_witness : ColToGrayU16 (grey 0x1001) = 9999 * 0x1001 / 10000.
Proof. apply ColToGrayU16_grey. lia. Defined.

(** ** Clamping *)

Lemma SFltb_irrefl (x : spec_float) : SFltb x x = false.
Proof.
  unfold SFltb, SFcompare. destruct x as [[]|[]| |[] m e]; try done.
  - rewrite Z.compare_refl, Pos.compare_cont_refl. done.
  - rewrite Z.compare_refl, Pos.compare_cont_refl. done.
Qed.

Lemma float64_ltb_irrefl (x : float) : PrimFloat.ltb x x = false.
Proof. rewrite FloatAxioms.ltb_spec. apply SFltb_irrefl. Qed.

Lemma clamp_components {T : Type} `{Compare T} (v : MyVec3 T) (lo hi : T) :
  components (CeilingAt (FloorAt v lo) hi) =
  (fun a => let a' := if c_lt a lo then lo else a in
            if c_lt hi a' then hi else a') <$> components v.
Proof.
  destruct v as [a0 a1 a2]. unfold components, CeilingAt, FloorAt.
  cbv beta zeta. simpl.
  destruct (c_lt a0 lo); simpl; destruct (c_lt a1 lo); simpl;
  destruct (c_lt a2 lo); simpl.
  all: repeat match goal with
       | E : c_lt ?x ?y = _ |- context [c_lt ?x ?y] => rewrite E; simpl
       | |- context [if c_lt ?x ?y then _ else _] =>
           is_var x; is_var y; destruct (c_lt x y) eqn:?; simpl
       end; reflexivity.
Qed.

(** X20.  In binary64, for every vector and every pair of limits of which
    the upper is not below the lower, [FloorAt(min)] followed by
    [CeilingAt(max)] leaves no component below [min] and none above [max].
    The same holds when a component or a limit is an infinity or NaN, the
    comparisons of a NaN being false. *)
Theorem clamp_within_limits (v : MyVec3 float) (lo hi : float) :
  PrimFloat.ltb hi lo = false ->
  forall c, c ∈ components (CeilingAt (FloorAt v lo) hi) ->
  PrimFloat.ltb c lo = false /\ PrimFloat.ltb hi c = false.
Proof.
  intros Hlim c Hc. rewrite clamp_components in Hc.
  apply list_elem_of_fmap in Hc as (a & -> & _).
  pose proof (float64_ltb_irrefl lo) as Hlo.
  pose proof (float64_ltb_irrefl hi) as Hhi.
  unfold c_lt, float64_Compare. cbv zeta.
  destruct (PrimFloat.ltb a lo) eqn:E.
  - rewrite Hlim. by split.
  - destruct (PrimFloat.ltb hi a) eqn:F; by split.
Qed.

Lemma clamp_within_limits_witness :
  let w := CeilingAt (FloorAt (mkVec3 (-3)%float 0.5%float nan) 0%float) 1%float in
  PrimFloat.ltb (v0 w) 0%float = false /\ PrimFloat.ltb 1%float (v0 w) = false.
Proof.
  intros w.
  apply (clamp_within_limits (mkVec3 (-3)%float 0.5%float nan) 0%float 1%float).
  - vm_compute. reflexivity.
  - unfold components. apply list_elem_of_here.
Defined.

(** ** The overlay *)

Lemma rem_range a b :
  0 < b -> (0 <= a -> 0 <= Z.rem a b < b) /\ (a < 0 -> - b < Z.rem a b <= 0).
Proof.
  intros Hb. split; intros Ha.
  - by apply Z.rem_bound_pos.
  - replace a with (- (- a)) by lia. rewrite Z.rem_opp_l by lia.
    pose proof (Z.rem_bound_pos (- a) b). lia.
Qed.

Lemma PickColor_returns d :
  0 <= currFrame d ->
  exists c, PickColor d = Done c /\
            plotColors !! Z.to_nat (Z.rem (currFrame d) 7) = Some c.
Proof.
  intros Hcf. unfold PickColor. change (Z.of_nat (length plotColors)) with 7.
  cbv zeta. destruct (rem_range (currFrame d) 7) as [Hr _]; [lia|].
  destruct (Z.ltb_spec (Z.rem (currFrame d) 7) 0); [lia|].
  destruct (lookup_lt_is_Some_2 plotColors (Z.to_nat (Z.rem (currFrame d) 7)))
    as [c Hc]; [simpl; lia|].
  rewrite Hc. by exists c.
Qed.

(** X22.  [PickColor] panics exactly when [currFrame] is negative and no
    multiple of 7, and then with an index out of range; from frame 0 on it
    returns one of the seven colours, the same every seven frames. *)
Theorem PickColor_cycle d :
  (forall e, PickColor d = Panics e <->
             e = IndexOutOfRange /\ currFrame d < 0 /\ Z.rem (currFrame d) 7 <> 0) /\
  (0 <= currFrame d ->
   exists c, PickColor d = Done c /\ c ∈ plotColors /\
     forall d', currFrame d' = currFrame d + 7 -> PickColor d' = Done c).
Proof.
  unfold PickColor. change (Z.of_nat (length plotColors)) with 7. cbv zeta.
  destruct (rem_range (currFrame d) 7) as [Hrpos Hrneg]; [lia|].
  assert (Hlk : forall i, 0 <= i < 7 -> exists c, plotColors !! Z.to_nat i = Some c).
  { intros i Hi. apply lookup_lt_is_Some. simpl. lia. }
  split.
  - intros e. destruct (Z.ltb_spec (Z.rem (currFrame d) 7) 0) as [Hneg|Hpos].
    + split; [intros [= <-]|intros (-> & _); done].
      split; [done|]. split; [|lia].
      destruct (Z_lt_le_dec (currFrame d) 0); [done|]. lia.
    + destruct (Hlk (Z.rem (currFrame d) 7)) as [c ->].
      { destruct (Z_lt_le_dec (currFrame d) 0); lia. }
      split; [done|]. intros (_ & Hlt & Hne). exfalso.
      destruct (Z_lt_le_dec (currFrame d) 0); lia.
  - intros Hcf.
    destruct (Z.ltb_spec (Z.rem (currFrame d) 7) 0) as [Hneg|Hpos]; [lia|].
    destruct (Hlk (Z.rem (currFrame d) 7)) as [c Hc]; [lia|].
    rewrite Hc. exists c. split; [done|].
    split; [by eapply list_elem_of_lookup_2|].
    intros d' Hd'. rewrite Hd'.
    assert (Hrem : Z.rem (currFrame d + 7) 7 = Z.rem (currFrame d) 7).
    { rewrite !Z.rem_mod_nonneg by lia.
      replace (currFrame d + 7) with (currFrame d + 1 * 7) by lia.
      apply Z.mod_add. lia. }
    rewrite Hrem.
    destruct (Z.ltb_spec (Z.rem (currFrame d) 7) 0); [lia|]. by rewrite Hc.
Qed.

Lemma PickColor_drawn d d' cs : drawn d d' cs -> PickColor d' = PickColor d.
Proof. intros (im & _ & ->). done. Qed.

Lemma drawn_nil d im : fillMap d = Some im -> drawn d d [].
Proof.
  intros Him. exists im. split; [done|]. rewrite app_nil_r.
  destruct d as [fm cf c mf], im as [r cs]. cbn in *. by subst.
Qed.

Lemma drawn_app d d1 d2 cs1 cs2 :
  drawn d d1 cs1 -> drawn d1 d2 cs2 -> drawn d d2 (cs1 ++ cs2).
Proof.
  intros (im & Him & ->) (im1 & [= <-] & ->). cbn.
  exists im. split; [done|]. by rewrite app_assoc.
Qed.

Lemma fillMap_Set_drawn d x y c im :
  fillMap d = Some im ->
  exists d', fillMap_Set d x y c = Done d' /\ drawn d d' [mkSetCall x y c].
Proof.
  intros Him. unfold fillMap_Set. rewrite Him. eexists. split; [done|].
  by exists im.
Qed.

Lemma drawn_fillMap d d' cs : drawn d d' cs -> exists im, fillMap d' = Some im.
Proof. intros (im & _ & ->). by eexists. Qed.

(** A loop whose body draws [f x] draws the calls of all its rounds. *)
Lemma for_incl_run_drawn (f : Z -> list SetCall)
    (body : Z -> DebugCompositeImage -> run DebugCompositeImage) lo hi d im :
  (forall x d im, fillMap d = Some im ->
     exists d', body x d = Done d' /\ drawn d d' (f x)) ->
  fillMap d = Some im ->
  exists d', for_incl_run lo hi body d = Done d' /\
             drawn d d' (seqZ lo (hi + 1 - lo) ≫= f).
Proof.
  intros Hbody. unfold for_incl_run. generalize (seqZ lo (hi + 1 - lo)).
  intros l. revert d im. induction l as [|x l IH]; intros d im Him.
  - exists d. split; [done|]. by eapply drawn_nil.
  - cbn [fold_left run_bind].
    destruct (Hbody x d im Him) as (d1 & -> & Hd1).
    destruct (drawn_fillMap _ _ _ Hd1) as [im1 Him1].
    destruct (IH d1 im1 Him1) as (d2 & -> & Hd2).
    exists d2. split; [done|]. rewrite bind_cons. by eapply drawn_app.
Qed.

Lemma PlotRectangle_calls d r im col :
  fillMap d = Some im -> PickColor d = Done col ->
  exists d', PlotRectangle d r = Done d' /\ drawn d d' (rect_calls col r).
Proof.
  intros Him Hcol. unfold PlotRectangle, rect_calls. rewrite Hcol. cbn [run_bind].
  destruct (for_incl_run_drawn
              (fun x => [mkSetCall x (Y (Min r)) col; mkSetCall x (Y (Max r)) col])
              (fun x d => d <~ fillMap_Set d x (Y (Min r)) col ;;
                          fillMap_Set d x (Y (Max r)) col)
              (X (Min r)) (X (Max r)) d im) as (d1 & -> & Hd1); [|done|].
  { intros x d0 im0 H0.
    destruct (fillMap_Set_drawn d0 x (Y (Min r)) col im0 H0) as (da & -> & Hda).
    cbn [run_bind]. destruct (drawn_fillMap _ _ _ Hda) as [ima Hima].
    destruct (fillMap_Set_drawn da x (Y (Max r)) col ima Hima) as (db & -> & Hdb).
    exists db. split; [done|]. by apply (drawn_app _ _ _ _ _ Hda Hdb). }
  cbn [run_bind]. destruct (drawn_fillMap _ _ _ Hd1) as [im1 Him1].
  destruct (for_incl_run_drawn
              (fun y => [mkSetCall (X (Min r)) y col; mkSetCall (X (Max r)) y col])
              (fun y d => d <~ fillMap_Set d (X (Min r)) y col ;;
                          fillMap_Set d (X (Max r)) y col)
              (Y (Min r)) (Y (Max r)) d1 im1) as (d2 & -> & Hd2); [|done|].
  { intros y d0 im0 H0.
    destruct (fillMap_Set_drawn d0 (X (Min r)) y col im0 H0) as (da & -> & Hda).
    cbn [run_bind]. destruct (drawn_fillMap _ _ _ Hda) as [ima Hima].
    destruct (fillMap_Set_drawn da (X (Max r)) y col ima Hima) as (db & -> & Hdb).
    exists db. split; [done|]. by apply (drawn_app _ _ _ _ _ Hda Hdb). }
  exists d2. split; [done|]. by eapply drawn_app.
Qed.

Lemma rect_calls_spec col r c :
  c ∈ rect_calls col r <-> set_col c = col /\ on_border r (set_point c).
Proof.
  unfold rect_calls, on_border, set_point. cbn [X Y].
  rewrite elem_of_app, !list_elem_of_bind. split.
  - intros [(x & Hc & Hx%elem_of_seqZ)|(y & Hc & Hy%elem_of_seqZ)];
      apply elem_of_cons in Hc as [->|Hc%list_elem_of_singleton]; subst;
      cbn [set_x set_y set_col]; (split; [done|]); lia.
  - destruct c as [x y c']. cbn [set_x set_y set_col].
    intros [-> [[Hx [->| ->]]|[Hy [->| ->]]]].
    + left. exists x. rewrite elem_of_seqZ. split; [set_solver|lia].
    + left. exists x. rewrite elem_of_seqZ. split; [set_solver|lia].
    + right. exists y. rewrite elem_of_seqZ. split; [set_solver|lia].
    + right. exists y. rewrite elem_of_seqZ. split; [set_solver|lia].
Qed.

Lemma rect_calls_length col r :
  length (rect_calls col r) =
  (2 * Z.to_nat (Dx r + 1) + 2 * Z.to_nat (Dy r + 1))%nat.
Proof.
  unfold rect_calls, Dx, Dy. rewrite length_app.
  rewrite !(length_bind_const _ 2%nat) by done. rewrite !length_seqZ.
  replace (X (Max r) + 1 - X (Min r)) with (X (Max r) - X (Min r) + 1) by lia.
  replace (Y (Max r) + 1 - Y (Min r)) with (Y (Max r) - Y (Min r) + 1) by lia.
  lia.
Qed.

Lemma PlotRectangle_draws_border_aux d r :
  fillMap d <> None -> 0 <= currFrame d ->
  exists d' cs, PlotRectangle d r = Done d' /\ drawn d d' cs.
Proof.
  intros Hfm Hcf. destruct (fillMap d) as [im|] eqn:Him; [|done].
  destruct (PickColor_returns d Hcf) as (col & Hcol & _).
  destruct (PlotRectangle_calls d r im col Him Hcol) as (d' & Hd' & Hdr).
  by exists d', (rect_calls col r).
Qed.

(** X23.  On an overlay whose image exists and whose frame number is not
    negative, [PlotRectangle] returns, changes nothing but the image, and
    calls [Set] with the colour of the frame on exactly the points of the two
    horizontal and the two vertical sides, both corners included: twice
    [Dx + 1] plus twice [Dy + 1] calls on a well formed rectangle. *)
Theorem PlotRectangle_draws_border d r :
  fillMap d <> None -> 0 <= currFrame d ->
  exists d' col cs,
    PlotRectangle d r = Done d' /\ PickColor d = Done col /\ drawn d d' cs /\
    (forall c, c ∈ cs -> set_col c = col) /\
    (forall p, (exists c, c ∈ cs /\ set_point c = p) <-> on_border r p) /\
    (well_formed r -> Z.of_nat (length cs) = 2 * (Dx r + 1) + 2 * (Dy r + 1)).
Proof.
  intros Hfm Hcf. destruct (fillMap d) as [im|] eqn:Him; [|done].
  destruct (PickColor_returns d Hcf) as (col & Hcol & _).
  destruct (PlotRectangle_calls d r im col Him Hcol) as (d' & Hd' & Hdr).
  exists d', col, (rect_calls col r). repeat split; try done.
  - intros c Hc. by apply rect_calls_spec in Hc as [? _].
  - intros (c & Hc%rect_calls_spec & <-). tauto.
  - intros Hp. exists (mkSetCall (X p) (Y p) col). split.
    + apply rect_calls_spec. unfold set_point. cbn. by rewrite mkPoint_eta.
    + unfold set_point. cbn. by rewrite mkPoint_eta.
  - intros [Hx Hy]. rewrite rect_calls_length. unfold Dx, Dy. lia.
Qed.

Lemma PlotRectangle_draws_border_witness :
  let d := mkDci (Some (mkRGBA (mkRect zeroPoint zeroPoint) [])) 0 zeroPoint 5 in
  let r := mkRect (mkPoint 0 0) (mkPoint 1 1) in
  exists d' col cs,
    PlotRectangle d r = Done d' /\ PickColor d = Done col /\ drawn d d' cs /\
    (forall c, c ∈ cs -> set_col c = col) /\
    (forall p, (exists c, c ∈ cs /\ set_point c = p) <-> on_border r p) /\
    (well_formed r -> Z.of_nat (length cs) = 2 * (Dx r + 1) + 2 * (Dy r + 1)).
Proof. intros d r. apply PlotRectangle_draws_border; [done|cbn; lia]. Defined.

Lemma square_border p k q :
  0 <= k ->
  on_border (mkRect (mkPoint (X p - k) (Y p - k)) (mkPoint (X p + k) (Y p + k))) q
  <-> cheb q p = k.
Proof. unfold on_border, cheb. cbn [Min Max X Y]. lia. Qed.

Lemma PlotMarker_calls d p im col :
  fillMap d = Some im -> PickColor d = Done col ->
  let sq k := mkRect (mkPoint (X p - k) (Y p - k)) (mkPoint (X p + k) (Y p + k)) in
  exists d', PlotMarker d p = Done d' /\
    drawn d d' (rect_calls col (sq 2) ++ rect_calls col (sq 4) ++ rect_calls col (sq 6)).
Proof.
  intros Him Hcol sq. unfold PlotMarker. fold (sq 2) (sq 4) (sq 6).
  destruct (PlotRectangle_calls d (sq 2) im col Him Hcol) as (d1 & -> & H1).
  cbn [run_bind]. destruct (drawn_fillMap _ _ _ H1) as [im1 Him1].
  destruct (PlotRectangle_calls d1 (sq 4) im1 col Him1) as (d2 & -> & H2).
  { by rewrite (PickColor_drawn _ _ _ H1). }
  cbn [run_bind]. destruct (drawn_fillMap _ _ _ H2) as [im2 Him2].
  destruct (PlotRectangle_calls d2 (sq 6) im2 col Him2) as (d3 & -> & H3).
  { by rewrite (PickColor_drawn _ _ _ H2), (PickColor_drawn _ _ _ H1). }
  exists d3. split; [done|]. eapply drawn_app; [done|]. by eapply drawn_app.
Qed.

Lemma PlotMarker_length p col :
  let sq k := mkRect (mkPoint (X p - k) (Y p - k)) (mkPoint (X p + k) (Y p + k)) in
  length (rect_calls col (sq 2) ++ rect_calls col (sq 4) ++ rect_calls col (sq 6))
  = 108%nat.
Proof.
  intros sq. rewrite !length_app, !rect_calls_length. unfold sq, Dx, Dy.
  cbn [Min Max X Y].
  replace (X p + 2 - (X p - 2) + 1) with 5 by lia.
  replace (Y p + 2 - (Y p - 2) + 1) with 5 by lia.
  replace (X p + 4 - (X p - 4) + 1) with 9 by lia.
  replace (Y p + 4 - (Y p - 4) + 1) with 9 by lia.
  replace (X p + 6 - (X p - 6) + 1) with 13 by lia.
  replace (Y p + 6 - (Y p - 6) + 1) with 13 by lia.
  reflexivity.
Qed.

(** X24.  On an overlay whose image exists and whose frame number is not
    negative, [PlotMarker(p)] returns after 108 calls of [Set], all with the
    colour of the frame, on exactly the points whose larger coordinate
    distance to [p] is 2, 4 or 6: three concentric squares. *)
Theorem PlotMarker_three_squares d p :
  fillMap d <> None -> 0 <= currFrame d ->
  exists d' col cs,
    PlotMarker d p = Done d' /\ PickColor d = Done col /\ drawn d d' cs /\
    length cs = 108%nat /\
    (forall c, c ∈ cs -> set_col c = col) /\
    (forall q, (exists c, c ∈ cs /\ set_point c = q) <->
               cheb q p = 2 \/ cheb q p = 4 \/ cheb q p = 6).
Proof.
  intros Hfm Hcf. destruct (fillMap d) as [im|] eqn:Him; [|done].
  destruct (PickColor_returns d Hcf) as (col & Hcol & _).
  destruct (PlotMarker_calls d p im col Him Hcol) as (d' & Hd' & Hdr).
  eexists d', col, _. split; [done|]. split; [done|]. split; [exact Hdr|].
  split; [apply PlotMarker_length|]. split.
  - intros c. rewrite !elem_of_app, !rect_calls_spec. tauto.
  - intros q. rewrite <- !(square_border p _ q) by lia. split.
    + intros (c & Hc & <-). rewrite !elem_of_app, !rect_calls_spec in Hc. tauto.
    + intros Hq. exists (mkSetCall (X q) (Y q) col).
      rewrite !elem_of_app, !rect_calls_spec. unfold set_point.
      cbn [set_x set_y set_col]. rewrite mkPoint_eta. tauto.
Qed.

Lemma PlotMarker_three_squares_witness :
  let d := mkDci (Some (mkRGBA (mkRect zeroPoint zeroPoint) [])) 3 zeroPoint 5 in
  let p := mkPoint 10 20 in
  exists d' col cs,
    PlotMarker d p = Done d' /\ PickColor d = Done col /\ drawn d d' cs /\
    length cs = 108%nat /\
    (forall c, c ∈ cs -> set_col c = col) /\
    (forall q, (exists c, c ∈ cs /\ set_point c = q) <->
               cheb q p = 2 \/ cheb q p = 4 \/ cheb q p = 6).
Proof. intros d p. apply PlotMarker_three_squares; [done|cbn; lia]. Defined.

Section OverlayFrames.
Variable NewRGBA_accepts : Rectangle -> bool.
Variable Atan2 : float -> float -> float.

Lemma StartNewFrame_first d b c :
  fillMap d = None -> NewRGBA_accepts b = true -> 0 <= currFrame d ->
  exists cs, length cs = 108%nat /\
    StartNewFrame NewRGBA_accepts d b c =
    Done (mkDci (Some (mkRGBA b cs)) (currFrame d) c 5).
Proof.
  intros Hfm Hacc Hcf. unfold StartNewFrame, NewRGBA. rewrite Hfm, Hacc.
  cbn [run_bind].
  set (d1 := mkDci (Some (mkRGBA b [])) (currFrame d) c 5).
  destruct (PickColor_returns d1 Hcf) as (col & Hcol & _).
  destruct (PlotMarker_calls d1 c (mkRGBA b []) col eq_refl Hcol)
    as (d2 & -> & (im & [= <-] & ->)).
  eexists. split; [apply (PlotMarker_length c col)|]. done.
Qed.

Lemma StartNewFrame_next d b c im :
  fillMap d = Some im -> 0 <= currFrame d -> currFrame d + 1 < 2 ^ 63 ->
  exists cs, length cs = 108%nat /\
    StartNewFrame NewRGBA_accepts d b c =
    Done (mkDci (Some (mkRGBA (Rect im) (calls im ++ cs)))
                (currFrame d + 1) (center d) (maxFrames d)).
Proof.
  intros Hfm Hcf Hlt. unfold StartNewFrame. rewrite Hfm. cbn [run_bind].
  rewrite int_wrap_small by lia.
  set (d1 := mkDci (Some im) (currFrame d + 1) (center d) (maxFrames d)).
  assert (Hcf1 : 0 <= currFrame d1) by (cbn; lia).
  destruct (PickColor_returns d1 Hcf1) as (col & Hcol & _).
  destruct (PlotMarker_calls d1 c im col eq_refl Hcol)
    as (d2 & -> & (im' & [= <-] & ->)).
  eexists. split; [apply (PlotMarker_length c col)|]. done.
Qed.

Lemma start_frames_next l : forall d im,
  fillMap d = Some im -> 0 <= currFrame d ->
  currFrame d + Z.of_nat (length l) < 2 ^ 63 ->
  exists cs, length cs = (108 * length l)%nat /\
    start_frames NewRGBA_accepts d l =
    Done (mkDci (Some (mkRGBA (Rect im) (calls im ++ cs)))
                (currFrame d + Z.of_nat (length l)) (center d) (maxFrames d)).
Proof.
  unfold start_frames.
  induction l as [|[b c] l IH]; intros d im Hfm Hcf Hlt.
  - exists []. split; [done|]. cbn [fold_left length Z.of_nat].
    rewrite app_nil_r, Z.add_0_r. destruct d, im. cbn in *. by subst.
  - cbn [fold_left run_bind fst snd]. cbn [length] in Hlt.
    destruct (StartNewFrame_next d b c im Hfm Hcf) as (cs1 & Hl1 & ->); [lia|].
    edestruct IH as (cs2 & Hl2 & ->); [done| |..]; cbn [currFrame]; [lia|lia|].
    exists (cs1 ++ cs2). split; [rewrite length_app; cbn [length]; lia|].
    cbn [Rect calls currFrame center maxFrames length].
    rewrite app_assoc. do 2 f_equal. lia.
Qed.

(** X25.  From the zero overlay, when [image.NewRGBA] accepts the bounds of
    the first frame, any run of fewer than [2^63] further calls of
    [StartNewFrame] returns: the image is still the one made for the bounds
    of the first frame, [center] is still the center of the first frame,
    [maxFrames] is 5, [currFrame] counts the later frames, and each frame has
    added the 108 calls of its marker. *)
Theorem StartNewFrame_keeps_first_frame b0 c0 l :
  NewRGBA_accepts b0 = true -> Z.of_nat (length l) < 2 ^ 63 ->
  exists cs, length cs = (108 * (1 + length l))%nat /\
    start_frames NewRGBA_accepts dci_zero ((b0, c0) :: l) =
    Done (mkDci (Some (mkRGBA b0 cs)) (Z.of_nat (length l)) c0 5).
Proof.
  intros Hacc Hlen. unfold start_frames. cbn [fold_left run_bind fst snd].
  destruct (StartNewFrame_first dci_zero b0 c0) as (cs1 & Hl1 & ->); [done..|].
  destruct (start_frames_next l (mkDci (Some (mkRGBA b0 cs1)) 0 c0 5) (mkRGBA b0 cs1))
    as (cs2 & Hl2 & Hrun); [done|done|cbn; lia|].
  unfold start_frames in Hrun. cbn [currFrame dci_zero]. rewrite Hrun.
  exists (cs1 ++ cs2). split; [rewrite length_app; lia|]. done.
Qed.

(** X26.  With [maxFrames] at 5, [Plot] does nothing at all from frame 5 on,
    whatever the angle and whether or not the overlay has its image.  In the
    frames 0 to 4, on an overlay that has its image, it returns after at
    most one call of [Set], at the point itself and with the colour of the
    frame, and changes nothing else. *)
Theorem Plot_one_point_or_none d p :
  maxFrames d = 5 ->
  (5 <= currFrame d -> Plot Atan2 d p = Done d) /\
  (0 <= currFrame d -> fillMap d <> None ->
   exists d' cs, Plot Atan2 d p = Done d' /\ drawn d d' cs /\
     (cs = [] \/ exists col, PickColor d = Done col /\ cs = [mkSetCall (X p) (Y p) col])).
Proof.
  intros Hmf. unfold Plot. rewrite Hmf. cbv zeta. cbn [Z.eqb].
  match goal with |- context [Z.rem ?s 5] => generalize s end. intros seg.
  split.
  - intros Hcf. destruct (Z.eqb_spec (Z.rem seg 5) (currFrame d)) as [E|E]; [|done].
    exfalso. destruct (rem_range seg 5) as [Hp Hn]; [lia|].
    destruct (Z_lt_le_dec seg 0); lia.
  - intros Hcf Hfm. destruct (fillMap d) as [im|] eqn:Him; [|done].
    destruct (Z.eqb_spec (Z.rem seg 5) (currFrame d)) as [E|E]; cbn [negb].
    + destruct (PickColor_returns d Hcf) as (col & Hcol & _).
      rewrite Hcol. cbn [run_bind].
      destruct (fillMap_Set_drawn d (X p) (Y p) col im Him) as (d' & -> & Hd').
      exists d', [mkSetCall (X p) (Y p) col]. split; [done|]. split; [done|].
      right. by exists col.
    + exists d, []. split; [done|]. split; [by eapply drawn_nil|by left].
Qed.

End OverlayFrames.

Lemma StartNewFrame_keeps_first_frame_witness :
  exists cs, length cs = (108 * (1 + 1))%nat /\
    start_frames (fun _ => true) dci_zero
      [(mkRect (mkPoint 0 0) (mkPoint 5 5), mkPoint 2 2);
       (mkRect (mkPoint 0 0) (mkPoint 9 9), mkPoint 7 7)] =
    Done (mkDci (Some (mkRGBA (mkRect (mkPoint 0 0) (mkPoint 5 5)) cs)) 1 (mkPoint 2 2) 5).
Proof.
  apply (StartNewFrame_keeps_first_frame (fun _ => true)
           (mkRect (mkPoint 0 0) (mkPoint 5 5)) (mkPoint 2 2)
           [(mkRect (mkPoint 0 0) (mkPoint 9 9), mkPoint 7 7)]).
  - reflexivity.
  - cbn. lia.
Defined.

(** With an angle of 0 the segment is 15, which belongs to frame 0: there
    the point is drawn in the first colour, and in frame 7 nothing is. *)
Lemma Plot_one_point_or_none_witness :
  let im := mkRGBA (mkRect zeroPoint (mkPoint 9 9)) [] in
  let p := mkPoint 3 4 in
  Plot (fun _ _ => 0%float) (mkDci (Some im) 7 zeroPoint 5) p
    = Done (mkDci (Some im) 7 zeroPoint 5) /\
  (exists d' cs,
     Plot (fun _ _ => 0%float) (mkDci (Some im) 0 zeroPoint 5) p = Done d' /\
     drawn (mkDci (Some im) 0 zeroPoint 5) d' cs /\
     (cs = [] \/ exists col, PickColor (mkDci (Some im) 0 zeroPoint 5) = Done col /\
                             cs = [mkSetCall (X p) (Y p) col])) /\
  Plot (fun _ _ => 0%float) (mkDci (Some im) 0 zeroPoint 5) p
    = Done (mkDci (Some (mkRGBA (mkRect zeroPoint (mkPoint 9 9))
                                [mkSetCall 3 4 (mkColor 0xa000 0 0 0xffff)]))
                  0 zeroPoint 5).
Proof.
  intros im p. split; [|split].
  - apply (Plot_one_point_or_none (fun _ _ => 0%float) (mkDci (Some im) 7 zeroPoint 5) p).
    + reflexivity.
    + cbn. lia.
  - apply (Plot_one_point_or_none (fun _ _ => 0%float) (mkDci (Some im) 0 zeroPoint 5) p).
    + reflexivity.
    + cbn. lia.
    + done.
  - vm_compute. reflexivity.
Defined.

(** ** The detector with its overlay *)

Lemma started_drawn d d' cs : started d -> drawn d d' cs -> started d'.
Proof. intros (Hfm & Hmf & Hcf) (im & _ & ->). by split. Qed.

Section PlottingSim.
Variable NewRGBA_accepts : Rectangle -> bool.
Variable Atan2 : float -> float -> float.

Lemma Plot_started d p :
  started d -> exists d' cs, Plot Atan2 d p = Done d' /\ drawn d d' cs.
Proof.
  intros (Hfm & Hmf & Hcf). destruct (fillMap d) as [im|] eqn:Him; [|done].
  unfold Plot. rewrite Hmf. cbv zeta. cbn [Z.eqb].
  destruct (negb _).
  - exists d, []. split; [done|]. by eapply drawn_nil.
  - destruct (PickColor_returns d Hcf) as (col & -> & _). cbn [run_bind].
    destruct (fillMap_Set_drawn d (X p) (Y p) col im Him) as (d' & -> & Hd').
    by exists d', [mkSetCall (X p) (Y p) col].
Qed.

(** One pass with the overlay is the pass without it, beside some calls of
    [Set]. *)
Lemma fill_step_dci_sim img thresh bounds st d :
  started d ->
  exists d' cs, drawn d d' cs /\
    fill_step_dci Atan2 img thresh bounds st d =
    match fill_step img thresh bounds st with
    | Ok (Some st') => Done (Some (st', d'))
    | Ok None => Done None
    | IndexPanic => Panics IndexOutOfRange
    end.
Proof.
  intros Hd. destruct Hd as (Hfm & Hmf & Hcf).
  destruct (fillMap d) as [im|] eqn:Him; [|done].
  assert (Hsame : drawn d d []) by (by eapply drawn_nil).
  destruct st as [[|p rest] sn ll]; unfold fill_step_dci, fill_step;
    cbn [toVisit seen limb].
  { by exists d, []. }
  destruct (seen_get sn (X p) (Y p)) as [[|]|]; cbn [run_of_res run_bind bind];
    [by exists d, []| |by exists d, []].
  destruct (seen_mark sn (X p) (Y p)) as [sn'|]; cbn [run_of_res run_bind bind];
    [|by exists d, []].
  destruct (_ >? _); [by exists d, []|].
  destruct (Plot_started d p) as (d' & cs & -> & Hdr).
  { split; [by rewrite Him|done]. }
  cbn [run_bind]. exists d', cs. split; [done|].
  by destruct (enqueue_neighbours bounds sn' p rest).
Qed.

Lemma fill_loop_dci_sim img thresh bounds fuel : forall st d,
  started d ->
  exists d' cs, drawn d d' cs /\
    fill_loop_dci Atan2 img thresh bounds fuel st d =
    match fill_loop img thresh bounds fuel st with
    | None => None
    | Some (Ok ll) => Some (Done (ll, d'))
    | Some IndexPanic => Some (Panics IndexOutOfRange)
    end.
Proof.
  induction fuel as [|fuel IH]; intros st d Hd.
  { destruct Hd as (Hfm & _). destruct (fillMap d) as [im|] eqn:Him; [|done].
    exists d, []. split; [by eapply drawn_nil|done]. }
  cbn [fill_loop_dci fill_loop].
  destruct (fill_step_dci_sim img thresh bounds st d Hd) as (d1 & cs1 & Hdr1 & ->).
  destruct (fill_step img thresh bounds st) as [[st'|]|].
  - destruct (IH st' d1) as (d2 & cs2 & Hdr2 & ->); [by eapply started_drawn|].
    exists d2, (cs1 ++ cs2). split; [by eapply drawn_app|done].
  - destruct Hd as (Hfm & _). destruct (fillMap d) as [im|] eqn:Him; [|done].
    exists d, []. split; [by eapply drawn_nil|done].
  - destruct Hd as (Hfm & _). destruct (fillMap d) as [im|] eqn:Him; [|done].
    exists d, []. split; [by eapply drawn_nil|done].
Qed.

(** X27.  The overlay leaves the result of the detector alone once it has
    its image.  Started on the zero overlay with bounds that
    [image.NewRGBA] accepts, or on an overlay with a frame started and a
    frame number below the largest [int], the statements of [FindLunarLimb]
    up to [dci.PlotRectangle] end as the fill alone does: with an index out
    of range where the fill has one, and else with the limb of the fill, on
    an overlay that is ready for the next frame.  Started on the zero
    overlay with bounds that [image.NewRGBA] refuses, they panic in
    [StartNewFrame], before the fill. *)
Theorem overlay_leaves_result_alone d si :
  ((d = dci_zero /\ NewRGBA_accepts (ImgBounds (OrigImage si)) = true) \/
   (started d /\ currFrame d + 1 < 2 ^ 63) ->
   exists r, floodfill (OrigImage si) (fill_thresh (seed_limb si)) (seed_limb si) = Some r /\
     match r with
     | Ok ll => exists d', FindLunarLimb_plotting NewRGBA_accepts Atan2 d si
                           = Some (Done (ll, d')) /\ started d'
     | IndexPanic => FindLunarLimb_plotting NewRGBA_accepts Atan2 d si
                     = Some (Panics IndexOutOfRange)
     end) /\
  (d = dci_zero -> NewRGBA_accepts (ImgBounds (OrigImage si)) = false ->
   FindLunarLimb_plotting NewRGBA_accepts Atan2 d si = Some (Panics LibraryPanic)).
Proof.
  split.
  2:{ intros -> Hno. unfold FindLunarLimb_plotting, StartNewFrame, NewRGBA.
      cbn [fillMap dci_zero]. rewrite Hno. done. }
  intros Hd.
  destruct (floodfill_terminates (OrigImage si) (fill_thresh (seed_limb si)) (seed_limb si))
    as [r Hr].
  exists r. split; [done|].
  unfold FindLunarLimb_plotting. fold (seed_limb si).
  assert (exists d1, StartNewFrame NewRGBA_accepts d (ImgBounds (OrigImage si))
                       (LuminalCenter (seed_limb si)) = Done d1 /\ started d1)
    as (d1 & -> & Hd1).
  { destruct Hd as [[-> Hacc]|[(Hfm & Hmf & Hcf) Hlt]].
    - destruct (StartNewFrame_first NewRGBA_accepts dci_zero _
                  (LuminalCenter (seed_limb si)) eq_refl Hacc)
        as (cs & _ & ->); [done|].
      eexists. split; [done|]. by split.
    - destruct (fillMap d) as [im|] eqn:Him; [|done].
      destruct (StartNewFrame_next NewRGBA_accepts d (ImgBounds (OrigImage si))
                  (LuminalCenter (seed_limb si)) im Him Hcf Hlt)
        as (cs & _ & ->).
      eexists. split; [done|]. split; [done|]. split; [done|]. cbn. lia. }
  destruct (fill_loop_dci_sim (OrigImage si) (fill_thresh (seed_limb si))
              (ImgBounds (OrigImage si))
              (fill_fuel (ImgBounds (OrigImage si)) (LuminalCenter (seed_limb si)))
              (mkFill [LuminalCenter (seed_limb si)] ∅ (seed_limb si)) d1 Hd1)
    as (d2 & cs2 & Hdr2 & ->).
  unfold floodfill in Hr. rewrite Hr.
  destruct r as [ll|]; [|done].
  pose proof (started_drawn _ _ _ Hd1 Hdr2) as Hd2.
  destruct Hd2 as (Hfm2 & Hmf2 & Hcf2).
  destruct (PlotRectangle_draws_border_aux d2 (Bounds ll) Hfm2 Hcf2) as (d3 & cs3 & -> & Hdr3).
  cbn [run_bind]. exists d3. split; [done|].
  eapply started_drawn; [|exact Hdr3]. by split.
Qed.
End PlottingSim.

(** On [img_disk] the run with the overlay ends with the limb of the fill
    when [image.NewRGBA] accepts the bounds, and with a panic when it does
    not. *)
Lemma overlay_leaves_result_alone_witness :
  (exists r, floodfill img_disk (fill_thresh (seed_limb (mkStackedImage img_disk)))
                       (seed_limb (mkStackedImage img_disk)) = Some r /\
     match r with
     | Ok ll => exists d', FindLunarLimb_plotting (fun _ => true) (fun _ _ => 0%float)
                             dci_zero (mkStackedImage img_disk)
                           = Some (Done (ll, d')) /\ started d'
     | IndexPanic => FindLunarLimb_plotting (fun _ => true) (fun _ _ => 0%float)
                       dci_zero (mkStackedImage img_disk)
                     = Some (Panics IndexOutOfRange)
     end) /\
  FindLunarLimb_plotting (fun _ => false) (fun _ _ => 0%float)
    dci_zero (mkStackedImage img_disk) = Some (Panics LibraryPanic).
Proof.
  split.
  - apply (overlay_leaves_result_alone (fun _ => true) (fun _ _ => 0%float)
             dci_zero (mkStackedImage img_disk)).
    left. split; reflexivity.
  - apply (overlay_leaves_result_alone (fun _ => false) (fun _ _ => 0%float)
             dci_zero (mkStackedImage img_disk)); reflexivity.
Defined.
